(** * datacube-core: dataset resolution, update, archive/restore and date sequences

    A shallow embedding of [datacube/scripts/dataset.py] and
    [datacube/utils/dates.py], with the properties of the design document
    proved (or refuted) against it.

    Conventions.
    - Python dictionaries whose iteration order is observable are association
      lists; dictionaries used purely as maps (the resolver cache, the bulk
      lookup result) are [gmap]s.
    - Python exceptions that a function lets escape are the [Raised] outcome;
      errors returned as values are ordinary results.
    - Objects whose identity matters (resolved [Dataset]s) live in a store and
      are referred to by location.
    - A generator is what it yields (and logs), in order, with the exception
      that ends it, if any; one whose source may go on for ever is run for a
      given number of items. *)

From Stdlib Require Import ZArith String Ascii List Lia.
From stdpp Require Import base tactics option list gmap strings fin_maps fin_sets.

Set Warnings "-register-all,-clear-no-such-hyp".

Open Scope string_scope.
Open Scope list_scope.
Open Scope nat_scope.

(* ===================================================================== *)
(** * Part I. Definitions                                                 *)
(* ===================================================================== *)

(** ** Outcomes of calls that may let an exception escape *)

Inductive exn :=
  | ValueError (msg : string)
  | TypeError (msg : string)
  | AttributeError (msg : string)
  | OverflowError (msg : string)
  | AssertionError.

Inductive outcome (A : Type) :=
  | Returned (a : A)
  | Raised (e : exn).
Arguments Returned {A} a.
Arguments Raised {A} e.

#[export] Instance outcome_bind : MBind outcome := λ A B f m,
  match m with
  | Returned a => f a
  | Raised e => Raised e
  end.
#[export] Instance outcome_ret : MRet outcome := @Returned.

(** ** datacube/utils/dates.py *)

Module Dates.
Local Open Scope Z_scope.

(** The keyword arguments [relativedelta] is built with here. *)
Record relativedelta := { years : Z; months : Z; days : Z }.

Inductive freq := YEARLY | MONTHLY | DAILY.

(** What asking an iterator for its next item gives: the item, the end of
    the iteration, or an exception. *)
Inductive step (A : Type) :=
  | Item (a : A)
  | StopIteration
  | Error (e : exn).
Arguments Item {A} a.
Arguments StopIteration {A}.
Arguments Error {A} e.

(** python-dateutil is an external library: the operations [date_sequence]
    uses from it are an interface.  [date_add d r] is [d + r] and
    [date_le a b] is [a <= b], either of which may raise.
    [rrule f n s u i] is what the iteration of
    [rrule(f, interval=n, dtstart=s, until=u)] gives when asked for its
    item number [i], the ones before having been items: a recurrence may
    end, fail or go on for ever, and an exception of the constructor is
    that of item [0]. *)
Class Calendar (date : Type) := {
  date_add : date → relativedelta → outcome date;
  date_le : date → date → outcome bool;
  rrule : freq → Z → date → date → nat → step date
}.

(** [int(s)] for a [str] argument is Python's built-in, an interface as
    well: it returns an integer or raises [ValueError], which is [None]. *)
Class Builtins := {
  int : string → option Z
}.

(** [s[:-1]] and [s[-1:]]. *)
Definition all_but_last (s : string) : string :=
  string_of_list_ascii (removelast (list_ascii_of_string s)).

Definition last_char (s : string) : string :=
  match rev (list_ascii_of_string s) with
  | c :: _ => String c EmptyString
  | [] => EmptyString
  end.

(** [FREQS] and [DURATIONS]; [None] is the [KeyError]. *)
Definition FREQS (units : string) : option freq :=
  if String.eqb units "y" then Some YEARLY
  else if String.eqb units "m" then Some MONTHLY
  else if String.eqb units "d" then Some DAILY
  else None.

Definition DURATIONS (units : string) : option (Z → relativedelta) :=
  if String.eqb units "y" then Some (fun n => {| years := n; months := 0; days := 0 |})
  else if String.eqb units "m" then Some (fun n => {| years := 0; months := n; days := 0 |})
  else if String.eqb units "d" then Some (fun n => {| years := 0; months := 0; days := n |})
  else None.

(** How far a generator has come after a number of steps. *)
Inductive ending :=
  | Exhausted
  | Failed (e : exn)
  | Running.

Section DateSequence.
Context `{Builtins}.

Definition split_duration (duration : string) : outcome (Z * string) :=
  match int (all_but_last duration) with
  | Some count => Returned (count, last_char duration)
  | None => Raised (ValueError "invalid literal for int() with base 10")
  end.

Definition parse_interval (interval : string) : outcome (Z * freq) :=
  '(count, units) ← split_duration interval;
  match FREQS units with
  | Some f => Returned (count, f)
  | None => Raised (ValueError "Invalid interval")
  end.

Definition parse_duration (duration : string) : outcome relativedelta :=
  '(count, units) ← split_duration duration;
  match DURATIONS units with
  | Some mk => Returned (mk count)
  | None => Raised (ValueError "Duration not in months or years")
  end.

Context {date : Type} `{Calendar date}.

(** The [for] loop of [date_sequence] from item [i] of the recurrence on,
    run over at most [fuel] items: the pairs it yields and how it has
    ended, [Running] when it has not. *)
Fixpoint date_sequence_loop (recurrence : nat → step date)
    (stats_duration : relativedelta) (end_ : date) (i fuel : nat)
  : list (date * date) * ending :=
  match fuel with
  | O => ([], Running)
  | S fuel =>
      match recurrence i with
      | StopIteration => ([], Exhausted)
      | Error e => ([], Failed e)
      | Item start_date =>
          match date_add start_date stats_duration with
          | Raised e => ([], Failed e)
          | Returned end_date =>
              match date_le end_date end_ with
              | Raised e => ([], Failed e)
              | Returned false =>
                  date_sequence_loop recurrence stats_duration end_ (S i) fuel
              | Returned true =>
                  match date_add start_date stats_duration with
                  | Raised e => ([], Failed e)
                  | Returned end_date' =>
                      let '(rest, how) :=
                        date_sequence_loop recurrence stats_duration end_ (S i) fuel in
                      ((start_date, end_date') :: rest, how)
                  end
              end
          end
      end
  end.

(** The generator, run until it has asked the recurrence for [fuel] items:
    nothing of its body runs before the first of them is asked for, and
    its first two statements may raise then. *)
Definition date_sequence (start end_ : date) (stats_duration step_size : string)
    (fuel : nat) : list (date * date) * ending :=
  match fuel with
  | O => ([], Running)
  | S _ =>
      match parse_interval step_size with
      | Raised e => ([], Failed e)
      | Returned (step_size, freq) =>
          match parse_duration stats_duration with
          | Raised e => ([], Failed e)
          | Returned stats_duration =>
              date_sequence_loop (rrule freq step_size start end_)
                stats_duration end_ 0 fuel
          end
      end
  end.
End DateSequence.

(** An [int] to run the parsers on: it reads the decimal literals written
    in ASCII, with surrounding whitespace, an optional sign and single
    underscores between digits. *)
Definition is_space (c : ascii) : bool :=
  let n := nat_of_ascii c in
  ((9 <=? n)%nat && (n <=? 13)%nat) || (n =? 32)%nat.

Definition digit_of (c : ascii) : option Z :=
  let n := nat_of_ascii c in
  if ((48 <=? n)%nat && (n <=? 57)%nat) then Some (Z.of_nat (n - 48)) else None.

Fixpoint lstrip (s : list ascii) : list ascii :=
  match s with
  | c :: r => if is_space c then lstrip r else s
  | [] => []
  end.

Definition strip (s : list ascii) : list ascii :=
  rev (lstrip (rev (lstrip s))).

(** [prev] tells whether the previous character was a digit. *)
Fixpoint digits (acc : Z) (prev : bool) (s : list ascii) : option Z :=
  match s with
  | [] => if prev then Some acc else None
  | c :: r =>
      match digit_of c with
      | Some d => digits (10 * acc + d) true r
      | None =>
          if (Ascii.eqb c "_" && prev)%bool then
            match r with
            | c' :: _ => if digit_of c' is Some _ then digits acc false r else None
            | [] => None
            end
          else None
      end
  end.

Definition ascii_int (s : string) : option Z :=
  let body := strip (list_ascii_of_string s) in
  match body with
  | "-"%char :: r => Z.opp <$> digits 0 false r
  | "+"%char :: r => digits 0 false r
  | _ => digits 0 false body
  end.

#[global] Instance AsciiBuiltins : Builtins := {
  int := ascii_int
}.

(** A small calendar to run the generator on: dates are the day numbers
    [0] to [max_day], a month is 30 days and a year 365; as in dateutil, a
    recurrence with interval zero repeats its first date for ever and one
    with a negative interval fails. *)
Definition delta_days (d : relativedelta) : Z :=
  365 * years d + 30 * months d + days d.

Definition freq_days (f : freq) : Z :=
  match f with YEARLY => 365 | MONTHLY => 30 | DAILY => 1 end.

Definition max_day : Z := 3652058.

Definition day_add (d : Z) (r : relativedelta) : outcome Z :=
  let sum := d + delta_days r in
  if (0 <=? sum) && (sum <=? max_day) then Returned sum
  else Raised (OverflowError "date value out of range").

Definition day_rrule (f : freq) (interval start until : Z) (i : nat) : step Z :=
  let next := start + Z.of_nat i * (interval * freq_days f) in
  if interval <? 0 then Error (ValueError "year is out of range")
  else if next <=? until then Item next
  else StopIteration.

#[global] Instance DayCalendar : Calendar Z := {
  date_add := day_add;
  date_le a b := Returned (a <=? b);
  rrule := day_rrule
}.

End Dates.

(** ** Metadata documents *)

(** A YAML/JSON value.  Mappings keep their insertion order. *)
Inductive value :=
  | VNone
  | VInt (z : Z)
  | VStr (s : string)
  | VList (l : list value)
  | VDict (d : list (string * value)).

Definition document := list (string * value).

Fixpoint value_eqb (a b : value) {struct a} : bool :=
  match a, b with
  | VNone, VNone => true
  | VInt x, VInt y => Z.eqb x y
  | VStr x, VStr y => String.eqb x y
  | VList l, VList m =>
      (fix go (l m : list value) {struct l} : bool :=
         match l, m with
         | [], [] => true
         | x :: l', y :: m' => value_eqb x y && go l' m'
         | _, _ => false
         end) l m
  | VDict l, VDict m =>
      (fix go (l m : list (string * value)) {struct l} : bool :=
         match l, m with
         | [], [] => true
         | (k, x) :: l', (k', y) :: m' =>
             String.eqb k k' && value_eqb x y && go l' m'
         | _, _ => false
         end) l m
  | _, _ => false
  end.

(** [d.get(k)] / [k in d] on a mapping. *)
Fixpoint dict_get {A} (k : string) (d : list (string * A)) : option A :=
  match d with
  | [] => None
  | (k', v) :: r => if String.eqb k k' then Some v else dict_get k r
  end.

Definition dict_has {A} (k : string) (d : list (string * A)) : bool :=
  match dict_get k d with Some _ => true | None => false end.

Definition dict_keys {A} (d : list (string * A)) : list string := d.*1.

(** [set(a).issubset(b)] on lists of keys. *)
Definition issubset (a b : list string) : bool :=
  forallb (fun k => existsb (String.eqb k) b) a.

(** ** Products and catalogue entries *)

Module Product.
Record t := Mk {
  name : string;
  measurements : list (string * value);
  metadata_doc : document
}.
End Product.

(** What the catalogue returns for a dataset it holds: identity, product,
    document, locations, archived flag and archival time (microseconds; read
    only when [is_archived] holds). *)
Module CatalogEntry.
Record t := Mk {
  id : string;
  type : Product.t;
  metadata_doc : document;
  uris : list string;
  is_archived : bool;
  archived_time : Z
}.
End CatalogEntry.

(** The catalogue operations used here.  [bulk_get] receives the identities
    found in the document tree, some of which may be absent ([None]). *)
Module Index.
Record t := Mk {
  get : string → option CatalogEntry.t;
  bulk_get : list (option string) → list CatalogEntry.t;
  get_derived : string → list CatalogEntry.t
}.
End Index.

(** A [Dataset] object built by this module: [Dataset(type, doc, uris, sources)].
    Its sources are references to other [Dataset] objects of the store. *)
Abbreviation loc := nat (only parsing).

Module Dataset.
Record t := Mk {
  type : Product.t;
  metadata_doc : document;
  uris : list string;
  sources : option (list (string * loc))
}.

(** Modelled from the spec: [Dataset.id] and [Dataset.measurements], which
    the absent model class reads from the metadata document: the identity
    field, and the dataset's measurement fields ([None] when it defines
    none). *)
Definition id (d : t) : option value := dict_get "id" (metadata_doc d).

Definition measurements (d : t) : option (list (string * value)) :=
  match dict_get "measurements" (metadata_doc d) with
  | Some (VDict m) => Some m
  | _ => None
  end.
End Dataset.

(** ** Signature matcher: [product_matcher] *)

Module rule.
Record t := Mk { product : Product.t; signature : document }.
End rule.

(** Modelled from the spec: [changes.contains], absent from the sources.  A
    document contains a signature when every field of the signature exists in
    the document with an equal value; nested mappings are compared
    recursively, other values structurally, and extra fields of the document
    are ignored. *)
Fixpoint contains (v1 v2 : value) {struct v2} : bool :=
  match v2 with
  | VDict sig =>
      match v1 with
      | VDict d =>
          (fix all (l : list (string * value)) : bool :=
             match l with
             | [] => true
             | (k, sv) :: r =>
                 match dict_get k d with
                 | Some dv => contains dv sv && all r
                 | None => false
                 end
             end) sig
      | _ => false
      end
  | _ => value_eqb v1 v2
  end.

(** The payload of a [BadMatch] exception: the message template and the
    values formatted into it. *)
Inductive BadMatch :=
  | SignatureMismatch (relevant_doc signature : document)
    (* 'Dataset metadata did not match product signature. ...' *)
  | NoMatchingProduct (doc_id : value)
    (* 'No matching Product found for dataset %s' *)
  | SeveralProducts (doc_id : value) (names : list string).
    (* 'Auto match failed, dataset %s matches several products:\n  %s' *)

Definition matches (doc : document) (r : rule.t) : bool :=
  contains (VDict doc) (VDict (rule.signature r)).

Definition single_product_matcher (r : rule.t) (doc : document)
  : BadMatch + Product.t :=
  if matches doc r then inr (rule.product r)
  else
    let relevant_doc :=
      List.filter (fun kv => dict_has kv.1 (rule.signature r)) doc in
    inl (SignatureMismatch relevant_doc (rule.signature r)).

Definition multi_product_matcher (rules : list rule.t) (doc : document)
  : BadMatch + Product.t :=
  let matched :=
    map rule.product
        (List.filter (fun r => contains (VDict doc) (VDict (rule.signature r))) rules) in
  match matched with
  | [p] => inr p
  | _ =>
      let doc_id := default (VStr "<missing id>") (dict_get "id" doc) in
      match matched with
      | [] => inl (NoMatchingProduct doc_id)
      | _ => inl (SeveralProducts doc_id (map Product.name matched))
      end
  end.

Definition product_matcher (rules : list rule.t)
  : outcome (document → BadMatch + Product.t) :=
  match rules with
  | [] => Raised AssertionError
  | [r] => Returned (single_product_matcher r)
  | _ => Returned (multi_product_matcher rules)
  end.

(** ** [check_dataset_consistent] *)

Definition check_dataset_consistent (dataset : Dataset.t) : bool * option string :=
  let product_measurements := dict_keys (Product.measurements (Dataset.type dataset)) in
  if length product_measurements =? 0 then (true, None)
  else
    match Dataset.measurements dataset with
    | None => (false, Some "No measurements defined for a dataset")
    | Some ms =>
        if negb (issubset product_measurements (dict_keys ms))
        then (false, Some "measurement fields don't match type specification")
        else (true, None)
    end.

(** ** Document navigation *)

(** The navigator over a metadata document, by the attributes this module
    reads: the identity (absent when the document has none), the document
    itself, the document with its lineage sources removed, and the
    navigators of the lineage sources by classifier. *)
Module SimpleDocNav.
Inductive t := Nav {
  id : option string;
  doc : document;
  doc_without_lineage_sources : document;
  sources : list (string * t)
}.
End SimpleDocNav.

Definition document_eqb (a b : document) : bool := value_eqb (VDict a) (VDict b).

(** [toolz.assoc(d, k, v)]: the value of a key the mapping has is replaced
    where it stands, and a new key comes last. *)
Fixpoint assoc {A} (d : list (string * A)) (k : string) (v : A) : list (string * A) :=
  match d with
  | [] => [(k, v)]
  | (k', v') :: r => if String.eqb k k' then (k, v) :: r else (k', v') :: assoc r k v
  end.

(** Modelled from the spec: the document a navigator keeps as
    [doc_without_lineage_sources], its document with the lineage sources
    stripped: the mapping of lineage sources is there and empty, as
    [toolz.assoc_in(doc, ('lineage', 'source_datasets'), {})] leaves it,
    whether the document had sources, an empty lineage or none.  A lineage
    that is not a mapping is taken as an empty one. *)
Definition without_lineage_sources (doc : document) : document :=
  let lineage := match dict_get "lineage" doc with Some (VDict l) => l | _ => [] end in
  assoc doc "lineage" (VDict (assoc lineage "source_datasets" (VDict []))).

Definition id_eqb (a b : option string) : bool :=
  match a, b with
  | Some x, Some y => String.eqb x y
  | None, None => true
  | _, _ => false
  end.

(** ** Stateful computations that may fail *)

Definition stateful (S E A : Type) : Type := S → (E + A) * S.

#[export] Instance stateful_ret {S E} : MRet (stateful S E) :=
  λ A a s, (inr a, s).

#[export] Instance stateful_bind {S E} : MBind (stateful S E) :=
  λ A B f m s,
    match m s with
    | (inr a, s') => f a s'
    | (inl e, s') => (inl e, s')
    end.

Definition raise {S E A} (e : E) : stateful S E A := λ s, (inl e, s).
Definition gets {S E A} (f : S → A) : stateful S E A := λ s, (inr (f s), s).
Definition modify {S E} (f : S → S) : stateful S E unit := λ s, (inr tt, f s).

(** ** Lineage traversals of [datacube.model.utils] *)

Section Remap.
Context {S E R : Type}.
Variable mk_node : SimpleDocNav.t → list (string * R) → stateful S E R.

(** Modelled from the spec: [remap_lineage_doc], absent from the sources.
    The tree is rebuilt bottom-up: the lineage sources of a node are
    remapped first, in the order of the mapping, then [mk_node] is applied to
    the node and its remapped sources. *)
Fixpoint remap_lineage_doc (root : SimpleDocNav.t) : stateful S E R :=
  match root with
  | SimpleDocNav.Nav _ _ _ srcs =>
      sources ←
        (fix visit_all (l : list (string * SimpleDocNav.t))
           : stateful S E (list (string * R)) :=
           match l with
           | [] => mret []
           | (k, c) :: r =>
               v ← remap_lineage_doc c;
               vs ← visit_all r;
               mret ((k, v) :: vs)
           end) srcs;
      mk_node root sources
  end.

(** The loop over the sources of a node, on its own. *)
Fixpoint remap_sources (l : list (string * SimpleDocNav.t))
  : stateful S E (list (string * R)) :=
  match l with
  | [] => mret []
  | (k, c) :: r =>
      v ← remap_lineage_doc c;
      vs ← remap_sources r;
      mret ((k, v) :: vs)
  end.
End Remap.

(** The nodes of a document tree, lineage sources before the node that
    refers to them. *)
Fixpoint traverse_datasets (root : SimpleDocNav.t) : list SimpleDocNav.t :=
  match root with
  | SimpleDocNav.Nav _ _ _ srcs =>
      (fix visit_all (l : list (string * SimpleDocNav.t)) : list SimpleDocNav.t :=
         match l with
         | [] => []
         | (_, c) :: r => traverse_datasets c ++ visit_all r
         end) srcs ++ [root]
  end.

(** The same over the sources of a node. *)
Fixpoint traverse_sources (l : list (string * SimpleDocNav.t)) : list SimpleDocNav.t :=
  match l with
  | [] => []
  | (_, c) :: r => traverse_datasets c ++ traverse_sources r
  end.

Fixpoint get_list {A} (k : option string) (v : A)
    (out : list (option string * list A)) : list (option string * list A) :=
  match out with
  | [] => [(k, [v])]
  | (k', vs) :: r =>
      if id_eqb k k' then (k', vs ++ [v]) :: r else (k', vs) :: get_list k v r
  end.

(** Modelled from the spec: [flatten_datasets], absent from the sources: the
    flat mapping from each identity of the tree to the documents carrying
    it, in the order the traversal meets them. *)
Definition flatten_datasets (ds : SimpleDocNav.t)
  : list (option string * list SimpleDocNav.t) :=
  foldl (fun out n => get_list (SimpleDocNav.id n) n out) [] (traverse_datasets ds).

Inductive InvalidDocException :=
  | InconsistentMetadata (id : string).

(** Modelled from the spec: [dedup_lineage], absent from the sources.
    Depth-first from the root, the first occurrence of an identity is
    recorded and later occurrences are replaced by the recorded one; a later
    occurrence whose body (lineage apart) differs is an error.  Documents
    without an identity are never shared. *)
Definition dedup_node (ds : SimpleDocNav.t) (sources : list (string * SimpleDocNav.t))
  : stateful (gmap string SimpleDocNav.t) InvalidDocException SimpleDocNav.t :=
  let out := SimpleDocNav.Nav (SimpleDocNav.id ds) (SimpleDocNav.doc ds)
               (SimpleDocNav.doc_without_lineage_sources ds) sources in
  match SimpleDocNav.id ds with
  | None => mret out
  | Some k =>
      existing ← gets (λ cache, cache !! k);
      match existing with
      | Some recorded =>
          if document_eqb (SimpleDocNav.doc_without_lineage_sources ds)
               (SimpleDocNav.doc_without_lineage_sources recorded)
          then mret recorded
          else raise (InconsistentMetadata k)
      | None =>
          _ ← modify (λ cache, <[k := out]> cache);
          mret out
      end
  end.

Definition dedup_lineage (root : SimpleDocNav.t) : InvalidDocException + SimpleDocNav.t :=
  (remap_lineage_doc dedup_node root ∅).1.

(** What the cache of [dedup_lineage] maintains.  A tree is closed under a
    cache when each of its documents that carries an identity is the one
    recorded under it; every recorded tree is closed. *)
Definition dedup_closed (c : gmap string SimpleDocNav.t) (l : list SimpleDocNav.t) : Prop :=
  ∀ m k, m ∈ l → SimpleDocNav.id m = Some k → c !! k = Some m.

Definition dedup_inv (c : gmap string SimpleDocNav.t) : Prop :=
  ∀ k n, c !! k = Some n → dedup_closed c (traverse_datasets n).

(** ** Consistency checker *)

Definition doc_change : Type := list string * option value * option value.

(** Modelled from the spec: [get_doc_changes], absent from the sources: the
    field-path-addressed differences between two documents, each with the
    value on either side ([None] for a field one side lacks). *)
Fixpoint get_doc_changes (a : value) (b : option value) (prefix : list string)
  {struct a} : list doc_change :=
  match b with
  | None => [(prefix, Some a, None)]
  | Some b =>
      if value_eqb a b then []
      else
        match a, b with
        | VDict da, VDict db =>
            (fix each (l : list (string * value)) : list doc_change :=
               match l with
               | [] => []
               | (k, va) :: r =>
                   get_doc_changes va (dict_get k db) (prefix ++ [k]) ++ each r
               end) da
            ++ flat_map
                 (fun kv => if dict_has kv.1 da then []
                            else [(prefix ++ [kv.1], None, Some kv.2)]) db
        | _, _ => [(prefix, Some a, Some b)]
        end
  end.

(** The error text joins the rendered differences; here it is the list of
    differences itself. *)
Definition check_consistent (a b : document) : bool * option (list doc_change) :=
  let diffs := get_doc_changes (VDict a) (Some (VDict b)) [] in
  if length diffs =? 0 then (true, None) else (false, Some diffs).

(** ** Dataset resolver: [dataset_resolver] *)

(** What one resolution does to obtain a product, recorded for counting:
    reading the product of a catalogued dataset, or calling the matcher. *)
Inductive product_lookup :=
  | CatalogProduct (k : option string)
  | MatcherCall (k : option string) (doc : document).

Definition lookup_key (ev : product_lookup) : option string :=
  match ev with
  | CatalogProduct k => k
  | MatcherCall k _ => k
  end.

(** The [Dataset] objects built so far (a location is an index into
    [store]), the [cache] dictionary of [resolve], and the product lookups
    made. *)
Record resolver_state := {
  store : list Dataset.t;
  cache : gmap (option string) loc;
  lookups : list product_lookup
}.

Definition resolver_init : resolver_state :=
  {| store := []; cache := ∅; lookups := [] |}.

Definition new_dataset {E} (d : Dataset.t) : stateful resolver_state E loc :=
  λ σ, (inr (length (store σ)),
        {| store := store σ ++ [d]; cache := cache σ; lookups := lookups σ |}).

Definition note {E} (ev : product_lookup) : stateful resolver_state E unit :=
  modify (λ σ, {| store := store σ; cache := cache σ; lookups := lookups σ ++ [ev] |}).

Definition with_cache {E} (v : loc) (k : option string) : stateful resolver_state E loc :=
  _ ← modify (λ σ, {| store := store σ; cache := <[k := v]> (cache σ);
                      lookups := lookups σ |});
  mret v.

(** [db_dss.get(k)]: the keys of [db_dss] are strings, so an absent
    identity finds nothing. *)
Definition db_get (db_dss : gmap string CatalogEntry.t) (k : option string)
  : option CatalogEntry.t :=
  match k with
  | Some s => db_dss !! s
  | None => None
  end.

Section ResolveDs.
Variable uri : string.
Variable main_uuid : option string.
Variable db_dss : gmap string CatalogEntry.t.
Variable match_product : document → BadMatch + Product.t.

Definition resolve_ds (ds : SimpleDocNav.t) (sources : list (string * loc))
  : stateful resolver_state BadMatch loc :=
  cached ← gets (λ σ, cache σ !! SimpleDocNav.id ds);
  match cached with
  | Some cached => mret cached
  | None =>
      let uris := if id_eqb (SimpleDocNav.id ds) main_uuid then [uri] else [] in
      let doc := SimpleDocNav.doc ds in
      let db_ds := db_get db_dss (SimpleDocNav.id ds) in
      product ←
        match db_ds with
        | Some db_ds =>
            _ ← note (CatalogProduct (SimpleDocNav.id ds));
            mret (CatalogEntry.type db_ds)
        | None =>
            _ ← note (MatcherCall (SimpleDocNav.id ds) doc);
            match match_product doc with
            | inr product => mret product
            | inl e => raise e
            end
        end;
      v ← new_dataset (Dataset.Mk product doc uris (Some sources));
      with_cache v (SimpleDocNav.id ds)
  end.

(** [remap_lineage_doc(main_ds, resolve_ds, cache={})]. *)
Definition resolve_lineage (main_ds : SimpleDocNav.t)
  : (BadMatch + loc) * resolver_state :=
  remap_lineage_doc resolve_ds main_ds resolver_init.
End ResolveDs.

(** *** What a run of the resolver maintains *)

Section ResolverInvariant.
Variable uri : string.
Variable main_uuid : option string.
Variable db : gmap string CatalogEntry.t.
Variable match_product : document → BadMatch + Product.t.
(** The documents of the tree being resolved. *)
Variable N : SimpleDocNav.t → Prop.

(** [refs] refers, classifier by classifier, to the objects cached under
    the identities of the sources [srcs]. *)
Definition refers (c : gmap (option string) loc)
    (srcs : list (string * SimpleDocNav.t)) (refs : list (string * loc)) : Prop :=
  Forall2 (λ s r, s.1 = r.1 ∧ c !! SimpleDocNav.id s.2 = Some r.2) srcs refs.

(** The product lookups made for identity [k]. *)
Definition lookups_for (σ : resolver_state) (k : option string) : list product_lookup :=
  filter (λ ev, lookup_key ev = k) (lookups σ).

(** [d] is the object built for identity [k]: from a document with that
    identity, with its sources referring to cached objects, its location
    set for the root only, and its product obtained by one lookup of the
    right kind. *)
Record built (σ : resolver_state) (k : option string) (d : Dataset.t) : Prop := {
  built_node : ∃ n refs,
    N n ∧ SimpleDocNav.id n = k ∧
    Dataset.metadata_doc d = SimpleDocNav.doc n ∧
    Dataset.sources d = Some refs ∧
    refers (cache σ) (SimpleDocNav.sources n) refs;
  built_uris : Dataset.uris d = if id_eqb k main_uuid then [uri] else [];
  built_product :
    match db_get db k with
    | Some e =>
        Dataset.type d = CatalogEntry.type e ∧
        lookups_for σ k = [CatalogProduct k]
    | None =>
        match_product (Dataset.metadata_doc d) = inr (Dataset.type d) ∧
        lookups_for σ k = [MatcherCall k (Dataset.metadata_doc d)]
    end
}.

Record resolver_inv (σ : resolver_state) : Prop := {
  inv_cached : ∀ k a, cache σ !! k = Some a → ∃ d, store σ !! a = Some d ∧ built σ k d;
  inv_stored : ∀ a d, store σ !! a = Some d → ∃ k, cache σ !! k = Some a;
  inv_distinct : ∀ k k' a, cache σ !! k = Some a → cache σ !! k' = Some a → k = k';
  inv_looked_up : ∀ ev, ev ∈ lookups σ → is_Some (cache σ !! lookup_key ev)
}.

(** The state in which the matcher rejected the document [n]. *)
Definition failed_at (σ : resolver_state) (e : BadMatch) : Prop :=
  ∃ σ0 n,
    resolver_inv σ0 ∧ N n ∧
    cache σ0 !! SimpleDocNav.id n = None ∧
    db_get db (SimpleDocNav.id n) = None ∧
    match_product (SimpleDocNav.doc n) = inl e ∧
    store σ = store σ0 ∧ cache σ = cache σ0 ∧
    lookups σ = lookups σ0 ++ [MatcherCall (SimpleDocNav.id n) (SimpleDocNav.doc n)].
End ResolverInvariant.

(** A resolved dataset: the location of the root object and the objects
    built for it. *)
Definition resolved : Type := loc * list Dataset.t.

Definition root_dataset (r : resolved) : option Dataset.t := r.2 !! r.1.

Inductive resolve_error :=
  | ErrInvalidDoc (e : InvalidDocException)
  | ErrMissingLineage (ids : list string)
    (* 'Following lineage datasets are missing from DB: %s' *)
  | ErrInconsistentLineage (bad : list (string * option (list doc_change)))
    (* 'Inconsistent lineage dataset {}:\n> {}' per entry *)
  | ErrBadMatch (e : BadMatch).

(** [toolz.valmap(toolz.first, m)]. *)
Definition valmap_first {A} (m : list (option string * list A))
  : list (option string * A) :=
  omap (λ kv, match kv.2 with x :: _ => Some (kv.1, x) | [] => None end) m.

Fixpoint ids_get {A} (k : option string) (d : list (option string * A)) : option A :=
  match d with
  | [] => None
  | (k', v) :: r => if id_eqb k k' then Some v else ids_get k r
  end.

(** [{str(ds.id): ds for ds in dss}]: a later entry replaces an earlier one. *)
Definition by_id (dss : list CatalogEntry.t) : gmap string CatalogEntry.t :=
  foldl (λ m ds, <[CatalogEntry.id ds := ds]> m) ∅ dss.

Definition in_db (db_dss : gmap string CatalogEntry.t) (k : option string) : bool :=
  match db_get db_dss k with Some _ => true | None => false end.

(** [','.join(ids)] needs strings: an absent identity is a [TypeError].  The
    result keeps the identities apart. *)
Fixpoint join_ids (ids : list (option string)) : outcome (list string) :=
  match ids with
  | [] => Returned []
  | Some s :: r => rest ← join_ids r; Returned (s :: rest)
  | None :: _ => Raised (TypeError "sequence item: expected str instance, NoneType found")
  end.

Section Resolve.
Variable index : Index.t.
Variable match_product : document → BadMatch + Product.t.
Variables fail_on_missing_lineage verify_lineage : bool.

Definition ds_by_uuid (main_ds : SimpleDocNav.t) : list (option string * SimpleDocNav.t) :=
  valmap_first (flatten_datasets main_ds).

Definition all_uuid (main_ds : SimpleDocNav.t) : list (option string) :=
  (ds_by_uuid main_ds).*1.

Definition db_dss (main_ds : SimpleDocNav.t) : gmap string CatalogEntry.t :=
  by_id (Index.bulk_get index (all_uuid main_ds)).

(** The sets [lineage_uuids] and [missing_lineage], in the order of
    [all_uuid] (a Python set has no order of its own). *)
Definition lineage_uuids (main_ds : SimpleDocNav.t) : list (option string) :=
  List.filter (λ x, negb (id_eqb x (SimpleDocNav.id main_ds))) (all_uuid main_ds).

Definition missing_lineage (main_ds : SimpleDocNav.t) : list (option string) :=
  List.filter (λ x, negb (in_db (db_dss main_ds) x)) (lineage_uuids main_ds).

Definition bad_lineage (main_ds : SimpleDocNav.t)
  : list (string * option (list doc_change)) :=
  flat_map
    (λ uuid,
       match uuid with
       | Some s =>
           match db_dss main_ds !! s, ids_get uuid (ds_by_uuid main_ds) with
           | Some db_ds, Some ds =>
               let '(ok, err) :=
                 check_consistent (SimpleDocNav.doc_without_lineage_sources ds)
                                  (CatalogEntry.metadata_doc db_ds) in
               if negb ok then [(s, err)] else []
           | _, _ => []
           end
       | None => []
       end)
    (lineage_uuids main_ds).

Definition resolve (main_ds : SimpleDocNav.t) (uri : string)
  : outcome (resolve_error + resolved) :=
  match dedup_lineage main_ds with
  | inl e => Returned (inl (ErrInvalidDoc e))
  | inr main_ds =>
      let main_uuid := SimpleDocNav.id main_ds in
      if (0 <? length (missing_lineage main_ds)) && fail_on_missing_lineage
      then
        names ← join_ids (missing_lineage main_ds);
        Returned (inl (ErrMissingLineage names))
      else if verify_lineage && (0 <? length (bad_lineage main_ds))
      then Returned (inl (ErrInconsistentLineage (bad_lineage main_ds)))
      else
        match resolve_lineage uri main_uuid (db_dss main_ds) match_product main_ds with
        | (inr root, σ) => Returned (inr (root, store σ))
        | (inl e, _) => Returned (inl (ErrBadMatch e))
        end
  end.

Definition resolve_no_lineage (ds : SimpleDocNav.t) (uri : string)
  : outcome (resolve_error + resolved) :=
  let doc := SimpleDocNav.doc_without_lineage_sources ds in
  match match_product doc with
  | inl e => Returned (inl (ErrBadMatch e))
  | inr product => Returned (inr (0, [Dataset.Mk product doc [uri] (Some [])]))
  end.
End Resolve.

Definition dataset_resolver (index : Index.t) (product_matching_rules : list rule.t)
    (fail_on_missing_lineage verify_lineage skip_lineage : bool)
  : outcome (SimpleDocNav.t → string → outcome (resolve_error + resolved)) :=
  match_product ← product_matcher product_matching_rules;
  Returned (if skip_lineage
            then resolve_no_lineage match_product
            else resolve index match_product fail_on_missing_lineage verify_lineage).

(** ** [load_datasets] *)

Inductive log_line :=
  | LogResolveError (err : resolve_error)
    (* '%s', str(err) *)
  | LogInconsistent (id : option value) (reason : option string).
    (* "Dataset %s inconsistency: %s", dataset.id, reason *)

(** The generator over the documents read from [dataset_paths], given as the
    [(uri, ds)] pairs of the document stream: the datasets it yields, the
    errors it logs, and the exception that ended it, if one escaped the
    resolver. *)
Fixpoint load_datasets (docs : list (string * SimpleDocNav.t))
    (ds_resolve : SimpleDocNav.t → string → outcome (resolve_error + resolved))
  : list resolved * list log_line * option exn :=
  match docs with
  | [] => ([], [], None)
  | (uri, ds) :: rest =>
      match ds_resolve ds uri with
      | Raised e => ([], [], Some e)
      | Returned (inl err) =>
          let '(out, log, e) := load_datasets rest ds_resolve in
          (out, LogResolveError err :: log, e)
      | Returned (inr dataset) =>
          match root_dataset dataset with
          | None => ([], [], Some (AttributeError "dataset"))
          | Some d =>
              let '(is_consistent, reason) := check_dataset_consistent d in
              if negb is_consistent then
                let '(out, log, e) := load_datasets rest ds_resolve in
                (out, LogInconsistent (Dataset.id d) reason :: log, e)
              else
                let '(out, log, e) := load_datasets rest ds_resolve in
                (dataset :: out, log, e)
          end
      end
  end.

(** ** [update]: what to do with the previously recorded location *)

Inductive location_action := archive_location | remove_location.

Inductive update_event :=
  | Warning (action_name : string)
    (* "Refusing to %s old location, there are several" *)
  | Echo (action_name old_uri new_uri : string)
    (* 'Will {} old location {}, and add new one {}' *)
  | LocationCall (action : location_action) (id uri : string).

Inductive location_policy := keep | archive | forget.

(** The catalogue operation and the name a policy passes to [loc_action]. *)
Definition policy_action (p : location_policy) : option (location_action * string) :=
  match p with
  | keep => None
  | archive => Some (archive_location, "archive")
  | forget => Some (remove_location, "forget")
  end.

Section UpdateCmd.
Variable dry_run : bool.
(** What the catalogue answers to a location action. *)
Variable reply : location_action → string → string → bool.

Definition loc_action (action : location_action) (new_ds : Dataset.t)
    (existing_ds : CatalogEntry.t) (action_name : string)
  : outcome (option bool * list update_event) :=
  if length (CatalogEntry.uris existing_ds) =? 0 then Returned (None, [])
  else if 1 <? length (CatalogEntry.uris existing_ds)
  then Returned (None, [Warning action_name])
  else
    match Dataset.uris new_ds, CatalogEntry.uris existing_ds with
    | [new_uri], [old_uri] =>
        if String.eqb new_uri old_uri then Returned (None, [])
        else if dry_run
        then Returned (Some true, [Echo action_name old_uri new_uri])
        else Returned (Some (reply action (CatalogEntry.id existing_ds) old_uri),
                       [LocationCall action (CatalogEntry.id existing_ds) old_uri])
    | _, _ => Raised (ValueError "not enough values to unpack")
    end.

Definition loc_archive (new_ds : Dataset.t) (existing_ds : CatalogEntry.t) :=
  loc_action archive_location new_ds existing_ds "archive".

Definition loc_forget (new_ds : Dataset.t) (existing_ds : CatalogEntry.t) :=
  loc_action remove_location new_ds existing_ds "forget".

Definition loc_keep (new_ds : Dataset.t) (existing_ds : CatalogEntry.t)
  : outcome (option bool * list update_event) :=
  Returned (None, []).

Definition update_loc (policy : location_policy) :=
  match policy with
  | archive => loc_archive
  | forget => loc_forget
  | keep => loc_keep
  end.
End UpdateCmd.

(** ** Derived-set walker: [_get_derived_set] *)

Definition product_eqb (a b : Product.t) : bool :=
  String.eqb (Product.name a) (Product.name b)
  && document_eqb (Product.measurements a) (Product.measurements b)
  && document_eqb (Product.metadata_doc a) (Product.metadata_doc b).

Fixpoint strings_eqb (a b : list string) : bool :=
  match a, b with
  | [], [] => true
  | x :: a', y :: b' => String.eqb x y && strings_eqb a' b'
  | _, _ => false
  end.

Definition entry_eqb (a b : CatalogEntry.t) : bool :=
  String.eqb (CatalogEntry.id a) (CatalogEntry.id b)
  && product_eqb (CatalogEntry.type a) (CatalogEntry.type b)
  && document_eqb (CatalogEntry.metadata_doc a) (CatalogEntry.metadata_doc b)
  && strings_eqb (CatalogEntry.uris a) (CatalogEntry.uris b)
  && Bool.eqb (CatalogEntry.is_archived a) (CatalogEntry.is_archived b)
  && Z.eqb (CatalogEntry.archived_time a) (CatalogEntry.archived_time b).

(** [index.datasets.get] answers [None] for an unknown identity, so the
    members of the derived set are optional entries. *)
Definition member_eqb (a b : option CatalogEntry.t) : bool :=
  match a, b with
  | Some x, Some y => entry_eqb x y
  | None, None => true
  | _, _ => false
  end.

(** A Python set of catalogue entries: a list without repetition, whose
    order means nothing. *)
Definition set_add (x : option CatalogEntry.t) (s : list (option CatalogEntry.t))
  : list (option CatalogEntry.t) :=
  if existsb (member_eqb x) s then s else s ++ [x].

Definition set_update (s : list (option CatalogEntry.t)) (l : list CatalogEntry.t)
  : list (option CatalogEntry.t) :=
  foldl (λ s d, set_add (Some d) s) s l.

(** [datetime.timedelta(seconds=n)], in microseconds. *)
Definition timedelta_seconds (n : Z) : Z := (n * 1000000)%Z.

(** The weight of a set of identities under a weight [w] on identities. *)
Definition weight (w : string → nat) (s : gset string) : nat :=
  sum_list_with w (elements s).

Section DerivedSet.
(** [set.pop()] removes and returns an arbitrary element: [pop s] is the
    element it picks from the non-empty set [s]. *)
Variable pop : gset string → string.
Variable index : Index.t.

(** The [while] loop, bounded by [fuel] iterations, with the identities
    passed to [get_derived] recorded in [calls]. *)
Fixpoint derived_loop (fuel : nat) (derived_set : list (option CatalogEntry.t))
    (to_process : gset string) (calls : list string)
  : option (list (option CatalogEntry.t) * list string) :=
  if decide (to_process = ∅) then Some (derived_set, calls)
  else
    match fuel with
    | O => None
    | S fuel =>
        let x := pop to_process in
        let to_process := to_process ∖ {[x]} in
        let derived := Index.get_derived index x in
        let to_process := to_process ∪ list_to_set (CatalogEntry.id <$> derived) in
        let derived_set := set_update derived_set derived in
        derived_loop fuel derived_set to_process (calls ++ [x])
    end.

Definition _get_derived_set (fuel : nat) (id_ : string)
  : option (list (option CatalogEntry.t) * list string) :=
  derived_loop fuel [Index.get index id_] {[id_]} [].

(** The number of derivation paths that start at [x], counted to depth [n]:
    a bound on the iterations of the loop. *)
Fixpoint paths (n : nat) (x : string) : nat :=
  match n with
  | O => 1
  | S n => 1 + sum_list_with (λ d, paths n (CatalogEntry.id d)) (Index.get_derived index x)
  end.

(** [d] is produced, directly or through other datasets, from [root]. *)
Inductive derived_from (root : string) : CatalogEntry.t → Prop :=
  | derived_direct d :
      d ∈ Index.get_derived index root → derived_from root d
  | derived_step p d :
      derived_from root p →
      d ∈ Index.get_derived index (CatalogEntry.id p) → derived_from root d.

(** What holds of [derived_set], [to_process] and the identities already
    looked up, each time the loop tests [to_process]. *)
Record walk_inv (root : string) (derived_set : list (option CatalogEntry.t))
    (to_process : gset string) (calls : list string) : Prop := {
  inv_root : root ∈ to_process ∨ root ∈ calls;
  inv_root_entry : Index.get index root ∈ derived_set;
  inv_closed : ∀ y c,
    y ∈ calls → c ∈ Index.get_derived index y →
    Some c ∈ derived_set ∧ (CatalogEntry.id c ∈ to_process ∨ CatalogEntry.id c ∈ calls);
  inv_sound : ∀ e,
    e ∈ derived_set →
    e = Index.get index root ∨ ∃ d, e = Some d ∧ derived_from root d;
  inv_reached : ∀ y,
    y ∈ to_process ∨ y ∈ calls →
    y = root ∨ ∃ d, derived_from root d ∧ CatalogEntry.id d = y
}.

(** ** [restore]: [_restore_one] *)

Record restore_result := {
  restoring : list CatalogEntry.t;       (* one 'restoring ...' line each *)
  restore_call : option (list string)    (* the argument of index.datasets.restore *)
}.

(** [d.is_archived] on every member: the member [None] has no such
    attribute. *)
Fixpoint members (s : list (option CatalogEntry.t)) : outcome (list CatalogEntry.t) :=
  match s with
  | [] => Returned []
  | Some d :: r => rest ← members r; Returned (d :: rest)
  | None :: _ => Raised (AttributeError "'NoneType' object has no attribute 'is_archived'")
  end.

Definition within_tolerance (target_dataset : CatalogEntry.t) (tolerance : Z)
    (dataset : CatalogEntry.t) : bool :=
  if negb (CatalogEntry.is_archived dataset) then false
  else
    let t := CatalogEntry.archived_time target_dataset in
    ((t - tolerance <=? CatalogEntry.archived_time dataset)
     && (CatalogEntry.archived_time dataset <=? t + tolerance))%Z.

(** [None] when the derived-set loop has not finished within [fuel]
    iterations. *)
Definition _restore_one (fuel : nat) (dry_run : bool) (id_ : string)
    (restore_derived : bool) (tolerance : Z) : option (outcome restore_result) :=
  let target_dataset := Index.get index id_ in
  to_process ←
    (if restore_derived then fst <$> _get_derived_set fuel id_
     else Some [target_dataset]);
  Some (
    to_process ← members to_process;
    let to_process := List.filter CatalogEntry.is_archived to_process in
    match target_dataset with
    | None => Raised (AttributeError "'NoneType' object has no attribute 'is_archived'")
    | Some target =>
        let to_process :=
          if restore_derived && CatalogEntry.is_archived target
          then List.filter (within_tolerance target tolerance) to_process
          else to_process in
        Returned {| restoring := to_process;
                    restore_call :=
                      if negb dry_run then Some (CatalogEntry.id <$> to_process)
                      else None |}
    end).
End DerivedSet.

(** ** Example data *)

Module Examples.

Definition landsat : Product.t :=
  Product.Mk "ls8_scene" [("red", VNone); ("nir", VNone)] [("platform", VStr "LANDSAT_8")].

Definition sentinel : Product.t :=
  Product.Mk "s2_scene" [] [("platform", VStr "SENTINEL_2")].

(** A catalogue entry with identity [i], archived at [t] when [archived]. *)
Definition entry (i : string) (archived : bool) (t : Z) : CatalogEntry.t :=
  CatalogEntry.Mk i landsat [("id", VStr i); ("platform", VStr "LANDSAT_8")] []
    archived t.

(** Two policies for [set.pop()]: the first element of the set, and a given
    element whenever it is present. *)
Definition pop_first (s : gset string) : string := default "" (head (elements s)).

Definition pop_prefer (x : string) (s : gset string) : string :=
  if decide (x ∈ s) then x else pop_first s.

(** [a] produced [b] and [d]; [b] produced [d] as well. *)
Definition diamond : Index.t :=
  Index.Mk
    (λ i, if String.eqb i "a" then Some (entry "a" false 0) else None)
    (λ _, [])
    (λ i, if String.eqb i "a" then [entry "b" false 0; entry "d" false 0]
          else if String.eqb i "b" then [entry "d" false 0]
          else []).

Definition diamond_rank (i : string) : nat :=
  if String.eqb i "a" then 2 else if String.eqb i "b" then 1 else 0.

(** A catalogue that records [a] as derived from itself. *)
Definition cyclic : Index.t :=
  Index.Mk (λ i, Some (entry i false 0)) (λ _, []) (λ i, [entry "a" false 0]).

(** A target archived at second 1000, with one derived dataset archived 300
    seconds later and one 900 seconds later. *)
Definition archived_family : Index.t :=
  Index.Mk
    (λ i, if String.eqb i "t" then Some (entry "t" true (timedelta_seconds 1000)) else None)
    (λ _, [])
    (λ i, if String.eqb i "t"
          then [entry "x" true (timedelta_seconds 1300);
                entry "y" true (timedelta_seconds 1900)]
          else []).

Definition family_rank (i : string) : nat := if String.eqb i "t" then 1 else 0.


(** A document with identity [i] for platform [platform], embedding the
    documents of its lineage sources [srcs]. *)
Definition nav (i platform : string) (srcs : list (string * SimpleDocNav.t))
  : SimpleDocNav.t :=
  let doc := [("id", VStr i); ("platform", VStr platform);
              ("lineage",
               VDict [("source_datasets",
                       VDict (map (λ kc, (kc.1, VDict (SimpleDocNav.doc kc.2))) srcs))])] in
  SimpleDocNav.Nav (Some i) doc (without_lineage_sources doc) srcs.

(** A document for platform [platform] that carries no identity and no
    lineage. *)
Definition anonymous (platform : string) : SimpleDocNav.t :=
  let doc := [("platform", VStr platform)] in
  SimpleDocNav.Nav None doc (without_lineage_sources doc) [].

(** A scene [a] made from [m] and [n], themselves both made from [b]. *)
Definition shared_ancestor : SimpleDocNav.t :=
  nav "a" "LANDSAT_8"
    [("s1", nav "m" "LANDSAT_8" [("src", nav "b" "SENTINEL_2" [])]);
     ("s2", nav "n" "LANDSAT_8" [("src", nav "b" "SENTINEL_2" [])])].

(** A scene whose source [b] is of a platform no product describes. *)
Definition unknown_source : SimpleDocNav.t :=
  nav "a" "LANDSAT_8" [("src", nav "b" "SPOT" [])].

(** A scene naming [b] twice, with different bodies. *)
Definition conflicting_sources : SimpleDocNav.t :=
  nav "a" "LANDSAT_8" [("s1", nav "b" "LANDSAT_8" []); ("s2", nav "b" "SPOT" [])].

(** A scene whose source carries no identity. *)
Definition anonymous_source : SimpleDocNav.t :=
  nav "a" "LANDSAT_8" [("src", anonymous "LANDSAT_8")].

(** A scene with two sources that carry no identity, of different
    platforms. *)
Definition anonymous_sources : SimpleDocNav.t :=
  nav "a" "LANDSAT_8" [("s1", anonymous "LANDSAT_8"); ("s2", anonymous "SENTINEL_2")].

(** A document without identity made from another. *)
Definition anonymous_family : SimpleDocNav.t :=
  let doc := [("platform", VStr "LANDSAT_8");
              ("lineage",
               VDict [("source_datasets",
                       VDict [("src", VDict (SimpleDocNav.doc (anonymous "SENTINEL_2")))])])] in
  SimpleDocNav.Nav None doc (without_lineage_sources doc) [("src", anonymous "SENTINEL_2")].

Definition rules : list rule.t :=
  [rule.Mk landsat (Product.metadata_doc landsat);
   rule.Mk sentinel (Product.metadata_doc sentinel)].

(** Resolving the scene with the shared ancestor when the catalogue holds
    none of its documents. *)
Definition shared_run : (BadMatch + loc) * resolver_state :=
  resolve_lineage "file:///a" (Some "a") ∅ (multi_product_matcher rules) shared_ancestor.

Definition empty_catalogue : Index.t := Index.Mk (λ _, None) (λ _, []) (λ _, []).

(** A catalogue that holds [b] already, as a Landsat scene. *)
Definition knows_b : Index.t :=
  Index.Mk (λ _, None)
    (λ ids, if existsb (id_eqb (Some "b")) ids then [entry "b" false 0] else [])
    (λ _, []).

End Examples.
(* ===================================================================== *)
(** * Part I, continued. The rest of the commands                        *)
(* ===================================================================== *)

(** ** [load_rules_from_types] *)

(** The product part of the catalogue: [index.products]. *)
Module Products.
Record t := Mk {
  get_by_name : string → option Product.t;
  get_all : list Product.t
}.
End Products.

Inductive rules_log :=
  | ProductNotPresent (name : string)
    (* 'Supplied product name "%s" not present in the database' *)
  | NoProducts.
    (* 'Found no products in the database' *)

(** The [for] loop over [product_names]: the products found, or the first
    name the catalogue does not know. *)
Fixpoint named_products (products : Products.t) (product_names : list string)
  : string + list Product.t :=
  match product_names with
  | [] => inr []
  | name :: rest =>
      match Products.get_by_name products name with
      | None => inl name
      | Some product =>
          match named_products products rest with
          | inl missing => inl missing
          | inr found => inr (product :: found)
          end
      end
  end.

(** [product_names] is the tuple of [--product] options, empty when none
    was given.  The result is the rule list, or [None], and what is logged. *)
Definition load_rules_from_types (products : Products.t) (product_names : list string)
  : option (list rule.t) * list rules_log :=
  let found :=
    if 0 <? length product_names then named_products products product_names
    else inr (Products.get_all products) in
  match found with
  | inl name => (None, [ProductNotPresent name])
  | inr ps =>
      if length ps =? 0 then (None, [NoProducts])
      else (Some (map (λ p, rule.Mk p (Product.metadata_doc p)) ps), [])
  end.

(** ** The shape of the resolved graph *)

(** Every cached location is an object of the store, every lineage
    reference of an object is a location lower than its own, and there are
    as many objects as cached identities. *)
Record store_ordered (σ : resolver_state) : Prop := {
  ord_cache : ∀ k a, cache σ !! k = Some a → a < length (store σ);
  ord_refs : ∀ a d refs ref,
    store σ !! a = Some d → Dataset.sources d = Some refs → ref ∈ refs → ref.2 < a;
  ord_size : size (cache σ) = length (store σ)
}.

(** ** [load_datasets_for_update] *)

Inductive update_load_log :=
  | FailureWhileProcessing (uri : string) (reason : string)
    (* "Failure while processing: %s\n > Reason: %s" *)
  | InconsistentForUpdate (id : option value) (reason : option string).
    (* "Dataset %s inconsistency: %s" *)

(** [(dataset, existing, error_msg)]. *)
Definition mk_dataset (index : Index.t) (ds : SimpleDocNav.t) (uri : string)
  : option Dataset.t * option CatalogEntry.t * option string :=
  match SimpleDocNav.id ds with
  | None => (None, None, Some "Metadata document it missing id field")
  | Some uuid =>
      match Index.get index uuid with
      | None =>
          (None, None, Some (String.append "No such dataset in the database: " uuid))
      | Some existing =>
          (Some (Dataset.Mk (CatalogEntry.type existing)
                   (SimpleDocNav.doc_without_lineage_sources ds) [uri] None),
           Some existing, None)
      end
  end.

(** The body of the loop for one document of the stream: the pair it
    yields, if any, and what it logs. *)
Definition load_for_update_step (index : Index.t) (uri : string) (doc : SimpleDocNav.t)
  : option (Dataset.t * CatalogEntry.t) * list update_load_log :=
  match mk_dataset index doc uri with
  | (Some dataset, Some existing, _) =>
      let '(is_consistent, reason) := check_dataset_consistent dataset in
      if is_consistent then (Some (dataset, existing), [])
      else (None, [InconsistentForUpdate (Dataset.id dataset) reason])
  | (_, _, error_msg) =>
      (None, [FailureWhileProcessing uri (default "None" error_msg)])
  end.

(** The generator over the [(uri, doc)] pairs of the document stream, for a
    catalogue that does not change while it runs. *)
Fixpoint load_datasets_for_update (docs : list (string * SimpleDocNav.t)) (index : Index.t)
  : list (Dataset.t * CatalogEntry.t) * list update_load_log :=
  match docs with
  | [] => ([], [])
  | (uri, doc) :: rest =>
      let '(yielded, log) := load_for_update_step index uri doc in
      let '(out, log') := load_datasets_for_update rest index in
      (match yielded with Some p => p :: out | None => out end, log ++ log')
  end.

(** ** What [load_datasets] yields *)

(** What [load_datasets] does with one document whose resolution returns. *)
Definition passes (ds_resolve : SimpleDocNav.t → string → outcome (resolve_error + resolved))
    (ud : string * SimpleDocNav.t) : option resolved :=
  match ds_resolve ud.2 ud.1 with
  | Returned (inr r) =>
      match root_dataset r with
      | Some d => if (check_dataset_consistent d).1 then Some r else None
      | None => None
      end
  | _ => None
  end.

(** ** Durations in the unit of a frequency *)

(** The [relativedelta] with [n] in the unit of a frequency. *)
Definition delta_in (f : Dates.freq) (n : Z) : Dates.relativedelta :=
  match f with
  | Dates.YEARLY => Dates.Build_relativedelta n 0 0
  | Dates.MONTHLY => Dates.Build_relativedelta 0 n 0
  | Dates.DAILY => Dates.Build_relativedelta 0 0 n
  end.

(** ** [info]: [build_dataset_info] and [info_cmd] *)

(** The ordered dictionary [build_dataset_info] returns: the keys
    'indexed', 'sources' and 'derived' are present only when set. *)
Inductive info := Info {
  info_id : string;
  info_product : string;
  info_status : string;
  info_indexed : option Z;
  info_locations : list string;
  info_fields : document;
  info_sources : option (list (string * info));
  info_derived : option (list info)
}.

(** A comprehension whose element expression may raise. *)
Fixpoint outcome_map {A B} (f : A → outcome B) (l : list A) : outcome (list B) :=
  match l with
  | [] => Returned []
  | x :: r => y ← f x; ys ← outcome_map f r; Returned (y :: ys)
  end.

(** What asking for the sources of a dataset fetched without them raises. *)
Definition not_loaded : exn :=
  AttributeError "'NoneType' object has no attribute 'items'".

Section Info.
Variable index : Index.t.
(** The attributes of a catalogued dataset that [CatalogEntry.t] does not
    carry: when it was indexed, the search fields of its metadata type, and
    its source datasets by classifier, [None] when the dataset was fetched
    without them. *)
Variable indexed_time : CatalogEntry.t → option Z.
Variable search_fields : CatalogEntry.t → document.
Variable sources : CatalogEntry.t → option (list (string * CatalogEntry.t)).

(** [depth] and [max_depth] are only compared with each other, and [depth]
    grows by one at each level: the recursion is on the number of levels
    left, [max_depth - depth]. *)
Fixpoint build_dataset_info_at (levels : nat) (dataset : CatalogEntry.t)
    (show_sources show_derived : bool) : outcome info :=
  let info := Info (CatalogEntry.id dataset) (Product.name (CatalogEntry.type dataset))
                (if CatalogEntry.is_archived dataset then "archived" else "active")
                (indexed_time dataset) (CatalogEntry.uris dataset)
                (search_fields dataset) in
  match levels with
  | O => Returned (info None None)
  | S levels =>
      info_sources ←
        (if show_sources then
           match sources dataset with
           | None => Raised not_loaded
           | Some items =>
               l ← outcome_map
                 (λ '(key, source),
                    i ← build_dataset_info_at levels source true false; Returned (key, i))
                 items;
               Returned (Some l)
           end
         else Returned None);
      info_derived ←
        (if show_derived then
           l ← outcome_map
             (λ derived, build_dataset_info_at levels derived false true)
             (Index.get_derived index (CatalogEntry.id dataset));
           Returned (Some l)
         else Returned None);
      Returned (info info_sources info_derived)
  end.

Definition build_dataset_info (dataset : CatalogEntry.t)
    (show_sources show_derived : bool) (depth max_depth : Z) : outcome info :=
  build_dataset_info_at (Z.to_nat (max_depth - depth)) dataset show_sources show_derived.

(** [info_cmd]: the documents written, the identifiers reported missing,
    and the exit status. *)
Fixpoint get_datasets (ids : list string) : list CatalogEntry.t * list string :=
  match ids with
  | [] => ([], [])
  | id_ :: rest =>
      let '(found, missing) := get_datasets rest in
      match Index.get index id_ with
      | Some dataset => (dataset :: found, missing)
      | None => (found, id_ :: missing)
      end
  end.

Definition info_cmd (show_sources show_derived : bool) (max_depth : Z) (ids : list string)
  : outcome (list info * list string * nat) :=
  let '(found, missing) := get_datasets ids in
  infos ← outcome_map
    (λ dataset, build_dataset_info dataset show_sources show_derived 1 max_depth) found;
  Returned (infos, missing, length missing).

End Info.

(** The number of levels of an info document, and whether the key
    'sources', or the key 'derived', occurs at any level of it. *)
Fixpoint info_levels (i : info) : nat :=
  S (max
       (match info_sources i with
        | Some l => max_list_with (λ '(_, c), info_levels c) l
        | None => 0
        end)
       (match info_derived i with
        | Some l => max_list_with info_levels l
        | None => 0
        end)).

Fixpoint shows_sources (i : info) : bool :=
  match info_sources i with
  | Some _ => true
  | None =>
      match info_derived i with
      | Some l => existsb shows_sources l
      | None => false
      end
  end.

Fixpoint shows_derived (i : info) : bool :=
  match info_derived i with
  | Some _ => true
  | None =>
      match info_sources i with
      | Some l => existsb (λ '(_, c), shows_derived c) l
      | None => false
      end
  end.

(** ** The catalogue as the commands change it *)

(** The operations of [index.datasets] that change the catalogue act on a
    state [St]; [view] gives the queries on it.  [add], [update] and
    [can_update] answer with the exception their caller guards against
    ([inl]: for [update] and [can_update] the message of a [ValueError]) or
    with their result; the other calls are taken to return.  The table
    [updates_allowed] maps every offset it holds to [changes.allow_any]: it
    is given by the set of its offsets. *)
Inductive index_error :=
  | IndexValueError (msg : string)
  | MissingRecordError (msg : string).

Module Catalogue.
Record t (St : Type) := Mk {
  view : St → Index.t;
  add : resolved → bool → St → index_error + St;
  update : Dataset.t → gset (list string) → St → string + St;
  can_update : Dataset.t → gset (list string) → St
               → string + bool * list doc_change * list doc_change;
  archive : list string → St → St;
  restore : list string → St → St;
  location : location_action → string → string → St → bool * St
}.
Arguments view {St}.
Arguments add {St}.
Arguments update {St}.
Arguments can_update {St}.
Arguments archive {St}.
Arguments restore {St}.
Arguments location {St}.
End Catalogue.

(** ** [archive]: [archive_cmd] *)

Inductive archive_event :=
  | Archiving (d : CatalogEntry.t)         (* 'archiving %s %s %s' *)
  | ArchiveCall (ids : list string).       (* index.datasets.archive *)

(** The echo loop over [to_process]: the lines written, and the exception
    that ends it at a member that is [None]. *)
Fixpoint echo_archiving (to_process : list (option CatalogEntry.t))
  : list archive_event * option exn :=
  match to_process with
  | [] => ([], None)
  | Some d :: rest =>
      let '(events, e) := echo_archiving rest in (Archiving d :: events, e)
  | None :: _ => ([], Some (AttributeError "'NoneType' object has no attribute 'type'"))
  end.

Section ArchiveCmd.
Context {St : Type}.
Variable catalogue : Catalogue.t St.
Variable pop : gset string → string.

(** The events of the command, the catalogue it leaves, and the exception
    that ended it, if any; [None] when a derived-set loop has not finished
    within [fuel] iterations. *)
Fixpoint archive_cmd (fuel : nat) (archive_derived dry_run : bool) (ids : list string)
    (st : St) : option (list archive_event * St * option exn) :=
  match ids with
  | [] => Some ([], st, None)
  | id_ :: rest =>
      let index := Catalogue.view catalogue st in
      to_process ←
        (if archive_derived then fst <$> _get_derived_set pop index fuel id_
         else Some [Index.get index id_]);
      match echo_archiving to_process with
      | (events, Some e) => Some (events, st, Some e)
      | (events, None) =>
          if negb dry_run then
            let ids_ := omap (fmap CatalogEntry.id) to_process in
            '(events', st', e) ←
              archive_cmd fuel archive_derived dry_run rest
                (Catalogue.archive catalogue ids_ st);
            Some (events ++ ArchiveCall ids_ :: events', st', e)
          else
            '(events', st', e) ← archive_cmd fuel archive_derived dry_run rest st;
            Some (events ++ events', st', e)
      end
  end.
End ArchiveCmd.

(** The arguments of the calls to [index.datasets.archive], in order. *)
Definition archive_calls (events : list archive_event) : list (list string) :=
  omap (λ ev, match ev with ArchiveCall ids => Some ids | Archiving _ => None end) events.

(** ** [update]: [parse_update_rules], [update_dry_run] and [update_cmd] *)

(** [key_str.split('.')]. *)
Fixpoint split_dots (s : string) : list string :=
  match s with
  | EmptyString => [EmptyString]
  | String c rest =>
      if Ascii.eqb c "."%char then EmptyString :: split_dots rest
      else
        match split_dots rest with
        | word :: words => String c word :: words
        | [] => [String c EmptyString]
        end
  end.

(** ['.'.join(offset)]. *)
Fixpoint join_dots (offset : list string) : string :=
  match offset with
  | [] => EmptyString
  | [word] => word
  | word :: words => String.append word (String "."%char (join_dots words))
  end.

Definition parse_update_rules (keys_that_can_change : list string) : gset (list string) :=
  foldl (λ updates_allowed key_str, {[split_dots key_str]} ∪ updates_allowed)
    ∅ keys_that_can_change.

Inductive update_cmd_event :=
  | LoadLog (l : update_load_log)
  | UpdateCall (dataset : Dataset.t)
    (* index.datasets.update(dataset, updates_allowed=updates_allowed) *)
  | CanUpdateCall (dataset : Dataset.t)
    (* index.datasets.can_update(dataset, updates_allowed=updates_allowed) *)
  | LocationStep (e : update_event)
    (* what update_loc writes and calls *)
  | Updated (id : option value)
    (* 'Updated %s' *)
  | FailedToUpdate (id : option value) (msg : string)
    (* 'Failed to update %s: %s' *)
  | CannotUpdateError (id : option value) (msg : string)
    (* 'Cannot update %s: %s' *)
  | CanUpdate (id : option value) (unsafe_changes safe_changes : nat)
    (* 'Can update %s: %s unsafe changes, %s safe changes' *)
  | CannotUpdate (id : option value) (unsafe_changes safe_changes : nat)
    (* 'Cannot update %s: %s unsafe changes, %s safe changes' *)
  | Summary (success fail : nat).
    (* '%d successful, %d failed' *)

Section UpdateCommand.
Context {St : Type}.
Variable catalogue : Catalogue.t St.
Variable dry_run : bool.
Variable location_policy : location_policy.
Variable updates_allowed : gset (list string).

Definition update_dry_run (dataset : Dataset.t) (st : St) : bool * list update_cmd_event :=
  match Catalogue.can_update catalogue dataset updates_allowed st with
  | inl e =>
      (false, [CanUpdateCall dataset; CannotUpdateError (Dataset.id dataset) e])
  | inr (can_update, safe_changes, unsafe_changes) =>
      (can_update,
       [CanUpdateCall dataset;
        (if can_update then CanUpdate else CannotUpdate)
          (Dataset.id dataset) (length unsafe_changes) (length safe_changes)])
  end.

(** The catalogue after the location calls among the events of
    [update_loc]. *)
Definition after_location (events : list update_event) (st : St) : St :=
  foldl (λ st ev,
           match ev with
           | LocationCall action id uri => (Catalogue.location catalogue action id uri st).2
           | _ => st
           end) st events.

(** The body of the loop for one pair of the generator: whether it counts
    as a success, what is written and called, and the catalogue left. *)
Definition update_one (dataset : Dataset.t) (existing_ds : CatalogEntry.t) (st : St)
  : outcome (bool * list update_cmd_event * St) :=
  if negb dry_run then
    match Catalogue.update catalogue dataset updates_allowed st with
    | inl e =>
        Returned (false, [UpdateCall dataset; FailedToUpdate (Dataset.id dataset) e], st)
    | inr st =>
        match update_loc dry_run
                (λ action id uri, (Catalogue.location catalogue action id uri st).1)
                location_policy dataset existing_ds with
        | Returned (_, events) =>
            Returned (true,
                      UpdateCall dataset :: (LocationStep <$> events)
                        ++ [Updated (Dataset.id dataset)],
                      after_location events st)
        | Raised (ValueError e) =>
            Returned (false,
                      [UpdateCall dataset; FailedToUpdate (Dataset.id dataset) e], st)
        | Raised e => Raised e
        end
    end
  else
    let '(can_update, events) := update_dry_run dataset st in
    if can_update then
      '(_, events') ← update_loc dry_run
                        (λ action id uri, (Catalogue.location catalogue action id uri st).1)
                        location_policy dataset existing_ds;
      Returned (true, events ++ (LocationStep <$> events'), st)
    else Returned (false, events, st).

(** The loop over the pairs of [load_datasets_for_update], a generator:
    each document is looked up in the catalogue as the updates before it
    have left it. *)
Fixpoint update_loop (docs : list (string * SimpleDocNav.t)) (st : St) (success fail : nat)
  : outcome (list update_cmd_event * St * nat * nat) :=
  match docs with
  | [] => Returned ([], st, success, fail)
  | (uri, doc) :: rest =>
      match load_for_update_step (Catalogue.view catalogue st) uri doc with
      | (Some (dataset, existing_ds), log) =>
          '(ok, events, st) ← update_one dataset existing_ds st;
          '(events', st, success, fail) ←
            (if ok : bool then update_loop rest st (success + 1) fail
             else update_loop rest st success (fail + 1));
          Returned ((LoadLog <$> log) ++ events ++ events', st, success, fail)
      | (None, log) =>
          '(events', st, success, fail) ← update_loop rest st success fail;
          Returned ((LoadLog <$> log) ++ events', st, success, fail)
      end
  end.
End UpdateCommand.

Definition update_cmd {St : Type} (catalogue : Catalogue.t St)
    (keys_that_can_change : list string) (dry_run : bool)
    (location_policy : location_policy) (datasets : list (string * SimpleDocNav.t)) (st : St)
  : outcome (list update_cmd_event * St) :=
  let updates_allowed := parse_update_rules keys_that_can_change in
  '(events, st, success, fail) ←
    update_loop catalogue dry_run location_policy updates_allowed datasets st 0 0;
  Returned (events ++ [Summary success fail], st).

(** Kinds of events of [update_cmd], to count them. *)
Definition is_load_log (ev : update_cmd_event) : bool :=
  match ev with LoadLog _ => true | _ => false end.
Definition is_update_call (ev : update_cmd_event) : bool :=
  match ev with UpdateCall _ => true | _ => false end.
Definition is_can_update_call (ev : update_cmd_event) : bool :=
  match ev with CanUpdateCall _ => true | _ => false end.
Definition is_location_call (ev : update_cmd_event) : bool :=
  match ev with LocationStep (LocationCall _ _ _) => true | _ => false end.
Definition is_updated (ev : update_cmd_event) : bool :=
  match ev with Updated _ => true | _ => false end.
Definition is_failed_to_update (ev : update_cmd_event) : bool :=
  match ev with FailedToUpdate _ _ => true | _ => false end.

Definition count_events {A} (p : A → bool) (events : list A) : nat :=
  length (List.filter p events).

(** Whether a word has a dot in it. *)
Fixpoint has_dot (s : string) : bool :=
  match s with
  | EmptyString => false
  | String c rest => Ascii.eqb c "."%char || has_dot rest
  end.

(** ** [add]: [index_datasets] and [index_cmd] *)

Inductive index_event :=
  | IndexLog (l : log_line)
  | Matched (dataset : resolved)
    (* _LOG.info('Matched %s', dataset) *)
  | AddCall (dataset : resolved) (with_lineage : bool)
    (* index.datasets.add(dataset, with_lineage=auto_add_lineage) *)
  | FailedToAdd (dataset : resolved) (e : index_error).
    (* 'Failed to add dataset %s: %s' *)

Inductive index_exit :=
  | Aborted            (* 'OK aborting', sys.exit(1) *)
  | NotInteractive     (* 'Use --confirm-ignore-lineage from non-interactive scripts. Aborting.' *)
  | NoRules (log : list rules_log).   (* sys.exit(2) *)

Definition exit_status (e : index_exit) : nat :=
  match e with
  | Aborted | NotInteractive => 1
  | NoRules _ => 2
  end.

Section IndexCmd.
Context {St : Type}.
Variable catalogue : Catalogue.t St.

(** The body of the loop of [index_datasets], for one dataset. *)
Definition index_dataset (auto_add_lineage dry_run : bool) (dataset : resolved) (st : St)
  : list index_event * St :=
  if negb dry_run then
    match Catalogue.add catalogue dataset auto_add_lineage st with
    | inr st => ([Matched dataset; AddCall dataset auto_add_lineage], st)
    | inl e =>
        ([Matched dataset; AddCall dataset auto_add_lineage; FailedToAdd dataset e], st)
    end
  else ([Matched dataset], st).


(** [run_it]: [index_datasets] on the generator [load_datasets].  A
    document is resolved when the loop asks for it, against the catalogue as
    the datasets added before have left it. *)
Fixpoint run_it
    (ds_resolve : Index.t → SimpleDocNav.t → string → outcome (resolve_error + resolved))
    (auto_add_lineage dry_run : bool) (docs : list (string * SimpleDocNav.t)) (st : St)
  : list index_event * St * option exn :=
  match docs with
  | [] => ([], st, None)
  | (uri, ds) :: rest =>
      match ds_resolve (Catalogue.view catalogue st) ds uri with
      | Raised e => ([], st, Some e)
      | Returned (inl err) =>
          let '(events, st, e) := run_it ds_resolve auto_add_lineage dry_run rest st in
          (IndexLog (LogResolveError err) :: events, st, e)
      | Returned (inr dataset) =>
          match root_dataset dataset with
          | None => ([], st, Some (AttributeError "dataset"))
          | Some d =>
              let '(is_consistent, reason) := check_dataset_consistent d in
              if negb is_consistent then
                let '(events, st, e) :=
                  run_it ds_resolve auto_add_lineage dry_run rest st in
                (IndexLog (LogInconsistent (Dataset.id d) reason) :: events, st, e)
              else
                let '(events, st) := index_dataset auto_add_lineage dry_run dataset st in
                let '(events', st, e) :=
                  run_it ds_resolve auto_add_lineage dry_run rest st in
                (events ++ events', st, e)
          end
      end
  end.

(** [stdin_isatty] and [confirmed]: whether the command runs on a terminal,
    and the answer given there to 'Are you sure?'. *)
Definition index_cmd (products : Products.t) (product_names : list string)
    (auto_add_lineage verify_lineage dry_run ignore_lineage confirm_ignore_lineage : bool)
    (stdin_isatty confirmed : bool)
    (dataset_paths : list (string * SimpleDocNav.t)) (st : St)
  : index_exit + list index_event * St * option exn :=
  let asked := negb confirm_ignore_lineage && ignore_lineage in
  if asked && stdin_isatty && negb confirmed then inl Aborted
  else if asked && negb stdin_isatty then inl NotInteractive
  else
    let confirm_ignore_lineage := if asked then true else confirm_ignore_lineage in
    match load_rules_from_types products product_names with
    | (None, log) => inl (NoRules log)
    | (Some rules, _) =>
        if length rules =? 0 then inr ([], st, Some AssertionError)
        else
          let ds_resolve index ds uri :=
            resolve ← dataset_resolver index rules (negb auto_add_lineage) verify_lineage
                        confirm_ignore_lineage;
            resolve ds uri in
          match product_matcher rules with
          | Raised e => inr ([], st, Some e)
          | Returned _ => inr (run_it ds_resolve auto_add_lineage dry_run dataset_paths st)
          end
    end.
End IndexCmd.

Definition is_index_log (ev : index_event) : bool :=
  match ev with IndexLog _ => true | _ => false end.
Definition is_matched (ev : index_event) : bool :=
  match ev with Matched _ => true | _ => false end.
Definition is_add_call (ev : index_event) : bool :=
  match ev with AddCall _ _ => true | _ => false end.

(** The datasets reported as matched, and the lines logged, in order. *)
Definition matched (events : list index_event) : list resolved :=
  omap (λ ev, match ev with Matched dataset => Some dataset | _ => None end) events.
Definition logged (events : list index_event) : list log_line :=
  omap (λ ev, match ev with IndexLog l => Some l | _ => None end) events.


(** ** [restore]: [restore_cmd] *)

Section RestoreCmd.
Context {St : Type}.
Variable catalogue : Catalogue.t St.
Variable pop : gset string → string.

End RestoreCmd.

(** ** The document stream: [ui_doc_path_stream] *)

Inductive stream_log :=
  | NoMetadataDocs (p : string)
    (* 'No supported metadata docs found for dataset %s' *)
  | FailedReading (fname : string).
    (* 'Failed reading documents from %s' *)

(** A generator that logs while it runs: what it logs ([inl]) and what it
    yields ([inr]), in the order of the events, and the exception that
    ends it, if one does. *)
Definition stream (L A : Type) : Type := list (L + A) * option exn.

(** The events [s], then the generator [rest]. *)
Definition stream_then {L A} (s : list (L + A)) (rest : stream L A) : stream L A :=
  (s ++ rest.1, rest.2).

Section DocStream.
(** The file system, as the stream sees it.  [get_metadata_path] gives
    the metadata file of a path or raises; [read_documents] is a generator
    of located documents, which are any values, and may end in an
    [InvalidDocException] ([inl]) or in another exception ([inr]) after the
    documents it has produced. *)
Variable get_metadata_path : string → outcome string.
Variable read_documents : string → list (string * value) * option (string + exn).
(** [SimpleDocNav(doc)], which raises [ValueError] on a document that is
    not a mapping. *)
Variable nav : value → outcome SimpleDocNav.t.

(** Only [ValueError] is caught. *)
Fixpoint resolve_doc_files {L} (paths : list string) (on_error : string → string → L)
  : stream L string :=
  match paths with
  | [] => ([], None)
  | p :: rest =>
      match get_metadata_path p with
      | Returned file => stream_then [inr file] (resolve_doc_files rest on_error)
      | Raised (ValueError e) =>
          stream_then [inl (on_error p e)] (resolve_doc_files rest on_error)
      | Raised e => ([], Some e)
      end
  end.

(** The inner loop, up to the first document [SimpleDocNav] rejects. *)
Fixpoint navigators (docs : list (string * value))
  : list (string * SimpleDocNav.t) * option exn :=
  match docs with
  | [] => ([], None)
  | (p, doc) :: rest =>
      match nav doc with
      | Returned n => let '(out, e) := navigators rest in ((p, n) :: out, e)
      | Raised e => ([], Some e)
      end
  end.

(** Only [InvalidDocException] is caught, and [SimpleDocNav(doc)] is inside
    the [try]: the exception of a document it rejects ends the stream.  The
    files are themselves a generator, [files], which ends in [ending]. *)
Fixpoint doc_path_stream_over {L} (files : list (L + string)) (ending : option exn)
    (on_error : string → string → L) : stream L (string * SimpleDocNav.t) :=
  match files with
  | [] => ([], ending)
  | inl l :: rest => stream_then [inl l] (doc_path_stream_over rest ending on_error)
  | inr fname :: rest =>
      let '(docs, failure) := read_documents fname in
      match navigators docs with
      | (out, Some e) => (inr <$> out, Some e)
      | (out, None) =>
          match failure with
          | None =>
              stream_then (inr <$> out) (doc_path_stream_over rest ending on_error)
          | Some (inl e) =>
              stream_then ((inr <$> out) ++ [inl (on_error fname e)])
                (doc_path_stream_over rest ending on_error)
          | Some (inr e) => (inr <$> out, Some e)
          end
      end
  end.

Definition doc_path_stream {L} (files : stream L string) (on_error : string → string → L)
  : stream L (string * SimpleDocNav.t) :=
  doc_path_stream_over files.1 files.2 on_error.

Definition ui_doc_path_stream (paths : list string)
  : stream stream_log (string * SimpleDocNav.t) :=
  let on_error1 p (e : string) := NoMetadataDocs p in
  let on_error2 p (e : string) := FailedReading p in
  doc_path_stream (resolve_doc_files paths on_error1) on_error2.

(** No exception escapes the stream at the path [p]: [get_metadata_path]
    returns a file or raises [ValueError]; the file is read to its end or
    to an [InvalidDocException], and every document read from it is one
    [SimpleDocNav] accepts. *)
Definition reads_cleanly (p : string) : Prop :=
  match get_metadata_path p with
  | Returned file =>
      (∀ e, (read_documents file).2 ≠ Some (inr e)) ∧
      Forall (λ doc, ∃ n, nav doc.2 = Returned n) (read_documents file).1
  | Raised e => ∃ msg, e = ValueError msg
  end.

(** The exception [e] escapes the stream at the path [p], after the
    documents [out] of its file. *)
Definition escapes_at (p : string) (out : list (string * SimpleDocNav.t)) (e : exn) : Prop :=
  match get_metadata_path p with
  | Returned file =>
      (navigators (read_documents file).1 = (out, Some e)) ∨
      (navigators (read_documents file).1 = (out, None) ∧
       (read_documents file).2 = Some (inr e))
  | Raised e' => e' = e ∧ out = [] ∧ ∀ msg, e ≠ ValueError msg
  end.
End DocStream.

(** What a logging generator yields, and what it logs. *)
Definition yielded {L A} (s : list (L + A)) : list A :=
  omap (λ x, match x with inr a => Some a | inl _ => None end) s.
Definition stream_logged {L A} (s : list (L + A)) : list L :=
  omap (λ x, match x with inl l => Some l | inr _ => None end) s.

(** ** More example data *)

Module MoreExamples.

(** A document without lineage. *)
Definition leaf (i platform : string) : SimpleDocNav.t :=
  let doc := [("id", VStr i); ("platform", VStr platform)] in
  SimpleDocNav.Nav (Some i) doc (without_lineage_sources doc) [].

(** A product catalogue that knows the two example products by name. *)
Definition product_catalogue : Products.t :=
  Products.Mk
    (λ name, if String.eqb name "ls8_scene" then Some Examples.landsat
             else if String.eqb name "s2_scene" then Some Examples.sentinel
             else None)
    [Examples.landsat; Examples.sentinel].

(** An active target with one archived and one active derived dataset. *)
Definition active_family : Index.t :=
  Index.Mk
    (λ i, if String.eqb i "t" then Some (Examples.entry "t" false 0) else None)
    (λ _, [])
    (λ i, if String.eqb i "t"
          then [Examples.entry "x" true (timedelta_seconds 5000);
                Examples.entry "y" false 0]
          else []).

(** The sources of the catalogued datasets: the target has one, loaded
    with its own (empty) sources. *)
Definition lineage_sources (d : CatalogEntry.t) : option (list (string * CatalogEntry.t)) :=
  if String.eqb (CatalogEntry.id d) "t"
  then Some [("level1", Examples.entry "s" false 0)]
  else Some [].

(** A catalogue whose state is the list of the identifiers archived so
    far: it holds the target "t" and the two datasets derived from it. *)
Definition shelf : Catalogue.t (list string) :=
  Catalogue.Mk (list string)
    (λ st, Index.Mk
       (λ i, if String.eqb i "t"
             then Some (Examples.entry "t" (existsb (String.eqb "t") st) 0) else None)
       (λ _, [])
       (λ i, if String.eqb i "t"
             then [Examples.entry "x" (existsb (String.eqb "x") st) 0;
                   Examples.entry "y" (existsb (String.eqb "y") st) 0]
             else []))
    (λ _ _ st, inr st)
    (λ _ _ st, inr st)
    (λ _ _ _, inr (true, [], []))
    (λ ids st, ids ++ st)
    (λ ids st, List.filter (λ i, negb (existsb (String.eqb i) ids)) st)
    (λ _ _ _ st, (true, st)).

(** A Landsat document without lineage, with its two measurements. *)
Definition scene (i : string) : SimpleDocNav.t :=
  let doc := [("id", VStr i); ("platform", VStr "LANDSAT_8");
              ("measurements", VDict [("red", VNone); ("nir", VNone)])] in
  SimpleDocNav.Nav (Some i) doc (without_lineage_sources doc) [].

(** A file system with one metadata file, of two documents, the second
    of which is a list and not a mapping. *)
Definition metadata_path (p : string) : outcome string :=
  if String.eqb p "scene" then Returned "scene/metadata.yaml"
  else Raised (ValueError "No metadata found").

Definition documents (file : string) : list (string * value) * option (string + exn) :=
  ([("file:///scene/metadata.yaml", VDict [("id", VStr "a")]);
    ("file:///scene/metadata.yaml#part=1", VList [])], None).

(** A navigator for the mappings that have no lineage. *)
Definition mapping_nav (doc : value) : outcome SimpleDocNav.t :=
  match doc with
  | VDict d =>
      Returned (SimpleDocNav.Nav
                  (match dict_get "id" d with Some (VStr s) => Some s | _ => None end)
                  d (without_lineage_sources d) [])
  | _ => Raised (ValueError "")
  end.

End MoreExamples.


(* ===================================================================== *)
(** * Part II. Properties                                                 *)
(* ===================================================================== *)

(** ** Date sequences *)

Section DateSequenceFacts.
Import Dates.
Context `{Builtins} {date : Type} `{Calendar date}.

(** A pair the loop yields comes from an item of the recurrence, reached
    through items only, whose span ends by [end_]. *)
Lemma date_sequence_loop_yields (recurrence : nat → step date) delta end_ fuel :
  ∀ i s e,
    (s, e) ∈ (date_sequence_loop recurrence delta end_ i fuel).1 →
    (∃ j, (i ≤ j < i + fuel)%nat ∧ recurrence j = Item s ∧
          ∀ k, (i ≤ k < j)%nat → ∃ s', recurrence k = Item s') ∧
    date_add s delta = Returned e ∧
    date_le e end_ = Returned true.
Proof.
  induction fuel as [|fuel IH]; intros i s e; simpl; [by intros ?%elem_of_nil|].
  destruct (recurrence i) as [s0| |] eqn:Hrec; simpl; try by intros ?%elem_of_nil.
  assert (Hnext : ∀ j,
    (S i ≤ j < S i + fuel)%nat ∧ recurrence j = Item s ∧
      (∀ k, (S i ≤ k < j)%nat → ∃ s', recurrence k = Item s') →
    (i ≤ j < i + S fuel)%nat ∧ recurrence j = Item s ∧
      (∀ k, (i ≤ k < j)%nat → ∃ s', recurrence k = Item s')).
  { intros j (Hj & Hitem & Hbefore). split; [lia|]. split; [done|].
    intros k Hk. destruct (decide (k = i)) as [->|Hne]; [by eexists|].
    apply Hbefore. lia. }
  destruct (date_add s0 delta) as [e0|] eqn:Hadd; simpl; try by intros ?%elem_of_nil.
  destruct (date_le e0 end_) as [[]|] eqn:Hle; simpl; try by intros ?%elem_of_nil.
  - destruct (date_sequence_loop recurrence delta end_ (S i) fuel) as [rest how] eqn:Hrest.
    simpl. intros [[= -> ->]|Hin]%elem_of_cons.
    + split; [|done]. exists i. split; [lia|]. split; [done|]. intros k Hk. lia.
    + specialize (IH (S i) s e). rewrite Hrest in IH.
      destruct (IH Hin) as ((j & Hj) & ? & ?).
      split; [exists j; by apply Hnext|done].
  - intros Hin. destruct (IH (S i) s e Hin) as ((j & Hj) & ? & ?).
    split; [exists j; by apply Hnext|done].
Qed.

Lemma date_sequence_inv (start end_ : date) (sd ss : string) fuel p :
  p ∈ (date_sequence start end_ sd ss fuel).1 →
  ∃ step f delta,
    parse_interval ss = Returned (step, f) ∧
    parse_duration sd = Returned delta ∧
    date_sequence start end_ sd ss fuel =
      date_sequence_loop (rrule f step start end_) delta end_ 0 fuel.
Proof.
  unfold date_sequence. destruct fuel as [|fuel]; [by intros ?%elem_of_nil|].
  destruct (parse_interval ss) as [[step f]|]; [|by intros ?%elem_of_nil].
  destruct (parse_duration sd) as [delta|]; [|by intros ?%elem_of_nil].
  intros _. by exists step, f, delta.
Qed.

(** A run of the loop that fails fails with an exception of the
    recurrence, of the addition or of the comparison, at an item reached
    through items only. *)
Lemma date_sequence_loop_failed (recurrence : nat → step date) delta end_ fuel :
  ∀ i pairs e,
    date_sequence_loop recurrence delta end_ i fuel = (pairs, Failed e) →
    ∃ j, (i ≤ j < i + fuel)%nat ∧
      (∀ k, (i ≤ k < j)%nat → ∃ s', recurrence k = Item s') ∧
      (recurrence j = Error e ∨
       ∃ s, recurrence j = Item s ∧
         (date_add s delta = Raised e ∨
          ∃ e', date_add s delta = Returned e' ∧ date_le e' end_ = Raised e)).
Proof.
  induction fuel as [|fuel IH]; intros i pairs e; simpl; [done|].
  destruct (recurrence i) as [s0| |] eqn:Hrec; simpl; try done.
  - assert (Hnext : ∀ j P,
      (S i ≤ j < S i + fuel)%nat ∧
        (∀ k, (S i ≤ k < j)%nat → ∃ s', recurrence k = Item s') ∧ P →
      (i ≤ j < i + S fuel)%nat ∧
        (∀ k, (i ≤ k < j)%nat → ∃ s', recurrence k = Item s') ∧ P).
    { intros j P (Hj & Hbefore & HP). split; [lia|]. split; [|done].
      intros k Hk. destruct (decide (k = i)) as [->|Hne]; [by eexists|].
      apply Hbefore. lia. }
    destruct (date_add s0 delta) as [e0|] eqn:Hadd; simpl.
    + destruct (date_le e0 end_) as [[]|] eqn:Hle; simpl.
      * destruct (date_sequence_loop recurrence delta end_ (S i) fuel)
          as [rest how] eqn:Hrest.
        intros [= <- ->]. destruct (IH (S i) rest e Hrest) as (j & Hj).
        exists j. by apply Hnext.
      * intros Hrest. destruct (IH (S i) pairs e Hrest) as (j & Hj).
        exists j. by apply Hnext.
      * intros [= <- <-]. exists i. split; [lia|]. split; [intros k Hk; lia|].
        right. exists s0. split; [done|]. right. by exists e0.
    + intros [= <- <-]. exists i. split; [lia|]. split; [intros k Hk; lia|].
      right. exists s0. by split; [|left].
  - intros [= <- <-]. exists i. split; [lia|]. split; [intros k Hk; lia|]. by left.
Qed.

(** The span of an item that ends by [end_] is yielded, when the items
    before it have been reached without an exception. *)
Lemma date_sequence_loop_complete (recurrence : nat → step date) delta end_ fuel :
  ∀ i j s e,
    (i ≤ j < i + fuel)%nat →
    (∀ k, (i ≤ k < j)%nat →
       ∃ s' e' b, recurrence k = Item s' ∧ date_add s' delta = Returned e' ∧
                  date_le e' end_ = Returned b) →
    recurrence j = Item s →
    date_add s delta = Returned e →
    date_le e end_ = Returned true →
    (s, e) ∈ (date_sequence_loop recurrence delta end_ i fuel).1.
Proof.
  induction fuel as [|fuel IH]; intros i j s e Hj Hclean Hitem Hadd Hle; [lia|].
  simpl. destruct (decide (i = j)) as [->|Hne].
  - rewrite Hitem, Hadd, Hle.
    destruct (date_sequence_loop recurrence delta end_ (S j) fuel).
    apply list_elem_of_here.
  - destruct (Hclean i) as (s' & e' & b & -> & -> & ->); [lia|].
    assert (Hin : (s, e) ∈ (date_sequence_loop recurrence delta end_ (S i) fuel).1).
    { apply (IH (S i) j); try done; [lia|]. intros k Hk. apply Hclean. lia. }
    destruct b; [|done].
    destruct (date_sequence_loop recurrence delta end_ (S i) fuel).
    by apply list_elem_of_further.
Qed.

(** C10.  Every pair [(start_date, end_date)] yielded by [date_sequence]
    has [end_date = start_date + parse_duration(stats_duration)] and
    [end_date <= end]; its start date is an item of the recurrence, reached
    through items only, so an interval that would end after [end] is left
    out and none is cut short.  This holds of the pairs yielded up to any
    point of the iteration, whether the recurrence ends, fails later or goes
    on for ever. *)
Theorem date_sequence_never_past_end (start end_ : date) (sd ss : string)
    (fuel : nat) s e :
  (s, e) ∈ (date_sequence start end_ sd ss fuel).1 →
  ∃ step f delta,
    parse_interval ss = Returned (step, f) ∧
    parse_duration sd = Returned delta ∧
    (∃ i, rrule f step start end_ i = Item s ∧
          ∀ j, (j < i)%nat → ∃ s', rrule f step start end_ j = Item s') ∧
    date_add s delta = Returned e ∧
    date_le e end_ = Returned true.
Proof.
  intros Hin.
  destruct (date_sequence_inv _ _ _ _ _ _ Hin) as (step & f & delta & Hi & Hd & Heq).
  rewrite Heq in Hin.
  apply date_sequence_loop_yields in Hin as ((j & _ & Hj & Hbefore) & Hadd & Hle).
  exists step, f, delta. split; [done|]. split; [done|]. split; [|done].
  exists j. split; [done|]. intros k Hk. apply Hbefore. lia.
Qed.
End DateSequenceFacts.

(** Thirty-day statistics every ten days over days 0..100: the spans
    starting at day 80 and later would end after day 100 and are left out. *)
Lemma date_sequence_never_past_end_witness :
  (Dates.date_sequence 0%Z 100%Z "1m" "10d" 20).1 =
    [(0, 30); (10, 40); (20, 50); (30, 60); (40, 70); (50, 80); (60, 90); (70, 100)]%Z ∧
  ∃ step f delta,
    Dates.parse_interval "10d" = Returned (step, f) ∧
    Dates.parse_duration "1m" = Returned delta ∧
    (∃ i, Dates.rrule f step 0%Z 100%Z i = Dates.Item 70%Z ∧
          ∀ j, (j < i)%nat → ∃ s', Dates.rrule f step 0%Z 100%Z j = Dates.Item s') ∧
    Dates.date_add 70%Z delta = Returned 100%Z ∧
    Dates.date_le 100%Z 100%Z = Returned true.
Proof.
  split; [by vm_compute|].
  apply (date_sequence_never_past_end (date := Z) 0%Z 100%Z "1m" "10d" 20).
  vm_compute. repeat first [ apply list_elem_of_here | apply list_elem_of_further ].
Defined.

(** ** Signature matcher *)

Lemma multi_product_matcher_one rules doc r :
  List.filter (λ r, contains (VDict doc) (VDict (rule.signature r))) rules = [r] →
  multi_product_matcher rules doc = inr (rule.product r).
Proof. unfold multi_product_matcher. by intros ->. Qed.

Lemma multi_product_matcher_none rules doc :
  List.filter (λ r, contains (VDict doc) (VDict (rule.signature r))) rules = [] →
  multi_product_matcher rules doc
  = inl (NoMatchingProduct (default (VStr "<missing id>") (dict_get "id" doc))).
Proof. unfold multi_product_matcher. by intros ->. Qed.

Lemma multi_product_matcher_several rules doc :
  2 ≤ length (List.filter (λ r, contains (VDict doc) (VDict (rule.signature r))) rules) →
  multi_product_matcher rules doc
  = inl (SeveralProducts (default (VStr "<missing id>") (dict_get "id" doc))
           (map Product.name
              (map rule.product
                 (List.filter (λ r, contains (VDict doc) (VDict (rule.signature r))) rules)))).
Proof.
  unfold multi_product_matcher.
  destruct (List.filter _ rules) as [|r1 [|r2 rest]]; simpl; [lia | lia | done].
Qed.

(** C6.  The matcher built from two or more rules returns the product of
    the only rule whose signature the document contains; with no such rule
    it raises [BadMatch] 'No matching Product found' with the document's
    identity; with several it raises [BadMatch] 'matches several products'
    with the name of every matched product. *)
Theorem product_matcher_several_rules (rules : list rule.t) :
  2 ≤ length rules →
  ∃ match_product,
    product_matcher rules = Returned match_product ∧
    ∀ doc,
      let matched :=
        List.filter (λ r, contains (VDict doc) (VDict (rule.signature r))) rules in
      let doc_id := default (VStr "<missing id>") (dict_get "id" doc) in
      (∀ r, matched = [r] → match_product doc = inr (rule.product r)) ∧
      (matched = [] → match_product doc = inl (NoMatchingProduct doc_id)) ∧
      (2 ≤ length matched →
       match_product doc
       = inl (SeveralProducts doc_id (map Product.name (map rule.product matched)))).
Proof.
  intros Hlen. exists (multi_product_matcher rules). split.
  - destruct rules as [|r1 [|r2 rest]]; simpl in *; [lia | lia | done].
  - intros doc matched doc_id. repeat split.
    + intros r. apply multi_product_matcher_one.
    + apply multi_product_matcher_none.
    + apply multi_product_matcher_several.
Qed.

(** The two example products on a Landsat document, on a document of
    neither platform, and twice the same rule on the Landsat document. *)
Lemma product_matcher_several_rules_witness :
  ∃ match_product,
    product_matcher [rule.Mk Examples.landsat (Product.metadata_doc Examples.landsat);
                     rule.Mk Examples.sentinel (Product.metadata_doc Examples.sentinel)]
    = Returned match_product ∧
    match_product [("id", VStr "a"); ("platform", VStr "LANDSAT_8")] = inr Examples.landsat ∧
    match_product [("id", VStr "a"); ("platform", VStr "SPOT")]
    = inl (NoMatchingProduct (VStr "a")).
Proof.
  destruct (product_matcher_several_rules
              [rule.Mk Examples.landsat (Product.metadata_doc Examples.landsat);
               rule.Mk Examples.sentinel (Product.metadata_doc Examples.sentinel)])
    as (m & Hm & Hdoc); [simpl; lia|].
  exists m. split; [exact Hm|]. split.
  - destruct (Hdoc [("id", VStr "a"); ("platform", VStr "LANDSAT_8")]) as (Hone & _ & _).
    apply (Hone (rule.Mk Examples.landsat (Product.metadata_doc Examples.landsat))).
    reflexivity.
  - destruct (Hdoc [("id", VStr "a"); ("platform", VStr "SPOT")]) as (_ & Hnone & _).
    apply Hnone. reflexivity.
Defined.

(** ** Measurement consistency *)

Lemma issubset_spec (a b : list string) :
  issubset a b = true ↔ ∀ k, k ∈ a → k ∈ b.
Proof.
  unfold issubset. rewrite forallb_forall. split.
  - intros Hall k Hk. apply list_elem_of_In in Hk. apply Hall in Hk.
    apply existsb_exists in Hk as (k' & Hin & Heq).
    apply String.eqb_eq in Heq as ->. by apply list_elem_of_In.
  - intros Hsub k Hk. apply existsb_exists. exists k. split.
    + apply list_elem_of_In, Hsub, list_elem_of_In, Hk.
    + apply String.eqb_refl.
Qed.

Lemma check_dataset_consistent_no_requirement d :
  dict_keys (Product.measurements (Dataset.type d)) = [] →
  check_dataset_consistent d = (true, None).
Proof. unfold check_dataset_consistent. by intros ->. Qed.

Lemma check_dataset_consistent_required d :
  dict_keys (Product.measurements (Dataset.type d)) ≠ [] →
  check_dataset_consistent d = (true, None) ↔
  ∃ ms, Dataset.measurements d = Some ms ∧
        ∀ k, k ∈ dict_keys (Product.measurements (Dataset.type d)) → k ∈ dict_keys ms.
Proof.
  intros Hne. unfold check_dataset_consistent.
  destruct (dict_keys (Product.measurements (Dataset.type d))) as [|k0 ks] eqn:Hk; [done|].
  simpl length. simpl Nat.eqb. cbv iota.
  destruct (Dataset.measurements d) as [ms|].
  - destruct (issubset (k0 :: ks) (dict_keys ms)) eqn:Hsub; simpl.
    + split; [|done]. intros _. exists ms. split; [done|]. by apply issubset_spec.
    + split; [done|]. intros (ms' & [= <-] & Hall).
      apply issubset_spec in Hall. congruence.
  - split; [done|]. by intros (ms & ? & _).
Qed.

Lemma load_datasets_yields docs ds_resolve out log e :
  load_datasets docs ds_resolve = (out, log, e) →
  ∀ r, r ∈ out →
    ∃ uri ds d, (uri, ds) ∈ docs ∧ ds_resolve ds uri = Returned (inr r) ∧
                root_dataset r = Some d ∧ check_dataset_consistent d = (true, None).
Proof.
  revert out log e. induction docs as [|[uri ds] rest IH]; intros out log e Hl r Hr.
  - simpl in Hl. inversion Hl; subst. by apply elem_of_nil in Hr.
  - simpl in Hl.
    assert (Hrest : ∀ out' log' e', load_datasets rest ds_resolve = (out', log', e') →
              r ∈ out' →
              ∃ uri0 ds0 d, (uri0, ds0) ∈ (uri, ds) :: rest ∧
                ds_resolve ds0 uri0 = Returned (inr r) ∧
                root_dataset r = Some d ∧ check_dataset_consistent d = (true, None)).
    { intros out' log' e' Hl' Hr'.
      destruct (IH _ _ _ Hl' r Hr') as (u0 & d0 & d & Hin & ?).
      exists u0, d0, d. split; [by apply list_elem_of_further|done]. }
    destruct (ds_resolve ds uri) as [[err|dataset]|x] eqn:Hres.
    + destruct (load_datasets rest ds_resolve) as [[out' log'] e'] eqn:Hl'.
      inversion Hl; subst. by eapply Hrest.
    + destruct (root_dataset dataset) as [d|] eqn:Hroot.
      * destruct (check_dataset_consistent d) as [ok reason] eqn:Hchk.
        destruct ok; simpl in Hl;
          destruct (load_datasets rest ds_resolve) as [[out' log'] e'] eqn:Hl';
          inversion Hl; subst.
        -- apply elem_of_cons in Hr as [->|Hr]; [|by eapply Hrest].
           exists uri, ds, d. repeat split; try done; [apply list_elem_of_here|].
           unfold check_dataset_consistent in *.
           repeat case_match; simplify_eq; done.
        -- by eapply Hrest.
      * inversion Hl; subst. by apply elem_of_nil in Hr.
    + inversion Hl; subst. by apply elem_of_nil in Hr.
Qed.

Lemma load_datasets_rejects docs ds_resolve out log uri ds r d reason :
  load_datasets docs ds_resolve = (out, log, None) →
  (uri, ds) ∈ docs →
  ds_resolve ds uri = Returned (inr r) →
  root_dataset r = Some d →
  check_dataset_consistent d = (false, reason) →
  LogInconsistent (Dataset.id d) reason ∈ log.
Proof.
  revert out log. induction docs as [|[uri0 ds0] rest IH]; intros out log Hl Hin Hres Hroot Hchk.
  - by apply elem_of_nil in Hin.
  - simpl in Hl. apply elem_of_cons in Hin as [[= <- <-]|Hin].
    + rewrite Hres, Hroot, Hchk in Hl. simpl in Hl.
      destruct (load_datasets rest ds_resolve) as [[out' log'] e'].
      inversion Hl; subst. apply list_elem_of_here.
    + destruct (ds_resolve ds0 uri0) as [[err|dataset]|x]; [| |done].
      * destruct (load_datasets rest ds_resolve) as [[out' log'] e'] eqn:Hl'.
        inversion Hl; subst. apply list_elem_of_further. by eapply IH.
      * destruct (root_dataset dataset) as [d0|]; [|done].
        destruct (check_dataset_consistent d0) as [ok0 reason0].
        destruct ok0; simpl in Hl;
          destruct (load_datasets rest ds_resolve) as [[out' log'] e'] eqn:Hl';
          inversion Hl; subst; [|apply list_elem_of_further]; by eapply IH.
Qed.

(** C7.  [check_dataset_consistent] answers [(True, None)] when the product
    declares no measurements.  When it declares some, the answer is
    [(True, None)] exactly when the dataset has measurements whose keys
    include every measurement name of the product; a dataset with no
    measurements at all fails with a message, and so does every failure.
    [load_datasets] yields only datasets that pass, and logs the reason for
    one that fails instead of yielding it. *)
Theorem check_dataset_consistent_gate (d : Dataset.t)
    (docs : list (string * SimpleDocNav.t))
    (ds_resolve : SimpleDocNav.t → string → outcome (resolve_error + resolved)) :
  let required := dict_keys (Product.measurements (Dataset.type d)) in
  (required = [] → check_dataset_consistent d = (true, None)) ∧
  (required ≠ [] →
   (check_dataset_consistent d = (true, None) ↔
    ∃ ms, Dataset.measurements d = Some ms ∧ ∀ k, k ∈ required → k ∈ dict_keys ms) ∧
   (Dataset.measurements d = None →
    check_dataset_consistent d = (false, Some "No measurements defined for a dataset"))) ∧
  (∀ reason, check_dataset_consistent d = (false, reason) → is_Some reason) ∧
  (∀ r, r ∈ fst (fst (load_datasets docs ds_resolve)) →
     ∃ uri ds d', (uri, ds) ∈ docs ∧ ds_resolve ds uri = Returned (inr r) ∧
       root_dataset r = Some d' ∧ check_dataset_consistent d' = (true, None)) ∧
  (∀ uri ds r reason,
     snd (load_datasets docs ds_resolve) = None →
     (uri, ds) ∈ docs → ds_resolve ds uri = Returned (inr r) →
     root_dataset r = Some d →
     check_dataset_consistent d = (false, reason) →
     (r ∉ fst (fst (load_datasets docs ds_resolve))) ∧
     LogInconsistent (Dataset.id d) reason ∈ snd (fst (load_datasets docs ds_resolve))).
Proof.
  intros required. split; [apply check_dataset_consistent_no_requirement|].
  split; [|split; [|split]].
  - intros Hne. split; [by apply check_dataset_consistent_required|].
    intros Hnone. unfold check_dataset_consistent. fold required.
    destruct required; [done|]. by rewrite Hnone.
  - intros reason. unfold check_dataset_consistent.
    repeat case_match; intros [= <-]; eauto.
  - intros r Hr.
    destruct (load_datasets docs ds_resolve) as [[out log] e] eqn:Hl.
    by eapply load_datasets_yields.
  - intros uri ds r reason He Hin Hres Hroot Hchk.
    destruct (load_datasets docs ds_resolve) as [[out log] e] eqn:Hl.
    simpl in *. subst e. split.
    + intros Hr.
      destruct (load_datasets_yields _ _ _ _ _ Hl r Hr) as (? & ? & d' & _ & _ & Hroot' & Hok).
      congruence.
    + by eapply load_datasets_rejects.
Qed.

(** ** Location reconciliation on update *)

Section UpdateFacts.
Variable dry_run : bool.
Variable reply : location_action → string → string → bool.

Lemma loc_action_calls action new_ds existing_ds name ret events a i u :
  loc_action dry_run reply action new_ds existing_ds name = Returned (ret, events) →
  LocationCall a i u ∈ events →
  a = action ∧ i = CatalogEntry.id existing_ds ∧ dry_run = false ∧
  CatalogEntry.uris existing_ds = [u] ∧
  ∃ new_uri, Dataset.uris new_ds = [new_uri] ∧ new_uri ≠ u.
Proof.
  unfold loc_action. intros Hact Hin.
  destruct (CatalogEntry.uris existing_ds) as [|old [|old' rest]] eqn:Hold; simpl in Hact.
  - inversion Hact; subst. by apply elem_of_nil in Hin.
  - destruct (Dataset.uris new_ds) as [|new [|new' rest']] eqn:Hnew; try done.
    destruct (String.eqb new old) eqn:Heq.
    + inversion Hact; subst. by apply elem_of_nil in Hin.
    + apply String.eqb_neq in Heq. destruct dry_run.
      * inversion Hact; subst.
        apply list_elem_of_singleton in Hin. discriminate.
      * inversion Hact; subst.
        apply list_elem_of_singleton in Hin. inversion Hin; subst. eauto 10.
  - inversion Hact; subst. apply list_elem_of_singleton in Hin. discriminate.
Qed.

(** C8.  On update, a location action ([archive_location] or
    [remove_location]) is called only when the existing dataset has exactly
    one location and it differs from the location of the new document (and
    then on that old location, under a policy other than [keep], outside a
    dry run).  With several existing locations the step only warns and
    calls nothing; with none, or with an unchanged location, it does
    nothing at all. *)
Theorem update_loc_only_single_changed_location (policy : location_policy)
    (new_ds : Dataset.t) (existing_ds : CatalogEntry.t) :
  let result := update_loc dry_run reply policy new_ds existing_ds in
  (∀ ret events a i u,
     result = Returned (ret, events) → LocationCall a i u ∈ events →
     (∃ name, policy_action policy = Some (a, name)) ∧
     i = CatalogEntry.id existing_ds ∧ dry_run = false ∧
     CatalogEntry.uris existing_ds = [u] ∧
     ∃ new_uri, Dataset.uris new_ds = [new_uri] ∧ new_uri ≠ u) ∧
  (1 < length (CatalogEntry.uris existing_ds) →
   result = Returned (None,
                      match policy_action policy with
                      | Some (_, name) => [Warning name]
                      | None => []
                      end)) ∧
  (CatalogEntry.uris existing_ds = [] → result = Returned (None, [])) ∧
  (∀ u, CatalogEntry.uris existing_ds = [u] → Dataset.uris new_ds = [u] →
        result = Returned (None, [])).
Proof.
  intros result. subst result. split; [|split; [|split]].
  - intros ret events a i u Hres Hin.
    destruct policy; simpl in Hres; unfold loc_keep, loc_archive, loc_forget in Hres.
    + inversion Hres; subst. by apply elem_of_nil in Hin.
    + destruct (loc_action_calls _ _ _ _ _ _ _ _ _ Hres Hin) as (-> & -> & -> & -> & Hnew).
      simpl. eauto 10.
    + destruct (loc_action_calls _ _ _ _ _ _ _ _ _ Hres Hin) as (-> & -> & -> & -> & Hnew).
      simpl. eauto 10.
  - intros Hlen. destruct policy; simpl; [done| |];
      unfold loc_archive, loc_forget, loc_action;
      destruct (CatalogEntry.uris existing_ds) as [|? [|? ?]]; simpl in *; try lia; done.
  - intros Hnil. destruct policy; simpl; [done| |];
      unfold loc_archive, loc_forget, loc_action; by rewrite Hnil.
  - intros u Hold Hnew. destruct policy; simpl; [done| |];
      unfold loc_archive, loc_forget, loc_action; rewrite Hold, Hnew; simpl;
      by rewrite String.eqb_refl.
Qed.
End UpdateFacts.

(** ** Equality tests decide equality *)

Lemma value_nested_ind (P : value → Prop) :
  P VNone → (∀ z, P (VInt z)) → (∀ s, P (VStr s)) →
  (∀ l, Forall P l → P (VList l)) →
  (∀ d, Forall (λ kv, P kv.2) d → P (VDict d)) →
  ∀ v, P v.
Proof.
  intros HN HI HS HL HD. fix IH 1.
  intros [|z|s|l|d]; [exact HN | apply HI | apply HS | | ].
  - apply HL. induction l as [|x l IHl]; constructor; [apply IH|apply IHl].
  - apply HD. induction d as [|[k x] d IHd]; constructor; [apply IH|apply IHd].
Qed.

Lemma value_eqb_eq (a b : value) : value_eqb a b = true ↔ a = b.
Proof.
  revert b. induction a as [|z|s|l IHl|d IHd] using value_nested_ind;
    intros [|z'|s'|l'|d']; simpl; try (split; [discriminate|congruence]); try done.
  - rewrite Z.eqb_eq. split; congruence.
  - rewrite String.eqb_eq. split; congruence.
  - revert l'. induction IHl as [|x l Hx _ IH]; intros [|y l']; try (split; [discriminate|congruence]); try done.
    rewrite andb_true_iff, Hx, IH. split; [intros [-> [= ->]]|intros [= -> ->]]; done.
  - revert d'. induction IHd as [|[k x] d Hx _ IH]; intros [|[k' y] d']; try (split; [discriminate|congruence]); try done.
    simpl in Hx. rewrite !andb_true_iff, String.eqb_eq, Hx, IH.
    split; [intros [[-> ->] [= ->]]|intros [= -> -> ->]]; done.
Qed.

Lemma document_eqb_eq (a b : document) : document_eqb a b = true ↔ a = b.
Proof. unfold document_eqb. rewrite value_eqb_eq. split; congruence. Qed.

Lemma strings_eqb_eq (a b : list string) : strings_eqb a b = true ↔ a = b.
Proof.
  revert b. induction a as [|x a IH]; intros [|y b]; simpl;
    try (split; [discriminate|congruence]); try done.
  rewrite andb_true_iff, String.eqb_eq, IH. split; [intros [-> ->]|intros [= -> ->]]; done.
Qed.

Lemma product_eqb_eq (a b : Product.t) : product_eqb a b = true ↔ a = b.
Proof.
  unfold product_eqb. destruct a, b; simpl.
  rewrite !andb_true_iff, String.eqb_eq, !document_eqb_eq.
  split; [intros [[-> ->] ->]|intros [= -> -> ->]]; done.
Qed.

Lemma entry_eqb_eq (a b : CatalogEntry.t) : entry_eqb a b = true ↔ a = b.
Proof.
  unfold entry_eqb. destruct a, b; simpl.
  rewrite !andb_true_iff, String.eqb_eq, product_eqb_eq, document_eqb_eq,
    strings_eqb_eq, Bool.eqb_true_iff, Z.eqb_eq.
  split; [intros [[[[[-> ->] ->] ->] ->] ->]|intros [= -> -> -> -> -> ->]]; done.
Qed.

Lemma member_eqb_eq (a b : option CatalogEntry.t) : member_eqb a b = true ↔ a = b.
Proof.
  destruct a, b; simpl; try (split; [discriminate|congruence]); try done.
  rewrite entry_eqb_eq. split; congruence.
Qed.

Lemma elem_of_set_add x y s : x ∈ set_add y s ↔ x ∈ s ∨ x = y.
Proof.
  unfold set_add. destruct (existsb (member_eqb y) s) eqn:Hex.
  - apply existsb_exists in Hex as (z & Hz & Heq). apply member_eqb_eq in Heq as <-.
    apply list_elem_of_In in Hz. split; [auto|]. by intros [?| ->].
  - rewrite elem_of_app, list_elem_of_singleton. done.
Qed.

Lemma elem_of_set_update x s l :
  x ∈ set_update s l ↔ x ∈ s ∨ ∃ d, d ∈ l ∧ x = Some d.
Proof.
  unfold set_update. revert s. induction l as [|d l IH]; intros s; simpl.
  - split; [auto|]. intros [?|(d & Hd & _)]; [done|]. by apply elem_of_nil in Hd.
  - rewrite IH, elem_of_set_add. split.
    + intros [[?| ->]|(d' & Hd' & ->)]; eauto using list_elem_of_here, list_elem_of_further.
    + intros [?|(d' & Hd' & ->)]; [auto|].
      apply elem_of_cons in Hd' as [->|?]; eauto.
Qed.

(** ** Derived-set walker *)

Section Measure.
Variable w : string → nat.

Lemma weight_empty : weight w ∅ = 0.
Proof. unfold weight. by rewrite elements_empty. Qed.

Lemma weight_disj_union (a b : gset string) :
  a ## b → weight w (a ∪ b) = weight w a + weight w b.
Proof.
  intros Hdisj. unfold weight.
  by rewrite (elements_disj_union a b Hdisj), sum_list_with_app.
Qed.

Lemma weight_singleton x : weight w {[x]} = w x.
Proof. unfold weight. rewrite elements_singleton. simpl. lia. Qed.

Lemma weight_subseteq (a b : gset string) : a ⊆ b → weight w a ≤ weight w b.
Proof.
  intros Hsub. rewrite (union_difference_L a b Hsub).
  rewrite weight_disj_union by set_solver. lia.
Qed.

Lemma weight_union_le (a b : gset string) : weight w (a ∪ b) ≤ weight w a + weight w b.
Proof.
  replace (a ∪ b) with (a ∪ b ∖ a) by (apply set_eq; intros y; destruct (decide (y ∈ a)); set_solver).
  rewrite weight_disj_union by set_solver.
  assert (weight w (b ∖ a) ≤ weight w b) by (apply weight_subseteq; set_solver). lia.
Qed.

Lemma weight_remove (a : gset string) x :
  x ∈ a → weight w (a ∖ {[x]}) + w x = weight w a.
Proof.
  intros Hx. rewrite (union_difference_singleton_L x a Hx) at 2.
  rewrite weight_disj_union by set_solver. rewrite weight_singleton. lia.
Qed.

Lemma weight_list_to_set (l : list string) :
  weight w (list_to_set l) ≤ sum_list_with w l.
Proof.
  induction l as [|x l IH]; simpl.
  - by rewrite weight_empty.
  - etrans; [apply weight_union_le|]. rewrite weight_singleton. lia.
Qed.
End Measure.

Lemma sum_list_with_ext {A} (f g : A → nat) (l : list A) :
  (∀ x, x ∈ l → f x = g x) → sum_list_with f l = sum_list_with g l.
Proof.
  induction l as [|x l IH]; intros Hfg; simpl; [done|].
  rewrite (Hfg x), IH; [done| |]; intros; try apply Hfg;
    eauto using list_elem_of_here, list_elem_of_further.
Qed.

Lemma sum_list_with_fmap {A B} (f : B → nat) (g : A → B) (l : list A) :
  sum_list_with f (g <$> l) = sum_list_with (λ x, f (g x)) l.
Proof. induction l; simpl; [done|]. by f_equal. Qed.

Section WalkerFacts.
Variable pop : gset string → string.
Variable index : Index.t.
Variable root : string.
Hypothesis pop_elem : ∀ s, s ≠ ∅ → pop s ∈ s.

Lemma walk_inv_init : walk_inv index root [Index.get index root] {[root]} [].
Proof.
  split.
  - left. set_solver.
  - apply list_elem_of_here.
  - intros y c Hy. by apply elem_of_nil in Hy.
  - intros e He. apply list_elem_of_singleton in He. by left.
  - intros y [Hy|Hy]; [left; set_solver|by apply elem_of_nil in Hy].
Qed.

Lemma derived_from_lookup y c :
  (y = root ∨ ∃ d, derived_from index root d ∧ CatalogEntry.id d = y) →
  c ∈ Index.get_derived index y → derived_from index root c.
Proof.
  intros [->|(d & Hd & <-)] Hc; [by apply derived_direct|by eapply derived_step].
Qed.

Lemma walk_inv_step derived_set to_process calls :
  to_process ≠ ∅ →
  walk_inv index root derived_set to_process calls →
  walk_inv index root (set_update derived_set (Index.get_derived index (pop to_process)))
    (to_process ∖ {[pop to_process]}
     ∪ list_to_set (CatalogEntry.id <$> Index.get_derived index (pop to_process)))
    (calls ++ [pop to_process]).
Proof.
  intros Hne [Hroot Hentry Hclosed Hsound Hreached].
  pose proof (pop_elem _ Hne) as Hx. set (x := pop to_process) in *.
  assert (Hids : ∀ c, c ∈ Index.get_derived index x →
            CatalogEntry.id c ∈ (list_to_set (CatalogEntry.id <$> Index.get_derived index x) : gset string)).
  { intros c Hc. apply elem_of_list_to_set, list_elem_of_fmap. eauto. }
  split.
  - destruct Hroot as [Hr|Hr].
    + destruct (decide (root = x)) as [->|Hneq].
      * right. apply elem_of_app. right. apply list_elem_of_here.
      * left. set_solver.
    + right. apply elem_of_app. by left.
  - apply elem_of_set_update. by left.
  - intros y c Hy Hc. apply elem_of_app in Hy as [Hy|Hy].
    + destruct (Hclosed y c Hy Hc) as [Hin Hid]. split.
      * apply elem_of_set_update. by left.
      * destruct Hid as [Hid|Hid].
        -- destruct (decide (CatalogEntry.id c = x)) as [Heq|Hneq].
           ++ right. apply elem_of_app. right. rewrite Heq. apply list_elem_of_here.
           ++ left. set_solver.
        -- right. apply elem_of_app. by left.
    + apply list_elem_of_singleton in Hy as ->. split.
      * apply elem_of_set_update. right. eauto.
      * left. apply elem_of_union. right. by apply Hids.
  - intros e He. apply elem_of_set_update in He as [He|(d & Hd & ->)]; [by apply Hsound|].
    right. exists d. split; [done|].
    eapply derived_from_lookup; [|exact Hd]. apply Hreached. by left.
  - intros y Hy.
    assert (Hyx : y ∈ to_process ∨ y ∈ calls ∨
                  ∃ c, c ∈ Index.get_derived index x ∧ CatalogEntry.id c = y).
    { destruct Hy as [Hy|Hy].
      - apply elem_of_union in Hy as [Hy|Hy]; [left; set_solver|].
        apply elem_of_list_to_set, list_elem_of_fmap in Hy as (c & -> & Hc). eauto.
      - apply elem_of_app in Hy as [Hy|Hy]; [auto|].
        apply list_elem_of_singleton in Hy as ->. auto. }
    destruct Hyx as [Hy'|[Hy'|(c & Hc & <-)]]; [apply Hreached; auto..|].
    right. exists c. split; [|done].
    eapply derived_from_lookup; [|exact Hc]. apply Hreached. by left.
Qed.

Lemma derived_loop_inv fuel derived_set to_process calls r :
  walk_inv index root derived_set to_process calls →
  derived_loop pop index fuel derived_set to_process calls = Some r →
  walk_inv index root r.1 ∅ r.2.
Proof.
  revert derived_set to_process calls.
  induction fuel as [|fuel IH]; intros derived_set to_process calls Hinv Hloop; simpl in Hloop.
  - destruct (decide (to_process = ∅)) as [->|]; [|done]. by inversion Hloop.
  - destruct (decide (to_process = ∅)) as [->|Hne]; [by inversion Hloop|].
    eapply IH; [|exact Hloop]. by apply walk_inv_step.
Qed.

Lemma walk_inv_final derived_set calls :
  walk_inv index root derived_set ∅ calls →
  (∀ e, e ∈ derived_set ↔
        e = Index.get index root ∨ ∃ d, e = Some d ∧ derived_from index root d) ∧
  (∀ y, y ∈ calls ↔
        y = root ∨ ∃ d, derived_from index root d ∧ CatalogEntry.id d = y).
Proof.
  intros [Hroot Hentry Hclosed Hsound Hreached].
  assert (Hr : root ∈ calls) by (destruct Hroot as [Hr|]; [set_solver|done]).
  assert (Hall : ∀ d, derived_from index root d →
            Some d ∈ derived_set ∧ CatalogEntry.id d ∈ calls).
  { induction 1 as [d Hd|p d Hp [_ IH] Hd].
    - destruct (Hclosed root d Hr Hd) as [? [?|?]]; [set_solver|done].
    - destruct (Hclosed _ d IH Hd) as [? [?|?]]; [set_solver|done]. }
  split.
  - intros e. split; [apply Hsound|].
    intros [->|(d & -> & Hd)]; [done|by apply Hall].
  - intros y. split; [intros; apply Hreached; by right|].
    intros [->|(d & Hd & <-)]; [done|by apply Hall].
Qed.

(** If the loop finishes, [derived_set] holds the root entry and exactly
    the datasets derived from the root, and [get_derived] has been called
    on exactly the root and their identities. *)
Lemma get_derived_set_result fuel derived_set calls :
  _get_derived_set pop index fuel root = Some (derived_set, calls) →
  (∀ e, e ∈ derived_set ↔
        e = Index.get index root ∨ ∃ d, e = Some d ∧ derived_from index root d) ∧
  (∀ y, y ∈ calls ↔
        y = root ∨ ∃ d, derived_from index root d ∧ CatalogEntry.id d = y).
Proof.
  intros Hloop. apply walk_inv_final.
  apply (derived_loop_inv _ _ _ _ _ walk_inv_init Hloop).
Qed.

Section Acyclic.
Variable rank : string → nat.
Hypothesis rank_decreases :
  ∀ x d, d ∈ Index.get_derived index x → rank (CatalogEntry.id d) < rank x.

Lemma paths_stable n : ∀ x, rank x ≤ n → paths index (S n) x = paths index n x.
Proof.
  induction n as [|n IH]; intros x Hx.
  - simpl. destruct (Index.get_derived index x) as [|d l] eqn:Hd; [done|].
    pose proof (rank_decreases x d) as Hlt. rewrite Hd in Hlt.
    specialize (Hlt (list_elem_of_here _ _)). lia.
  - change (paths index (S (S n)) x)
      with (1 + sum_list_with (λ d, paths index (S n) (CatalogEntry.id d))
                  (Index.get_derived index x)).
    change (paths index (S n) x)
      with (1 + sum_list_with (λ d, paths index n (CatalogEntry.id d))
                  (Index.get_derived index x)).
    f_equal. apply sum_list_with_ext. intros d Hd. apply IH.
    pose proof (rank_decreases x d Hd). lia.
Qed.

Lemma paths_above n m x : rank x ≤ n → paths index (n + m) x = paths index n x.
Proof.
  intros Hx. induction m as [|m IH]; [by rewrite Nat.add_0_r|].
  rewrite Nat.add_succ_r, paths_stable by lia. done.
Qed.

Lemma paths_unfold x :
  paths index (rank x) x
  = 1 + sum_list_with (λ d, paths index (rank (CatalogEntry.id d)) (CatalogEntry.id d))
          (Index.get_derived index x).
Proof.
  rewrite <- (paths_stable (rank x) x) by lia.
  change (paths index (S (rank x)) x)
    with (1 + sum_list_with (λ d, paths index (rank x) (CatalogEntry.id d))
                (Index.get_derived index x)).
  f_equal. apply sum_list_with_ext. intros d Hd.
  pose proof (rank_decreases x d Hd).
  replace (rank x) with (rank (CatalogEntry.id d) + (rank x - rank (CatalogEntry.id d))) at 1 by lia.
  by apply paths_above.
Qed.

Lemma derived_loop_terminates fuel : ∀ derived_set to_process calls,
  weight (λ x, paths index (rank x) x) to_process ≤ fuel →
  ∃ r, derived_loop pop index fuel derived_set to_process calls = Some r ∧
       length r.2 ≤ length calls + weight (λ x, paths index (rank x) x) to_process.
Proof.
  set (W := λ x, paths index (rank x) x).
  induction fuel as [|fuel IH]; intros derived_set to_process calls Hfuel.
  - simpl. destruct (decide (to_process = ∅)) as [->|Hne].
    + eexists. split; [done|]. simpl. lia.
    + pose proof (pop_elem _ Hne) as Hx.
      pose proof (weight_remove W _ _ Hx) as Hrem.
      pose proof (paths_unfold (pop to_process)) as Hun. fold W in Hrem. unfold W in Hrem at 2. lia.
  - simpl. destruct (decide (to_process = ∅)) as [->|Hne].
    + eexists. split; [done|]. simpl. lia.
    + pose proof (pop_elem _ Hne) as Hx. set (x := pop to_process) in *.
      pose proof (weight_remove W _ _ Hx) as Hrem.
      pose proof (paths_unfold x) as Hun.
      pose proof (weight_union_le W (to_process ∖ {[x]})
                    (list_to_set (CatalogEntry.id <$> Index.get_derived index x))) as Hle.
      pose proof (weight_list_to_set W (CatalogEntry.id <$> Index.get_derived index x)) as Hl.
      rewrite sum_list_with_fmap in Hl. unfold W in Hrem at 2. unfold W in Hl at 2.
      destruct (IH (set_update derived_set (Index.get_derived index x))
                  (to_process ∖ {[x]}
                   ∪ list_to_set (CatalogEntry.id <$> Index.get_derived index x))
                  (calls ++ [x])) as (r & Hr & Hlen); [lia|].
      exists r. split; [done|]. rewrite length_app in Hlen. simpl in Hlen. lia.
Qed.
End Acyclic.
End WalkerFacts.

(** C1 (amended).  On a catalogue whose derived relation has no cycle
    ([rank] decreases along it), whatever element [set.pop()] picks, the
    derived-set computation finishes within [paths] iterations and returns
    the root's entry together with exactly the datasets derived, directly or
    not, from the root.  [get_derived] is called on the root and on the
    identities of those datasets only, at most once per derivation path (not
    once per identity: nothing records the identities already looked up). *)
Theorem get_derived_set_acyclic (pop : gset string → string) (index : Index.t)
    (rank : string → nat) (root : string) (fuel : nat) :
  (∀ s, s ≠ ∅ → pop s ∈ s) →
  (∀ x d, d ∈ Index.get_derived index x → rank (CatalogEntry.id d) < rank x) →
  paths index (rank root) root ≤ fuel →
  ∃ derived_set calls,
    _get_derived_set pop index fuel root = Some (derived_set, calls) ∧
    (∀ e, e ∈ derived_set ↔
          e = Index.get index root ∨ ∃ d, e = Some d ∧ derived_from index root d) ∧
    (∀ y, y ∈ calls ↔
          y = root ∨ ∃ d, derived_from index root d ∧ CatalogEntry.id d = y) ∧
    length calls ≤ paths index (rank root) root.
Proof.
  intros Hpop Hrank Hfuel.
  destruct (derived_loop_terminates pop index Hpop rank Hrank fuel
              [Index.get index root] {[root]} []) as ([derived_set calls] & Hloop & Hlen).
  { by rewrite weight_singleton. }
  exists derived_set, calls. rewrite weight_singleton in Hlen. simpl in Hlen.
  split; [exact Hloop|].
  destruct (get_derived_set_result pop index root Hpop fuel derived_set calls Hloop).
  done.
Qed.

Lemma pop_first_elem (s : gset string) : s ≠ ∅ → Examples.pop_first s ∈ s.
Proof.
  intros Hne. unfold Examples.pop_first.
  destruct (elements s) as [|x l] eqn:Hel.
  - by apply elements_empty_inv, leibniz_equiv in Hel.
  - simpl. apply elem_of_elements. rewrite Hel. apply list_elem_of_here.
Qed.

Lemma pop_prefer_elem x (s : gset string) : s ≠ ∅ → Examples.pop_prefer x s ∈ s.
Proof.
  intros Hne. unfold Examples.pop_prefer.
  destruct (decide (x ∈ s)); [done|by apply pop_first_elem].
Qed.

Lemma diamond_rank_decreases x d :
  d ∈ Index.get_derived Examples.diamond x →
  Examples.diamond_rank (CatalogEntry.id d) < Examples.diamond_rank x.
Proof.
  simpl. destruct (String.eqb x "a") eqn:Ha.
  - apply String.eqb_eq in Ha as ->. intros Hd.
    apply elem_of_cons in Hd as [->|Hd]; [vm_compute; lia|].
    apply list_elem_of_singleton in Hd as ->. vm_compute; lia.
  - destruct (String.eqb x "b") eqn:Hb.
    + apply String.eqb_eq in Hb as ->. intros Hd.
      apply list_elem_of_singleton in Hd as ->. vm_compute; lia.
    + intros Hd. by apply elem_of_nil in Hd.
Qed.

(** On the diamond, within four iterations. *)
Lemma get_derived_set_acyclic_witness :
  ∃ derived_set calls,
    _get_derived_set (Examples.pop_prefer "d") Examples.diamond 4 "a"
    = Some (derived_set, calls) ∧
    (∀ e, e ∈ derived_set ↔
          e = Index.get Examples.diamond "a"
          ∨ ∃ d, e = Some d ∧ derived_from Examples.diamond "a" d) ∧
    (∀ y, y ∈ calls ↔
          y = "a" ∨ ∃ d, derived_from Examples.diamond "a" d ∧ CatalogEntry.id d = y) ∧
    length calls ≤ paths Examples.diamond (Examples.diamond_rank "a") "a".
Proof.
  apply (get_derived_set_acyclic (Examples.pop_prefer "d") Examples.diamond
           Examples.diamond_rank "a" 4).
  - apply pop_prefer_elem.
  - apply diamond_rank_decreases.
  - vm_compute. lia.
Defined.

Lemma derived_loop_cyclic pop fuel derived_set calls :
  (∀ s, s ≠ ∅ → pop s ∈ s) →
  derived_loop pop Examples.cyclic fuel derived_set {["a"]} calls = None.
Proof.
  intros Hpop. revert derived_set calls.
  assert (Hne : ({["a"]} : gset string) ≠ ∅) by set_solver.
  assert (Hx : pop {["a"]} = "a") by (specialize (Hpop _ Hne); set_solver).
  induction fuel as [|fuel IH]; intros derived_set calls; simpl.
  - by destruct (decide (({["a"]} : gset string) = ∅)).
  - destruct (decide (({["a"]} : gset string) = ∅)); [done|].
    rewrite Hx.
    replace (({["a"]} : gset string) ∖ {["a"]} ∪ ({["a"]} ∪ ∅)) with ({["a"]} : gset string)
      by set_solver.
    apply IH.
Qed.

(** C1 fails as stated, twice over.  On the diamond, where [d] is derived
    both from [a] and from [b], a run in which [set.pop()] takes [d] before
    [b] calls [get_derived] on [d] twice.  On a catalogue that records [a]
    as derived from itself, no run finishes, whatever [set.pop()] picks. *)
Lemma get_derived_set_no_visited_set :
  (∀ s, s ≠ ∅ → Examples.pop_prefer "d" s ∈ s) ∧
  snd <$> _get_derived_set (Examples.pop_prefer "d") Examples.diamond 4 "a"
  = Some ["a"; "d"; "b"; "d"] ∧
  (∀ pop fuel, (∀ s, s ≠ ∅ → pop s ∈ s) →
     _get_derived_set pop Examples.cyclic fuel "a" = None).
Proof.
  split; [apply pop_prefer_elem|]. split; [by vm_compute|].
  intros pop fuel Hpop. by apply derived_loop_cyclic.
Qed.

(** ** Cascading restore *)

Lemma members_all_present (s : list (option CatalogEntry.t)) :
  (∀ e, e ∈ s → is_Some e) →
  ∃ l, members s = Returned l ∧ ∀ d, d ∈ l ↔ Some d ∈ s.
Proof.
  induction s as [|[d|] s IH]; intros Hall.
  - exists []. split; [done|]. intros d. split; intros Hd; by apply elem_of_nil in Hd.
  - destruct IH as (l & Hl & Hmem).
    { intros e He. apply Hall. by apply list_elem_of_further. }
    exists (d :: l). split; [simpl; by rewrite Hl|].
    intros d'. rewrite !elem_of_cons, Hmem. split; intros [?|?]; simplify_eq; auto.
  - destruct (Hall None (list_elem_of_here _ _)) as [? ?]. done.
Qed.


Lemma elem_of_filter_bool {A} (f : A → bool) (l : list A) x :
  x ∈ List.filter f l ↔ x ∈ l ∧ f x = true.
Proof. rewrite !list_elem_of_In. apply filter_In. Qed.


Lemma family_rank_decreases x d :
  d ∈ Index.get_derived Examples.archived_family x →
  Examples.family_rank (CatalogEntry.id d) < Examples.family_rank x.
Proof.
  simpl. destruct (String.eqb x "t") eqn:Ht.
  - apply String.eqb_eq in Ht as ->. intros Hd.
    apply elem_of_cons in Hd as [->|Hd]; [vm_compute; lia|].
    apply list_elem_of_singleton in Hd as ->. vm_compute; lia.
  - intros Hd. by apply elem_of_nil in Hd.
Qed.




(** Of the two derived datasets only the one archived 300 seconds after the
    target is restored with it. *)
Example restore_one_example :
  match _restore_one Examples.pop_first Examples.archived_family 3 false "t" true
          (timedelta_seconds 600) with
  | Some (Returned res) => restore_call res = Some ["t"; "x"]
  | _ => False
  end.
Proof. by vm_compute. Qed.

(** ** Dataset resolver *)

Lemma id_eqb_eq (a b : option string) : id_eqb a b = true ↔ a = b.
Proof.
  destruct a, b; simpl; try (split; [discriminate|congruence]); try done.
  rewrite String.eqb_eq. split; congruence.
Qed.

Lemma id_eqb_refl (a : option string) : id_eqb a a = true.
Proof. by apply id_eqb_eq. Qed.

Lemma nav_nested_ind (P : SimpleDocNav.t → Prop) :
  (∀ i d b srcs, Forall (λ kc, P kc.2) srcs → P (SimpleDocNav.Nav i d b srcs)) →
  ∀ n, P n.
Proof.
  intros Hnav. fix IH 1. intros [i d b srcs]. apply Hnav.
  induction srcs as [|[k c] srcs IHs]; constructor; [apply IH|apply IHs].
Qed.

Section RemapFacts.
Context {S E R : Type}.
Variable mk_node : SimpleDocNav.t → list (string * R) → stateful S E R.

Lemma remap_lineage_doc_unfold root :
  remap_lineage_doc mk_node root
  = (sources ← remap_sources mk_node (SimpleDocNav.sources root); mk_node root sources).
Proof. by destruct root. Qed.
End RemapFacts.

Lemma traverse_datasets_unfold root :
  traverse_datasets root = traverse_sources (SimpleDocNav.sources root) ++ [root].
Proof. by destruct root. Qed.

Lemma traverse_datasets_root root : root ∈ traverse_datasets root.
Proof. rewrite traverse_datasets_unfold, elem_of_app, list_elem_of_singleton. auto. Qed.

Lemma stateful_bind_run {S E A B} (m : stateful S E A) (f : A → stateful S E B) σ :
  (m ≫= f) σ
  = match m σ with
    | (inr a, σ') => f a σ'
    | (inl e, σ') => (inl e, σ')
    end.
Proof. done. Qed.

Lemma filter_none {A} (P : A → Prop) `{∀ x, Decision (P x)} (l : list A) :
  (∀ x, x ∈ l → ¬ P x) → filter P l = [].
Proof.
  induction l as [|x l IH]; intros Hl; [done|].
  rewrite filter_cons_False by (apply Hl, list_elem_of_here).
  apply IH. intros y Hy. by apply Hl, list_elem_of_further.
Qed.

Section ResolverFacts.
Variable uri : string.
Variable main_uuid : option string.
Variable db : gmap string CatalogEntry.t.
Variable match_product : document → BadMatch + Product.t.
(** The documents of the tree being resolved. *)
Variable N : SimpleDocNav.t → Prop.

Lemma resolver_inv_init : resolver_inv uri main_uuid db match_product N resolver_init.
Proof.
  split; simpl.
  - intros k a Hk. by rewrite lookup_empty in Hk.
  - intros a d Ha. by rewrite lookup_nil in Ha.
  - intros k k' a Hk. by rewrite lookup_empty in Hk.
  - intros ev Hev. by apply elem_of_nil in Hev.
Qed.

Lemma refers_weaken c c' srcs refs : c ⊆ c' → refers c srcs refs → refers c' srcs refs.
Proof.
  intros Hsub Hrefs. eapply Forall2_impl; [exact Hrefs|].
  intros s r [? Hc]. split; [done|].
  by eapply lookup_weaken.
Qed.

Lemma lookups_for_unseen σ k :
  resolver_inv uri main_uuid db match_product N σ → cache σ !! k = None → lookups_for σ k = [].
Proof.
  intros Hinv Hk. apply filter_none. intros ev Hev Hkey.
  destruct (inv_looked_up _ _ _ _ _ σ Hinv ev Hev) as [a Ha]. congruence.
Qed.

(** Building the object for an identity not yet in the cache keeps the
    invariant. *)
Lemma resolver_inv_extend σ n refs d ev :
  resolver_inv uri main_uuid db match_product N σ →
  N n →
  cache σ !! SimpleDocNav.id n = None →
  refers (cache σ) (SimpleDocNav.sources n) refs →
  Dataset.metadata_doc d = SimpleDocNav.doc n →
  Dataset.sources d = Some refs →
  Dataset.uris d = (if id_eqb (SimpleDocNav.id n) main_uuid then [uri] else []) →
  lookup_key ev = SimpleDocNav.id n →
  match db_get db (SimpleDocNav.id n) with
  | Some e => Dataset.type d = CatalogEntry.type e ∧ ev = CatalogProduct (SimpleDocNav.id n)
  | None => match_product (Dataset.metadata_doc d) = inr (Dataset.type d) ∧
            ev = MatcherCall (SimpleDocNav.id n) (Dataset.metadata_doc d)
  end →
  resolver_inv uri main_uuid db match_product N {| store := store σ ++ [d];
                  cache := <[SimpleDocNav.id n := length (store σ)]> (cache σ);
                  lookups := lookups σ ++ [ev] |}.
Proof.
  intros Hinv HN Hmiss Hrefs Hdoc Hsrc Huris Hkey Hprod.
  set (k := SimpleDocNav.id n) in *.
  assert (Hsub : cache σ ⊆ <[k := length (store σ)]> (cache σ)) by by apply insert_subseteq.
  assert (Hfresh : ∀ k' a, cache σ !! k' = Some a → a < length (store σ)).
  { intros k' a Hk'. destruct (inv_cached _ _ _ _ _ σ Hinv k' a Hk') as (d' & Hd' & _).
    by eapply lookup_lt_Some. }
  split; simpl.
  - intros k' a Hk'. destruct (decide (k = k')) as [<-|Hne].
    + rewrite lookup_insert_eq in Hk'. injection Hk' as <-.
      exists d. split; [by rewrite lookup_app_r, Nat.sub_diag by lia|].
      split; simpl.
      * exists n, refs. repeat split; try done. by eapply refers_weaken.
      * done.
      * unfold lookups_for. simpl. rewrite filter_app.
        fold (lookups_for σ k). rewrite (lookups_for_unseen σ k Hinv Hmiss).
        rewrite filter_cons_True by done. rewrite filter_nil. simpl.
        destruct (db_get db k); destruct Hprod as [? ->]; done.
    + rewrite lookup_insert_ne in Hk' by done.
      destruct (inv_cached _ _ _ _ _ σ Hinv k' a Hk') as (d' & Hd' & [Hnode Hu Hp]).
      exists d'. split; [by apply lookup_app_l_Some|].
      split; simpl.
      * destruct Hnode as (n' & refs' & ? & ? & ? & ? & ?).
        exists n', refs'. repeat split; try done. by eapply refers_weaken.
      * done.
      * unfold lookups_for in *. simpl. rewrite filter_app.
        rewrite filter_cons_False by congruence. rewrite filter_nil. by rewrite app_nil_r.
  - intros a d' Ha. apply lookup_app_Some in Ha as [Ha|[Hlen Ha]].
    + destruct (inv_stored _ _ _ _ _ σ Hinv a d' Ha) as [k' Hk']. exists k'.
      by eapply lookup_weaken.
    + exists k. apply list_lookup_singleton_Some in Ha as [Ha _].
      replace a with (length (store σ)) by lia. apply lookup_insert_eq.
  - intros k1 k2 a Hk1 Hk2.
    destruct (decide (k = k1)) as [<-|Hne1], (decide (k = k2)) as [<-|Hne2]; [done| | |].
    + rewrite lookup_insert_eq in Hk1. rewrite lookup_insert_ne in Hk2 by done.
      injection Hk1 as <-. apply Hfresh in Hk2. lia.
    + rewrite lookup_insert_eq in Hk2. rewrite lookup_insert_ne in Hk1 by done.
      injection Hk2 as <-. apply Hfresh in Hk1. lia.
    + rewrite lookup_insert_ne in Hk1, Hk2 by done. by eapply (inv_distinct _ _ _ _ _ σ Hinv).
  - intros ev' Hev. apply elem_of_app in Hev as [Hev|Hev].
    + destruct (inv_looked_up _ _ _ _ _ σ Hinv ev' Hev) as [a Ha]. exists a.
      by eapply lookup_weaken.
    + apply list_elem_of_singleton in Hev as ->. rewrite Hkey.
      rewrite lookup_insert_eq. eauto.
Qed.

Lemma resolve_ds_step ds refs σ :
  resolver_inv uri main_uuid db match_product N σ → N ds → refers (cache σ) (SimpleDocNav.sources ds) refs →
  match resolve_ds uri main_uuid db match_product ds refs σ with
  | (inr a, σ') =>
      resolver_inv uri main_uuid db match_product N σ' ∧ cache σ ⊆ cache σ' ∧ cache σ' !! SimpleDocNav.id ds = Some a
  | (inl e, σ') => failed_at uri main_uuid db match_product N σ' e
  end.
Proof.
  intros Hinv HN Hrefs. unfold resolve_ds.
  rewrite stateful_bind_run. unfold gets at 1.
  destruct (cache σ !! SimpleDocNav.id ds) as [a|] eqn:Hc.
  - simpl. done.
  - destruct (db_get db (SimpleDocNav.id ds)) as [e|] eqn:Hdb.
    + simpl. split; [|split].
      * eapply (resolver_inv_extend σ ds refs); try done. by rewrite Hdb.
      * by apply insert_subseteq.
      * apply lookup_insert_eq.
    + destruct (match_product (SimpleDocNav.doc ds)) as [e|p] eqn:Hm.
      * simpl. exists σ, ds. split; [exact Hinv|]. by repeat split.
      * simpl. split; [|split].
        -- eapply (resolver_inv_extend σ ds refs); try done. by rewrite Hdb.
        -- by apply insert_subseteq.
        -- apply lookup_insert_eq.
Qed.

Lemma remap_sources_resolve_ds (srcs : list (string * SimpleDocNav.t)) :
  Forall (λ kc, ∀ σ,
    (∀ n, n ∈ traverse_datasets kc.2 → N n) → resolver_inv uri main_uuid db match_product N σ →
    match remap_lineage_doc (resolve_ds uri main_uuid db match_product) kc.2 σ with
    | (inr a, σ') =>
        resolver_inv uri main_uuid db match_product N σ' ∧ cache σ ⊆ cache σ' ∧
        cache σ' !! SimpleDocNav.id kc.2 = Some a ∧
        ∀ n, n ∈ traverse_datasets kc.2 → is_Some (cache σ' !! SimpleDocNav.id n)
    | (inl e, σ') => failed_at uri main_uuid db match_product N σ' e
    end) srcs →
  ∀ σ,
    (∀ n, n ∈ traverse_sources srcs → N n) → resolver_inv uri main_uuid db match_product N σ →
    match remap_sources (resolve_ds uri main_uuid db match_product) srcs σ with
    | (inr refs, σ') =>
        resolver_inv uri main_uuid db match_product N σ' ∧ cache σ ⊆ cache σ' ∧
        refers (cache σ') srcs refs ∧
        ∀ n, n ∈ traverse_sources srcs → is_Some (cache σ' !! SimpleDocNav.id n)
    | (inl e, σ') => failed_at uri main_uuid db match_product N σ' e
    end.
Proof.
  induction 1 as [|[k c] srcs Hc _ IHs]; intros σ HN Hinv.
  - simpl. split; [done|]. split; [done|]. split; [constructor|].
    intros n Hn. by apply elem_of_nil in Hn.
  - simpl remap_sources. rewrite stateful_bind_run. simpl in Hc, HN.
    specialize (Hc σ).
    destruct (remap_lineage_doc _ c σ) as [[e|a] σ1]; [apply Hc; auto; intros; apply HN, elem_of_app; auto|].
    destruct Hc as (Hinv1 & Hsub1 & Ha & Hall1); [intros; apply HN, elem_of_app; auto|done|].
    rewrite stateful_bind_run. specialize (IHs σ1).
    destruct (remap_sources _ srcs σ1) as [[e|refs] σ2]; [apply IHs; auto; intros; apply HN, elem_of_app; auto|].
    destruct IHs as (Hinv2 & Hsub2 & Hrefs & Hall2); [intros; apply HN, elem_of_app; auto|done|].
    simpl. split; [done|]. split; [by etrans|]. split.
    + constructor; [|done]. simpl. split; [done|]. by eapply lookup_weaken.
    + intros n Hn. apply elem_of_app in Hn as [Hn|Hn]; [|by apply Hall2].
      destruct (Hall1 n Hn) as [a' Ha']. exists a'. by eapply lookup_weaken.
Qed.

(** Resolving a tree from a state that satisfies the invariant: either the
    matcher rejects a document, or the invariant holds again, the cache has
    only grown, every document of the tree has its object in the cache, and
    the result is the object cached under the root's identity. *)
Lemma remap_resolve_ds (t : SimpleDocNav.t) : ∀ σ,
  (∀ n, n ∈ traverse_datasets t → N n) → resolver_inv uri main_uuid db match_product N σ →
  match remap_lineage_doc (resolve_ds uri main_uuid db match_product) t σ with
  | (inr a, σ') =>
      resolver_inv uri main_uuid db match_product N σ' ∧ cache σ ⊆ cache σ' ∧
      cache σ' !! SimpleDocNav.id t = Some a ∧
      ∀ n, n ∈ traverse_datasets t → is_Some (cache σ' !! SimpleDocNav.id n)
  | (inl e, σ') => failed_at uri main_uuid db match_product N σ' e
  end.
Proof.
  induction t as [i d b srcs IH] using nav_nested_ind. intros σ HN Hinv.
  rewrite remap_lineage_doc_unfold, stateful_bind_run. simpl SimpleDocNav.sources.
  pose proof (remap_sources_resolve_ds srcs IH σ) as Hsrcs.
  rewrite traverse_datasets_unfold in HN. simpl SimpleDocNav.sources in HN.
  destruct (remap_sources _ srcs σ) as [[e|refs] σ1];
    [apply Hsrcs; auto; intros; apply HN, elem_of_app; auto|].
  destruct Hsrcs as (Hinv1 & Hsub1 & Hrefs & Hall1); [intros; apply HN, elem_of_app; auto|done|].
  pose proof (resolve_ds_step (SimpleDocNav.Nav i d b srcs) refs σ1 Hinv1) as Hstep.
  destruct (resolve_ds _ _ _ _ (SimpleDocNav.Nav i d b srcs) refs σ1) as [[e|a] σ2].
  { apply Hstep; [|done]. apply HN, elem_of_app. right. apply list_elem_of_here. }
  destruct Hstep as (Hinv2 & Hsub2 & Ha); [apply HN, elem_of_app; right; apply list_elem_of_here|done|].
  split; [done|]. split; [by etrans|]. split; [done|].
  intros n Hn. rewrite traverse_datasets_unfold in Hn. simpl SimpleDocNav.sources in Hn.
  apply elem_of_app in Hn as [Hn|Hn].
  - destruct (Hall1 n Hn) as [a' Ha']. exists a'. by eapply lookup_weaken.
  - apply list_elem_of_singleton in Hn as ->. eauto.
Qed.
End ResolverFacts.

Lemma resolve_lineage_run uri main_uuid db match_product main :
  match resolve_lineage uri main_uuid db match_product main with
  | (inr a, σ) =>
      resolver_inv uri main_uuid db match_product (λ n, n ∈ traverse_datasets main) σ ∧
      cache σ !! SimpleDocNav.id main = Some a ∧
      ∀ n, n ∈ traverse_datasets main → is_Some (cache σ !! SimpleDocNav.id n)
  | (inl e, σ) =>
      failed_at uri main_uuid db match_product (λ n, n ∈ traverse_datasets main) σ e
  end.
Proof.
  unfold resolve_lineage.
  pose proof (remap_resolve_ds uri main_uuid db match_product
                (λ n, n ∈ traverse_datasets main) main resolver_init) as Hrun.
  destruct (remap_lineage_doc _ main resolver_init) as [[e|a] σ].
  - apply Hrun; [done|apply resolver_inv_init].
  - destruct Hrun as (Hinv & _ & Ha & Hall); [done|apply resolver_inv_init|done].
Qed.

Lemma lookups_once uri main_uuid db match_product N σ k :
  resolver_inv uri main_uuid db match_product N σ → length (lookups_for σ k) ≤ 1.
Proof.
  intros Hinv. destruct (cache σ !! k) as [a|] eqn:Hk.
  - destruct (inv_cached _ _ _ _ _ σ Hinv k a Hk) as (d & _ & [_ _ Hp]).
    destruct (db_get db k); destruct Hp as [_ ->]; simpl; lia.
  - rewrite (lookups_for_unseen _ _ _ _ _ σ k Hinv Hk). simpl. lia.
Qed.

Lemma lookups_once_failed uri main_uuid db match_product N σ e k :
  failed_at uri main_uuid db match_product N σ e → length (lookups_for σ k) ≤ 1.
Proof.
  intros (σ0 & n & Hinv & _ & Hmiss & _ & _ & _ & _ & Hl).
  unfold lookups_for. rewrite Hl, filter_app, length_app.
  destruct (decide (SimpleDocNav.id n = k)) as [<-|Hne].
  - fold (lookups_for σ0 (SimpleDocNav.id n)).
    rewrite (lookups_for_unseen _ _ _ _ _ σ0 _ Hinv Hmiss).
    rewrite filter_cons_True, filter_nil by done. simpl. lia.
  - rewrite filter_cons_False, filter_nil by done. simpl.
    pose proof (lookups_once _ _ _ _ _ σ0 k Hinv). unfold lookups_for in *. lia.
Qed.

(** *** Deduplicated trees *)

Lemma dedup_closed_weaken c c' l : c ⊆ c' → dedup_closed c l → dedup_closed c' l.
Proof. intros Hsub Hl m k Hm Hk. eapply lookup_weaken; [|exact Hsub]. by apply Hl. Qed.

Lemma dedup_node_step ds srcs c :
  dedup_inv c → dedup_closed c (traverse_sources srcs) →
  match dedup_node ds srcs c with
  | (inr r, c') => dedup_inv c' ∧ c ⊆ c' ∧ dedup_closed c' (traverse_datasets r)
  | (inl _, _) => True
  end.
Proof.
  intros Hinv Hsrcs. unfold dedup_node.
  destruct (SimpleDocNav.id ds) as [k|] eqn:Hid.
  - rewrite stateful_bind_run. unfold gets at 1.
    destruct (c !! k) as [recorded|] eqn:Hc.
    + destruct (document_eqb _ _); simpl; [|done].
      split; [done|]. split; [done|]. by eapply Hinv.
    + simpl.
      assert (Hsub : c ⊆ <[k := SimpleDocNav.Nav (Some k) (SimpleDocNav.doc ds)
                              (SimpleDocNav.doc_without_lineage_sources ds) srcs]> c)
        by by apply insert_subseteq.
      assert (Hout : dedup_closed
                (<[k := SimpleDocNav.Nav (Some k) (SimpleDocNav.doc ds)
                         (SimpleDocNav.doc_without_lineage_sources ds) srcs]> c)
                (traverse_datasets
                   (SimpleDocNav.Nav (Some k) (SimpleDocNav.doc ds)
                      (SimpleDocNav.doc_without_lineage_sources ds) srcs))).
      { intros m k' Hm Hk'. rewrite traverse_datasets_unfold in Hm.
        apply elem_of_app in Hm as [Hm|Hm].
        - eapply lookup_weaken; [|exact Hsub]. by apply Hsrcs.
        - apply list_elem_of_singleton in Hm as ->. simpl in Hk'.
          injection Hk' as <-. apply lookup_insert_eq. }
      split; [|by split].
      intros k' n Hn. destruct (decide (k = k')) as [<-|Hne].
      * rewrite lookup_insert_eq in Hn. by injection Hn as <-.
      * rewrite lookup_insert_ne in Hn by done.
        eapply dedup_closed_weaken; [exact Hsub|]. by eapply Hinv.
  - unfold mret, stateful_ret. split; [done|]. split; [done|].
    intros m k Hm Hk. rewrite traverse_datasets_unfold in Hm.
    apply elem_of_app in Hm as [Hm|Hm]; [by apply Hsrcs|].
    by apply list_elem_of_singleton in Hm as ->.
Qed.

Lemma remap_sources_dedup (srcs : list (string * SimpleDocNav.t)) :
  Forall (λ kc, ∀ c, dedup_inv c →
    match remap_lineage_doc dedup_node kc.2 c with
    | (inr r, c') => dedup_inv c' ∧ c ⊆ c' ∧ dedup_closed c' (traverse_datasets r)
    | (inl _, _) => True
    end) srcs →
  ∀ c, dedup_inv c →
    match remap_sources dedup_node srcs c with
    | (inr srcs', c') => dedup_inv c' ∧ c ⊆ c' ∧ dedup_closed c' (traverse_sources srcs')
    | (inl _, _) => True
    end.
Proof.
  induction 1 as [|[k t] srcs Ht _ IHs]; intros c Hinv.
  - simpl. split; [done|]. split; [done|]. intros m k Hm. by apply elem_of_nil in Hm.
  - simpl remap_sources. rewrite stateful_bind_run. simpl in Ht. specialize (Ht c Hinv).
    destruct (remap_lineage_doc dedup_node t c) as [[e|r] c1]; [done|].
    destruct Ht as (Hinv1 & Hsub1 & Hr).
    rewrite stateful_bind_run. specialize (IHs c1 Hinv1).
    destruct (remap_sources dedup_node srcs c1) as [[e|srcs'] c2]; [done|].
    destruct IHs as (Hinv2 & Hsub2 & Hsrcs). simpl.
    split; [done|]. split; [by etrans|].
    intros m k' Hm Hk'. apply elem_of_app in Hm as [Hm|Hm].
    + eapply lookup_weaken; [|exact Hsub2]. by apply Hr.
    + by apply Hsrcs.
Qed.

Lemma remap_dedup (t : SimpleDocNav.t) : ∀ c,
  dedup_inv c →
  match remap_lineage_doc dedup_node t c with
  | (inr r, c') => dedup_inv c' ∧ c ⊆ c' ∧ dedup_closed c' (traverse_datasets r)
  | (inl _, _) => True
  end.
Proof.
  induction t as [i d b srcs IH] using nav_nested_ind. intros c Hinv.
  rewrite remap_lineage_doc_unfold, stateful_bind_run. simpl SimpleDocNav.sources.
  pose proof (remap_sources_dedup srcs IH c Hinv) as Hsrcs.
  destruct (remap_sources dedup_node srcs c) as [[e|srcs'] c1]; [done|].
  destruct Hsrcs as (Hinv1 & Hsub1 & Hclosed).
  pose proof (dedup_node_step (SimpleDocNav.Nav i d b srcs) srcs' c1 Hinv1 Hclosed) as Hstep.
  destruct (dedup_node (SimpleDocNav.Nav i d b srcs) srcs' c1) as [[e|r] c2]; [done|].
  destruct Hstep as (Hinv2 & Hsub2 & Hr). split; [done|]. split; [by etrans|done].
Qed.

(** In a deduplicated tree the documents that carry the same identity are
    one document. *)
Lemma dedup_lineage_shared main ds n n' k :
  dedup_lineage main = inr ds →
  n ∈ traverse_datasets ds → n' ∈ traverse_datasets ds →
  SimpleDocNav.id n = Some k → SimpleDocNav.id n' = Some k → n = n'.
Proof.
  unfold dedup_lineage. intros Hdedup Hn Hn' Hk Hk'.
  pose proof (remap_dedup main ∅) as Hrun.
  destruct (remap_lineage_doc dedup_node main ∅) as [[e|r] c]; simpl in Hdedup; [done|].
  injection Hdedup as ->.
  destruct Hrun as (_ & _ & Hclosed); [intros k0 n0 H0; by rewrite lookup_empty in H0|].
  pose proof (Hclosed n k Hn Hk). pose proof (Hclosed n' k Hn' Hk'). congruence.
Qed.

Lemma traverse_sources_elem srcs n :
  n ∈ traverse_sources srcs ↔ ∃ kc, kc ∈ srcs ∧ n ∈ traverse_datasets kc.2.
Proof.
  induction srcs as [|[k c] srcs IH]; simpl.
  - split; [by intros ?%elem_of_nil|]. intros (kc & Hkc & _). by apply elem_of_nil in Hkc.
  - rewrite elem_of_app, IH. split.
    + intros [Hn|(kc & Hkc & Hn)]; [exists (k, c)|exists kc];
        (split; [|done]); [apply list_elem_of_here|by apply list_elem_of_further].
    + intros (kc & Hkc & Hn). apply elem_of_cons in Hkc as [->|Hkc]; [by left|].
      right. eauto.
Qed.

Lemma traverse_sources_length srcs kc :
  kc ∈ srcs → length (traverse_datasets kc.2) ≤ length (traverse_sources srcs).
Proof.
  induction srcs as [|[k c] srcs IH]; [by intros ?%elem_of_nil|].
  intros [->|Hkc]%elem_of_cons; simpl; rewrite length_app; [lia|].
  specialize (IH Hkc). lia.
Qed.

Lemma traverse_datasets_length (t : SimpleDocNav.t) : ∀ n,
  n ∈ traverse_datasets t →
  length (traverse_datasets n) ≤ length (traverse_datasets t).
Proof.
  induction t as [i d b srcs IH] using nav_nested_ind. intros n Hn.
  rewrite traverse_datasets_unfold in Hn. simpl SimpleDocNav.sources in Hn.
  apply elem_of_app in Hn as [Hn|Hn].
  - apply traverse_sources_elem in Hn as (kc & Hkc & Hn).
    rewrite Forall_forall in IH. specialize (IH kc Hkc n Hn).
    pose proof (traverse_sources_length srcs kc Hkc).
    rewrite (traverse_datasets_unfold (SimpleDocNav.Nav i d b srcs)), length_app.
    simpl. lia.
  - by apply list_elem_of_singleton in Hn as ->.
Qed.

(** A document of the lineage of [ds] is not [ds] itself. *)
Lemma traverse_sources_proper ds n :
  n ∈ traverse_sources (SimpleDocNav.sources ds) → n ≠ ds.
Proof.
  intros Hn ->. apply traverse_sources_elem in Hn as (kc & Hkc & Hn).
  pose proof (traverse_datasets_length _ _ Hn).
  pose proof (traverse_sources_length _ kc Hkc).
  rewrite (traverse_datasets_unfold ds), length_app in *. simpl in *. lia.
Qed.

(** So that, after deduplication, no document of the lineage carries the
    identity of a root that has one. *)
Lemma lineage_id_not_root main ds n k :
  dedup_lineage main = inr ds →
  SimpleDocNav.id ds = Some k →
  n ∈ traverse_sources (SimpleDocNav.sources ds) →
  SimpleDocNav.id n ≠ Some k.
Proof.
  intros Hdedup Hroot Hn Hid.
  apply (traverse_sources_proper ds n Hn).
  eapply (dedup_lineage_shared main ds n ds k); try done.
  - rewrite traverse_datasets_unfold, elem_of_app. by left.
  - apply traverse_datasets_root.
Qed.

(** *** The bulk lookup as a dictionary *)

Lemma by_id_snoc dss x : by_id (dss ++ [x]) = <[CatalogEntry.id x := x]> (by_id dss).
Proof. unfold by_id. by rewrite foldl_app. Qed.

(** The entry the dictionary holds for an identity is the last one the
    bulk lookup returned for it. *)
Lemma by_id_lookup dss k :
  by_id dss !! k = last (filter (λ e, CatalogEntry.id e = k) dss).
Proof.
  induction dss as [|x dss IH] using rev_ind; [done|].
  rewrite by_id_snoc, filter_app.
  destruct (decide (CatalogEntry.id x = k)) as [Hk|Hk].
  - rewrite filter_cons_True, filter_nil by done. rewrite last_snoc.
    rewrite <- Hk. apply lookup_insert_eq.
  - rewrite filter_cons_False, filter_nil, app_nil_r by done.
    by rewrite lookup_insert_ne.
Qed.

Lemma NoDup_lookup_keys (l : list product_lookup) :
  (∀ k, length (filter (λ ev, lookup_key ev = k) l) ≤ 1) →
  NoDup (lookup_key <$> l).
Proof.
  induction l as [|ev l IH]; intros Hl; [constructor|].
  rewrite fmap_cons. constructor.
  - intros Hin. apply list_elem_of_fmap in Hin as (ev' & Heq & Hev').
    specialize (Hl (lookup_key ev)). rewrite filter_cons_True in Hl by done.
    assert (ev' ∈ filter (λ ev0, lookup_key ev0 = lookup_key ev) l) as Hin
      by by apply list_elem_of_filter.
    destruct (filter (λ ev0, lookup_key ev0 = lookup_key ev) l);
      [by apply elem_of_nil in Hin|simpl in Hl; lia].
  - apply IH. intros k. specialize (Hl k). rewrite filter_cons in Hl.
    destruct (decide (lookup_key ev = k)); simpl in Hl; lia.
Qed.

(** C3.  [resolve_ds] returns the cached object, untouched, when the
    node's identity is in the cache.  Otherwise it computes: it makes one
    product lookup for that identity and, unless the matcher rejects the
    document, builds one new object from the node's document and the
    references it was given, and puts it in the cache under the node's
    identity.  In one run of the resolver at most one product lookup
    (catalogue or matcher) is made per identity, whether the run succeeds or
    not.  The run succeeds when the matcher accepts every document the
    catalogue does not hold, and fails only on a document the matcher
    rejects.  When it succeeds, every document of the tree has its object in
    the cache, from exactly one product lookup for its identity, the result
    is the object cached under the root's identity, every lineage reference
    held by an object is the very object cached under the identity referred
    to, and no object is cached under two identities. *)
Theorem resolve_ds_once_per_identity (uri : string) (main_uuid : option string)
    (db : gmap string CatalogEntry.t) (match_product : document → BadMatch + Product.t)
    (main : SimpleDocNav.t) :
  let run := resolve_lineage uri main_uuid db match_product main in
  (∀ ds refs σ a,
     cache σ !! SimpleDocNav.id ds = Some a →
     resolve_ds uri main_uuid db match_product ds refs σ = (inr a, σ)) ∧
  (∀ ds refs σ,
     cache σ !! SimpleDocNav.id ds = None →
     match resolve_ds uri main_uuid db match_product ds refs σ with
     | (inr a, σ') =>
         a = length (store σ) ∧
         cache σ' = <[SimpleDocNav.id ds := a]> (cache σ) ∧
         ∃ d ev,
           store σ' = store σ ++ [d] ∧
           lookups σ' = lookups σ ++ [ev] ∧
           lookup_key ev = SimpleDocNav.id ds ∧
           Dataset.metadata_doc d = SimpleDocNav.doc ds ∧
           Dataset.sources d = Some refs
     | (inl e, σ') =>
         db_get db (SimpleDocNav.id ds) = None ∧
         match_product (SimpleDocNav.doc ds) = inl e ∧
         store σ' = store σ ∧ cache σ' = cache σ ∧
         lookups σ' = lookups σ ++ [MatcherCall (SimpleDocNav.id ds) (SimpleDocNav.doc ds)]
     end) ∧
  (∀ k, length (lookups_for run.2 k) ≤ 1) ∧
  NoDup (lookup_key <$> lookups run.2) ∧
  (Forall (λ n, db_get db (SimpleDocNav.id n) = None →
                ∃ p, match_product (SimpleDocNav.doc n) = inr p)
          (traverse_datasets main) →
   ∃ root, run.1 = inr root) ∧
  (∀ e, run.1 = inl e →
     ∃ n, n ∈ traverse_datasets main ∧
          db_get db (SimpleDocNav.id n) = None ∧
          match_product (SimpleDocNav.doc n) = inl e) ∧
  (∀ root, run.1 = inr root →
     cache run.2 !! SimpleDocNav.id main = Some root ∧
     (∀ n, n ∈ traverse_datasets main →
           ∃ a d, cache run.2 !! SimpleDocNav.id n = Some a ∧ store run.2 !! a = Some d ∧
                  length (lookups_for run.2 (SimpleDocNav.id n)) = 1) ∧
     (∀ a d, store run.2 !! a = Some d →
             ∃ n refs, n ∈ traverse_datasets main ∧
               cache run.2 !! SimpleDocNav.id n = Some a ∧
               Dataset.sources d = Some refs ∧
               refers (cache run.2) (SimpleDocNav.sources n) refs) ∧
     (∀ k k' a, cache run.2 !! k = Some a → cache run.2 !! k' = Some a → k = k')).
Proof.
  intros run.
  assert (Honce : ∀ k, length (lookups_for run.2 k) ≤ 1).
  { intros k. subst run.
    pose proof (resolve_lineage_run uri main_uuid db match_product main) as Hrun.
    destruct (resolve_lineage uri main_uuid db match_product main) as [[e|a] σ]; simpl.
    + by eapply lookups_once_failed.
    + destruct Hrun as [Hinv _]. by eapply lookups_once. }
  assert (Hfail : ∀ e, run.1 = inl e →
     ∃ n, n ∈ traverse_datasets main ∧
          db_get db (SimpleDocNav.id n) = None ∧
          match_product (SimpleDocNav.doc n) = inl e).
  { intros e He. subst run.
    pose proof (resolve_lineage_run uri main_uuid db match_product main) as Hrun.
    destruct (resolve_lineage uri main_uuid db match_product main) as [[e'|a] σ];
      simpl in *; [|done]. injection He as ->.
    destruct Hrun as (σ0 & n & _ & Hn & _ & Hdb & Hm & _). eauto. }
  split; [|split; [|split; [done|split; [|split; [|split; [done|]]]]]].
  - intros ds refs σ a Hc. unfold resolve_ds. rewrite stateful_bind_run.
    unfold gets. by rewrite Hc.
  - intros ds refs σ Hc. unfold resolve_ds. rewrite stateful_bind_run.
    unfold gets at 1. rewrite Hc.
    destruct (db_get db (SimpleDocNav.id ds)) as [e|]; simpl.
    + split; [done|]. split; [done|]. by eexists _, _.
    + destruct (match_product (SimpleDocNav.doc ds)); simpl; [done|].
      split; [done|]. split; [done|]. by eexists _, _.
  - by apply NoDup_lookup_keys.
  - intros Hall. destruct run.1 as [e|root] eqn:Hrun; [|by eexists].
    destruct (Hfail e eq_refl) as (n & Hn & Hdb & Hm).
    rewrite Forall_forall in Hall. destruct (Hall n Hn Hdb) as [p Hp]. congruence.
  - intros root Hroot. subst run.
    pose proof (resolve_lineage_run uri main_uuid db match_product main) as Hrun.
    destruct (resolve_lineage uri main_uuid db match_product main) as [[e|a] σ];
      simpl in *; [done|]. injection Hroot as ->.
    destruct Hrun as (Hinv & Ha & Hall). split; [done|]. split; [|split].
    + intros n Hn. destruct (Hall n Hn) as [a Hc]. exists a.
      destruct (inv_cached _ _ _ _ _ σ Hinv _ a Hc) as (d & Hd & [_ _ Hp]).
      exists d. split; [done|]. split; [done|].
      destruct (db_get db (SimpleDocNav.id n)); destruct Hp as [_ ->]; done.
    + intros a d Hd. destruct (inv_stored _ _ _ _ _ σ Hinv a d Hd) as [k Hk].
      destruct (inv_cached _ _ _ _ _ σ Hinv k a Hk) as (d' & Hd' & [Hnode _ _]).
      assert (d' = d) as -> by congruence.
      destruct Hnode as (n & refs & Hn & <- & _ & Hsrc & Hrefs). eauto 10.
    + apply (inv_distinct _ _ _ _ _ σ Hinv).
Qed.

(** With the ancestor [b] at two places of the tree and an empty catalogue,
    the matcher accepts every document and the run succeeds: each document
    has its object, from one product lookup. *)
Lemma resolve_ds_once_per_identity_witness :
  ∃ root,
    Examples.shared_run.1 = inr root ∧
    cache Examples.shared_run.2 !! Some "a" = Some root ∧
    NoDup (lookup_key <$> lookups Examples.shared_run.2) ∧
    ∀ n, n ∈ traverse_datasets Examples.shared_ancestor →
      ∃ a d, cache Examples.shared_run.2 !! SimpleDocNav.id n = Some a ∧
             store Examples.shared_run.2 !! a = Some d ∧
             length (lookups_for Examples.shared_run.2 (SimpleDocNav.id n)) = 1.
Proof.
  destruct (resolve_ds_once_per_identity "file:///a" (Some "a") ∅
              (multi_product_matcher Examples.rules) Examples.shared_ancestor)
    as (_ & _ & _ & Hnodup & Hprogress & _ & Hok).
  destruct Hprogress as [root Hroot].
  { repeat constructor; intros _; by eexists; vm_compute. }
  exists root. split; [exact Hroot|].
  destruct (Hok root Hroot) as (Hc & Hall & _).
  split; [exact Hc|]. split; [exact Hnodup|exact Hall].
Defined.

(** With the ancestor [b] at two places of the tree, four objects are
    built, [b] once, and both references to [b] are location 0. *)
Example shared_ancestor_resolved_once :
  let run := resolve_lineage "file:///a" (Some "a") ∅
               (multi_product_matcher Examples.rules) Examples.shared_ancestor in
  run.1 = inr 3 ∧
  Dataset.sources <$> store run.2
  = [Some []; Some [("src", 0)]; Some [("src", 0)]; Some [("s1", 1); ("s2", 2)]] ∧
  lookup_key <$> lookups run.2 = [Some "b"; Some "m"; Some "n"; Some "a"].
Proof. by vm_compute. Qed.

(** *** What [resolve] returns *)

Lemma resolve_returns index match_product fail_on_missing_lineage verify_lineage
    main ds uri res :
  dedup_lineage main = inr ds →
  resolve index match_product fail_on_missing_lineage verify_lineage main uri
  = Returned (inr res) →
  ∃ σ,
    resolve_lineage uri (SimpleDocNav.id ds) (db_dss index ds) match_product ds
    = (inr res.1, σ) ∧
    store σ = res.2 ∧
    ((0 <? length (missing_lineage index ds)) && fail_on_missing_lineage = false) ∧
    (verify_lineage && (0 <? length (bad_lineage index ds)) = false).
Proof.
  intros Hdedup. unfold resolve. rewrite Hdedup.
  destruct ((0 <? length (missing_lineage index ds)) && fail_on_missing_lineage).
  { by destruct (join_ids (missing_lineage index ds)). }
  destruct (verify_lineage && (0 <? length (bad_lineage index ds))); [done|].
  destruct (resolve_lineage uri (SimpleDocNav.id ds) (db_dss index ds) match_product ds)
    as [[e|root] σ]; [done|].
  intros [= <-]. by exists σ.
Qed.

Lemma resolve_bad_match index match_product fail_on_missing_lineage verify_lineage
    main ds uri e :
  dedup_lineage main = inr ds →
  resolve index match_product fail_on_missing_lineage verify_lineage main uri
  = Returned (inl (ErrBadMatch e)) →
  ∃ σ,
    resolve_lineage uri (SimpleDocNav.id ds) (db_dss index ds) match_product ds
    = (inl e, σ) ∧
    ((0 <? length (missing_lineage index ds)) && fail_on_missing_lineage = false) ∧
    (verify_lineage && (0 <? length (bad_lineage index ds)) = false).
Proof.
  intros Hdedup. unfold resolve. rewrite Hdedup.
  destruct ((0 <? length (missing_lineage index ds)) && fail_on_missing_lineage).
  { by destruct (join_ids (missing_lineage index ds)). }
  destruct (verify_lineage && (0 <? length (bad_lineage index ds))); [done|].
  destruct (resolve_lineage uri (SimpleDocNav.id ds) (db_dss index ds) match_product ds)
    as [[e'|root] σ]; [|done].
  intros [= <-]. by exists σ.
Qed.

(** An identity the dictionary of the bulk lookup does not hold is one
    that no entry of the bulk lookup carries. *)
Lemma db_get_None dss x :
  db_get (by_id dss) x = None ↔ ∀ e, e ∈ dss → Some (CatalogEntry.id e) ≠ x.
Proof.
  destruct x as [k|]; simpl; [|by split].
  rewrite by_id_lookup, last_None. split.
  - intros Hnil e He [= Hk].
    assert (e ∈ filter (λ e, CatalogEntry.id e = k) dss) as Hin
      by by apply list_elem_of_filter.
    rewrite Hnil in Hin. by apply elem_of_nil in Hin.
  - intros Hall. apply elem_of_nil_inv. intros e [Hk He]%list_elem_of_filter.
    apply (Hall e He). by rewrite Hk.
Qed.

Lemma db_get_Some dss k e :
  db_get (by_id dss) (Some k) = Some e ↔
  last (filter (λ e, CatalogEntry.id e = k) dss) = Some e.
Proof. simpl. by rewrite by_id_lookup. Qed.

(** C4 (amended).  After deduplication, for every document of the tree
    that carries an identity: a successful resolution has built its object
    from that very document, with its product from exactly one lookup.  If
    the bulk lookup returned an entry for the identity, the product is the
    one recorded in that entry (the last one, should there be several), read
    without any call of the matcher for the identity; otherwise it is the
    product the matcher returns for the document.  A resolution that fails
    in the matcher fails on a document whose identity the bulk lookup did
    not return.  The matcher of [dataset_resolver] is [product_matcher] of
    the whole rule list. *)
Theorem resolve_ds_product_source (index : Index.t)
    (match_product : document → BadMatch + Product.t)
    (fail_on_missing_lineage verify_lineage : bool)
    (main ds : SimpleDocNav.t) (uri : string) :
  dedup_lineage main = inr ds →
  let bulk := Index.bulk_get index (all_uuid ds) in
  (∀ res,
     resolve index match_product fail_on_missing_lineage verify_lineage main uri
     = Returned (inr res) →
     ∃ σ,
       resolve_lineage uri (SimpleDocNav.id ds) (db_dss index ds) match_product ds
       = (inr res.1, σ) ∧
       store σ = res.2 ∧
       ∀ n k, n ∈ traverse_datasets ds → SimpleDocNav.id n = Some k →
         ∃ a d, cache σ !! Some k = Some a ∧ res.2 !! a = Some d ∧
           Dataset.metadata_doc d = SimpleDocNav.doc n ∧
           match last (filter (λ e, CatalogEntry.id e = k) bulk) with
           | Some e =>
               Dataset.type d = CatalogEntry.type e ∧
               lookups_for σ (Some k) = [CatalogProduct (Some k)]
           | None =>
               match_product (SimpleDocNav.doc n) = inr (Dataset.type d) ∧
               lookups_for σ (Some k) = [MatcherCall (Some k) (SimpleDocNav.doc n)]
           end) ∧
  (∀ e,
     resolve index match_product fail_on_missing_lineage verify_lineage main uri
     = Returned (inl (ErrBadMatch e)) →
     ∃ n, n ∈ traverse_datasets ds ∧
          (∀ entry, entry ∈ bulk → Some (CatalogEntry.id entry) ≠ SimpleDocNav.id n) ∧
          match_product (SimpleDocNav.doc n) = inl e) ∧
  (∀ rules ds_resolve,
     dataset_resolver index rules fail_on_missing_lineage verify_lineage false
     = Returned ds_resolve →
     ∃ matcher, product_matcher rules = Returned matcher ∧
                ds_resolve = resolve index matcher fail_on_missing_lineage verify_lineage).
Proof.
  intros Hdedup bulk. split; [|split].
  - intros res Hres.
    destruct (resolve_returns _ _ _ _ _ _ _ _ Hdedup Hres) as (σ & Hrun & Hstore & _).
    exists σ. split; [done|]. split; [done|]. intros n k Hn Hk.
    pose proof (resolve_lineage_run uri (SimpleDocNav.id ds) (db_dss index ds)
                  match_product ds) as Hinv.
    rewrite Hrun in Hinv. destruct Hinv as (Hinv & _ & Hall).
    destruct (Hall n Hn) as [a Hc]. rewrite Hk in Hc.
    destruct (inv_cached _ _ _ _ _ σ Hinv _ a Hc) as (d & Hd & [Hnode _ Hp]).
    destruct Hnode as (n' & refs & Hn' & Hk' & Hdoc & _).
    assert (n' = n) as -> by by eapply dedup_lineage_shared.
    exists a, d. split; [done|]. split; [by rewrite <- Hstore|]. split; [done|].
    unfold db_dss in Hp. fold bulk in Hp. simpl in Hp. rewrite by_id_lookup in Hp.
    destruct (last (filter (λ e, CatalogEntry.id e = k) bulk)); [done|].
    by rewrite <- Hdoc.
  - intros e He.
    destruct (resolve_bad_match _ _ _ _ _ _ _ _ Hdedup He) as (σ & Hrun & _).
    pose proof (resolve_lineage_run uri (SimpleDocNav.id ds) (db_dss index ds)
                  match_product ds) as Hinv.
    rewrite Hrun in Hinv. destruct Hinv as (σ0 & n & _ & Hn & _ & Hdb & Hm & _).
    exists n. split; [done|]. split; [|done]. by apply db_get_None.
  - intros rules ds_resolve. unfold dataset_resolver.
    destruct (product_matcher rules) as [matcher|]; simpl; [|done].
    intros [= <-]. eauto.
Qed.

(** The source [b] is of no known platform, but the catalogue holds it:
    its product is the catalogue's, and the matcher is called for [a]
    only, on the document of [a]. *)
Lemma resolve_ds_product_source_witness :
  ∃ res σ,
    resolve Examples.knows_b (multi_product_matcher Examples.rules) false false
      Examples.unknown_source "file:///a" = Returned (inr res) ∧
    store σ = res.2 ∧
    (∃ a d, cache σ !! Some "b" = Some a ∧ res.2 !! a = Some d ∧
       Dataset.metadata_doc d = SimpleDocNav.doc (Examples.nav "b" "SPOT" []) ∧
       Dataset.type d = Examples.landsat ∧
       lookups_for σ (Some "b") = [CatalogProduct (Some "b")]) ∧
    (∃ a d, cache σ !! Some "a" = Some a ∧ res.2 !! a = Some d ∧
       Dataset.metadata_doc d = SimpleDocNav.doc Examples.unknown_source ∧
       multi_product_matcher Examples.rules (SimpleDocNav.doc Examples.unknown_source)
       = inr (Dataset.type d) ∧
       lookups_for σ (Some "a")
       = [MatcherCall (Some "a") (SimpleDocNav.doc Examples.unknown_source)]).
Proof.
  destruct (resolve_ds_product_source Examples.knows_b
              (multi_product_matcher Examples.rules) false false
              Examples.unknown_source Examples.unknown_source "file:///a")
    as (Hok & _); [by vm_compute|].
  destruct (resolve Examples.knows_b (multi_product_matcher Examples.rules) false false
              Examples.unknown_source "file:///a") as [[err|res]|] eqn:Hres;
    [by vm_compute in Hres| |by vm_compute in Hres].
  destruct (Hok res eq_refl) as (σ & _ & Hstore & Hnodes).
  exists res, σ. split; [done|]. split; [done|]. split.
  - destruct (Hnodes (Examples.nav "b" "SPOT" []) "b") as (a & d & Hc & Hd & Hdoc & Hp);
      [by vm_compute; apply list_elem_of_here|done|].
    exists a, d. by repeat split; try apply Hp.
  - destruct (Hnodes Examples.unknown_source "a") as (a & d & Hc & Hd & Hdoc & Hp);
      [apply traverse_datasets_root|done|].
    exists a, d. by repeat split; try apply Hp.
Defined.

(** C4 fails as stated on documents without identity.  The two sources of
    the scene carry none, and the bulk lookup returns nothing: the first is
    resolved by the matcher and cached under the absent identity, and the
    second, a Sentinel document, receives that Landsat object; the matcher
    is never called on its document. *)
Lemma resolve_ds_anonymous_sources_share :
  dedup_lineage Examples.anonymous_sources = inr Examples.anonymous_sources ∧
  traverse_datasets Examples.anonymous_sources
  = [Examples.anonymous "LANDSAT_8"; Examples.anonymous "SENTINEL_2";
     Examples.anonymous_sources] ∧
  Index.bulk_get Examples.empty_catalogue (all_uuid Examples.anonymous_sources) = [] ∧
  multi_product_matcher Examples.rules
    (SimpleDocNav.doc (Examples.anonymous "SENTINEL_2")) = inr Examples.sentinel ∧
  ∃ σ d0 d1,
    resolve_lineage "file:///a" (Some "a")
      (db_dss Examples.empty_catalogue Examples.anonymous_sources)
      (multi_product_matcher Examples.rules) Examples.anonymous_sources = (inr 1, σ) ∧
    resolve Examples.empty_catalogue (multi_product_matcher Examples.rules) false true
      Examples.anonymous_sources "file:///a" = Returned (inr (1, [d0; d1])) ∧
    store σ = [d0; d1] ∧
    Dataset.sources d1 = Some [("s1", 0); ("s2", 0)] ∧
    Dataset.metadata_doc d0 = SimpleDocNav.doc (Examples.anonymous "LANDSAT_8") ∧
    Dataset.type d0 = Examples.landsat ∧
    lookups σ
    = [MatcherCall None (SimpleDocNav.doc (Examples.anonymous "LANDSAT_8"));
       MatcherCall (Some "a") (SimpleDocNav.doc Examples.anonymous_sources)].
Proof.
  split; [by vm_compute|]. split; [by vm_compute|]. split; [by vm_compute|].
  split; [by vm_compute|]. eexists _, _, _. by vm_compute.
Qed.

(** C5 (amended).  In a lineage-aware resolution of a root document that
    carries an identity, once deduplicated: the root's object is built from
    the root's document and has the caller's location as its only
    location; every other object built has none; and every document of
    the lineage has received an object other than the root's, with no
    location, built from that very document when it carries an identity.
    An object has the location exactly when it is the one cached under the
    root's identity. *)
Theorem resolve_ds_location_only_root (index : Index.t)
    (match_product : document → BadMatch + Product.t)
    (fail_on_missing_lineage verify_lineage : bool)
    (main ds : SimpleDocNav.t) (uri : string) (k : string) (res : resolved) :
  dedup_lineage main = inr ds →
  SimpleDocNav.id ds = Some k →
  resolve index match_product fail_on_missing_lineage verify_lineage main uri
  = Returned (inr res) →
  ∃ σ,
    resolve_lineage uri (Some k) (db_dss index ds) match_product ds = (inr res.1, σ) ∧
    store σ = res.2 ∧
    (∃ d, res.2 !! res.1 = Some d ∧ Dataset.uris d = [uri] ∧
          Dataset.metadata_doc d = SimpleDocNav.doc ds) ∧
    (∀ a d, res.2 !! a = Some d → a ≠ res.1 → Dataset.uris d = []) ∧
    (∀ n, n ∈ traverse_sources (SimpleDocNav.sources ds) →
       ∃ a d, cache σ !! SimpleDocNav.id n = Some a ∧ res.2 !! a = Some d ∧
              a ≠ res.1 ∧ Dataset.uris d = [] ∧
              (is_Some (SimpleDocNav.id n) →
               Dataset.metadata_doc d = SimpleDocNav.doc n)) ∧
    (∀ k' a d, cache σ !! k' = Some a → res.2 !! a = Some d →
               Dataset.uris d = if id_eqb k' (Some k) then [uri] else []).
Proof.
  intros Hdedup Hroot Hres.
  destruct (resolve_returns _ _ _ _ _ _ _ _ Hdedup Hres) as (σ & Hrun & Hstore & _).
  rewrite Hroot in Hrun. exists σ. split; [done|]. split; [done|].
  pose proof (resolve_lineage_run uri (Some k) (db_dss index ds) match_product ds) as Hinv.
  rewrite Hrun in Hinv. destruct Hinv as (Hinv & Ha & Hall). rewrite Hroot in Ha.
  rewrite <- Hstore.
  assert (Hk : ∀ k' a d, cache σ !! k' = Some a → store σ !! a = Some d →
            Dataset.uris d = if id_eqb k' (Some k) then [uri] else []).
  { intros k' a d Hc Hd.
    destruct (inv_cached _ _ _ _ _ σ Hinv k' a Hc) as (d' & Hd' & [_ Hu _]). congruence. }
  assert (Hdoc : ∀ n k' a d, n ∈ traverse_datasets ds → SimpleDocNav.id n = Some k' →
            cache σ !! Some k' = Some a → store σ !! a = Some d →
            Dataset.metadata_doc d = SimpleDocNav.doc n).
  { intros n k' a d Hn Hk' Hc Hd.
    destruct (inv_cached _ _ _ _ _ σ Hinv _ a Hc) as (d' & Hd' & [Hnode _ _]).
    destruct Hnode as (n' & refs & Hn' & Hid' & Hdoc & _).
    assert (n' = n) as -> by by eapply dedup_lineage_shared. congruence. }
  split; [|split; [|split; [|done]]].
  - destruct (inv_cached _ _ _ _ _ σ Hinv _ res.1 Ha) as (d & Hd & _).
    exists d. split; [done|]. split.
    + rewrite (Hk _ _ _ Ha Hd). by rewrite id_eqb_refl.
    + eapply Hdoc; try done. apply traverse_datasets_root.
  - intros a d Hd Hne. destruct (inv_stored _ _ _ _ _ σ Hinv a d Hd) as [k' Hc].
    rewrite (Hk _ _ _ Hc Hd). destruct (id_eqb k' (Some k)) eqn:Heq; [|done].
    apply id_eqb_eq in Heq as ->. congruence.
  - intros n Hn.
    assert (Hne : SimpleDocNav.id n ≠ Some k) by by eapply lineage_id_not_root.
    assert (Hin : n ∈ traverse_datasets ds)
      by (rewrite traverse_datasets_unfold, elem_of_app; by left).
    destruct (Hall n Hin) as [a Hc].
    destruct (inv_cached _ _ _ _ _ σ Hinv _ a Hc) as (d & Hd & _).
    exists a, d. split; [done|]. split; [done|]. split; [|split].
    + intros ->. apply Hne. by eapply (inv_distinct _ _ _ _ _ σ Hinv).
    + rewrite (Hk _ _ _ Hc Hd). destruct (id_eqb _ (Some k)) eqn:Heq; [|done].
      by apply id_eqb_eq in Heq.
    + intros [k' Hk']. eapply Hdoc; try done. by rewrite <- Hk'.
Qed.

(** On the tree with the shared ancestor, against an empty catalogue: the
    root is object 3. *)
Lemma resolve_ds_location_only_root_witness :
  ∃ σ,
    resolve_lineage "file:///a" (Some "a")
      (db_dss Examples.empty_catalogue Examples.shared_ancestor)
      (multi_product_matcher Examples.rules) Examples.shared_ancestor = (inr 3, σ) ∧
    (∃ d, store σ !! 3 = Some d ∧ Dataset.uris d = ["file:///a"] ∧
          Dataset.metadata_doc d = SimpleDocNav.doc Examples.shared_ancestor) ∧
    (∀ a d, store σ !! a = Some d → a ≠ 3 → Dataset.uris d = []) ∧
    (∀ n, n ∈ traverse_sources (SimpleDocNav.sources Examples.shared_ancestor) →
       ∃ a d, cache σ !! SimpleDocNav.id n = Some a ∧ store σ !! a = Some d ∧
              a ≠ 3 ∧ Dataset.uris d = [] ∧
              (is_Some (SimpleDocNav.id n) →
               Dataset.metadata_doc d = SimpleDocNav.doc n)).
Proof.
  destruct (resolve_ds_location_only_root Examples.empty_catalogue
              (multi_product_matcher Examples.rules) false true
              Examples.shared_ancestor Examples.shared_ancestor "file:///a" "a"
              (3, store Examples.shared_run.2))
    as (σ & Hrun & Hstore & Hroot & Hothers & Hlineage & _);
    [by vm_compute|done|by vm_compute|].
  simpl in *. rewrite <- Hstore in *. by exists σ.
Defined.

(** C5 fails as stated on a root without identity.  The source of such a
    root carries none either: it is resolved first and, its absent
    identity being the root's, it is built with the caller's location; the
    root then receives that very object. *)
Lemma resolve_ds_anonymous_root_location :
  dedup_lineage Examples.anonymous_family = inr Examples.anonymous_family ∧
  traverse_sources (SimpleDocNav.sources Examples.anonymous_family)
  = [Examples.anonymous "SENTINEL_2"] ∧
  resolve Examples.empty_catalogue (multi_product_matcher Examples.rules) false true
    Examples.anonymous_family "file:///a"
  = Returned (inr (0, [Dataset.Mk Examples.sentinel
                         (SimpleDocNav.doc (Examples.anonymous "SENTINEL_2"))
                         ["file:///a"] (Some [])])).
Proof. by vm_compute. Qed.

(** ** Missing lineage *)

Lemma get_list_keys {A} (k : option string) (v : A) out x :
  x ∈ (get_list k v out).*1 ↔ x ∈ out.*1 ∨ x = k.
Proof.
  induction out as [|[k' vs] out IH]; simpl.
  - rewrite list_elem_of_singleton. split; [auto|]. intros [H| ->]; [|done].
    by apply elem_of_nil in H.
  - destruct (id_eqb k k') eqn:Heq; simpl.
    + apply id_eqb_eq in Heq as ->. rewrite elem_of_cons. naive_solver.
    + rewrite !elem_of_cons, IH. naive_solver.
Qed.

Lemma get_list_nonempty {A} (k : option string) (v : A) out :
  Forall (λ kv, kv.2 ≠ []) out → Forall (λ kv, kv.2 ≠ []) (get_list k v out).
Proof.
  induction 1 as [|[k' vs] out Hvs Hout IH]; simpl.
  - by constructor.
  - destruct (id_eqb k k'); constructor; simpl in *; try done.
    by destruct vs.
Qed.

Lemma flatten_fold_keys (l : list SimpleDocNav.t) : ∀ out,
  Forall (λ kv, kv.2 ≠ []) out →
  Forall (λ kv, kv.2 ≠ []) (foldl (λ out n, get_list (SimpleDocNav.id n) n out) out l) ∧
  ∀ x, x ∈ (foldl (λ out n, get_list (SimpleDocNav.id n) n out) out l).*1 ↔
       x ∈ out.*1 ∨ ∃ n, n ∈ l ∧ SimpleDocNav.id n = x.
Proof.
  induction l as [|n l IH]; intros out Hout; simpl.
  - split; [done|]. intros x. split; [auto|]. intros [?|(n & Hn & _)]; [done|].
    by apply elem_of_nil in Hn.
  - destruct (IH (get_list (SimpleDocNav.id n) n out)) as [Hne Hkeys];
      [by apply get_list_nonempty|].
    split; [done|]. intros x. rewrite Hkeys, get_list_keys. split.
    + intros [[?| ->]|(n' & Hn' & <-)]; eauto using list_elem_of_here, list_elem_of_further.
    + intros [?|(n' & Hn' & <-)]; [auto|].
      apply elem_of_cons in Hn' as [->|Hn']; eauto.
Qed.

Lemma valmap_first_keys {A} (m : list (option string * list A)) :
  Forall (λ kv, kv.2 ≠ []) m → (valmap_first m).*1 = m.*1.
Proof.
  induction 1 as [|[k [|v vs]] m Hv _ IH]; [done|done|].
  unfold valmap_first in *. simpl. f_equal. exact IH.
Qed.

(** [all_uuid] lists the identities of the documents of the tree. *)
Lemma elem_of_all_uuid (ds : SimpleDocNav.t) x :
  x ∈ all_uuid ds ↔ ∃ n, n ∈ traverse_datasets ds ∧ SimpleDocNav.id n = x.
Proof.
  unfold all_uuid, ds_by_uuid, flatten_datasets.
  destruct (flatten_fold_keys (traverse_datasets ds) []) as [Hne Hkeys]; [constructor|].
  rewrite valmap_first_keys by done. rewrite Hkeys. simpl. split.
  - intros [H|?]; [by apply elem_of_nil in H|done].
  - auto.
Qed.

Lemma in_db_false db k : in_db db k = false ↔ db_get db k = None.
Proof. unfold in_db. destruct (db_get db k); split; congruence. Qed.

Lemma elem_of_missing_lineage index (ds : SimpleDocNav.t) x :
  x ∈ missing_lineage index ds ↔
  (∃ n, n ∈ traverse_datasets ds ∧ SimpleDocNav.id n = x) ∧
  x ≠ SimpleDocNav.id ds ∧
  db_get (db_dss index ds) x = None.
Proof.
  unfold missing_lineage, lineage_uuids.
  rewrite !elem_of_filter_bool, elem_of_all_uuid, !negb_true_iff, in_db_false.
  rewrite <- not_true_iff_false, id_eqb_eq. tauto.
Qed.

Lemma join_ids_strings (names : list string) : join_ids (Some <$> names) = Returned names.
Proof. induction names as [|s names IH]; csimpl; [done|]. by rewrite IH. Qed.

Lemma all_some (l : list (option string)) :
  (∀ x, x ∈ l → is_Some x) → ∃ names, l = Some <$> names.
Proof.
  induction l as [|x l IH]; intros Hl; [by exists []|].
  destruct (Hl x (list_elem_of_here _ _)) as [k ->].
  destruct IH as [names ->]; [intros y Hy; by apply Hl, list_elem_of_further|].
  by exists (k :: names).
Qed.

(** When every document of the lineage carries an identity, the documents
    of a deduplicated tree are told apart by their identities. *)
Lemma tree_ids_unique main ds n n' :
  dedup_lineage main = inr ds →
  (∀ n, n ∈ traverse_sources (SimpleDocNav.sources ds) → is_Some (SimpleDocNav.id n)) →
  n ∈ traverse_datasets ds → n' ∈ traverse_datasets ds →
  SimpleDocNav.id n = SimpleDocNav.id n' → n = n'.
Proof.
  intros Hdedup Hids Hn Hn' Hid.
  destruct (SimpleDocNav.id n) as [k|] eqn:Hk; [by eapply dedup_lineage_shared|].
  rewrite traverse_datasets_unfold, elem_of_app, list_elem_of_singleton in Hn, Hn'.
  destruct Hn as [Hn| ->]; [destruct (Hids n Hn); congruence|].
  destruct Hn' as [Hn'| ->]; [destruct (Hids n' Hn'); congruence|done].
Qed.

(** The missing lineage, told from the bulk lookup itself. *)
Lemma elem_of_missing_lineage_bulk index main ds x :
  dedup_lineage main = inr ds →
  (∀ n, n ∈ traverse_sources (SimpleDocNav.sources ds) → is_Some (SimpleDocNav.id n)) →
  x ∈ missing_lineage index ds ↔
  ∃ n k, n ∈ traverse_sources (SimpleDocNav.sources ds) ∧
         SimpleDocNav.id n = Some k ∧ x = Some k ∧
         ∀ e, e ∈ Index.bulk_get index (all_uuid ds) → CatalogEntry.id e ≠ k.
Proof.
  intros Hdedup Hids. rewrite elem_of_missing_lineage. unfold db_dss.
  rewrite db_get_None. split.
  - intros ((n & Hn & <-) & Hroot & Hdb).
    rewrite traverse_datasets_unfold, elem_of_app, list_elem_of_singleton in Hn.
    destruct Hn as [Hn| ->]; [|done].
    destruct (Hids n Hn) as [k Hk]. exists n, k. split; [done|]. split; [done|].
    split; [done|]. intros e He Heq. apply (Hdb e He). by rewrite Hk, Heq.
  - intros (n & k & Hn & Hk & -> & Hdb). split; [|split].
    + exists n. split; [|done]. rewrite traverse_datasets_unfold, elem_of_app. by left.
    + intros Hroot. by eapply (lineage_id_not_root main ds n k).
    + intros e He [= Heq]. by apply (Hdb e He).
Qed.

(** C2 (amended).  When deduplication of the root document succeeds and
    every document of the lineage carries an identity: the missing lineage
    is exactly the identities of lineage documents that no entry returned
    by the bulk lookup carries.  With [fail_on_missing_lineage] set and some
    lineage missing, resolution returns no dataset and the error that names
    exactly the missing identities.  With the flag unset, resolution
    returns, never with that error.  It returns a dataset exactly when
    lineage verification is off or finds nothing and the matcher accepts
    every document whose identity the bulk lookup did not return; each
    missing ancestor then has an object built from its own document, with
    the product the matcher gave for that document, from one matcher call
    on it.  Otherwise it returns the report of the verification, when that
    is on and finds an inconsistency, or else the error of the matcher on
    a document whose identity the bulk lookup did not return. *)
Theorem resolve_missing_lineage (index : Index.t)
    (match_product : document → BadMatch + Product.t) (verify_lineage : bool)
    (main ds : SimpleDocNav.t) (uri : string) :
  dedup_lineage main = inr ds →
  (∀ n, n ∈ traverse_sources (SimpleDocNav.sources ds) → is_Some (SimpleDocNav.id n)) →
  let bulk := Index.bulk_get index (all_uuid ds) in
  let missing := missing_lineage index ds in
  (∀ x, x ∈ missing ↔
        ∃ n k, n ∈ traverse_sources (SimpleDocNav.sources ds) ∧
               SimpleDocNav.id n = Some k ∧ x = Some k ∧
               ∀ e, e ∈ bulk → CatalogEntry.id e ≠ k) ∧
  (missing ≠ [] →
     ∃ names, missing = Some <$> names ∧
       resolve index match_product true verify_lineage main uri
       = Returned (inl (ErrMissingLineage names))) ∧
  ∃ r,
    resolve index match_product false verify_lineage main uri = Returned r ∧
    match r with
    | inr res =>
        (verify_lineage = false ∨ bad_lineage index ds = []) ∧
        (∀ n, n ∈ traverse_datasets ds →
              (∀ e, e ∈ bulk → Some (CatalogEntry.id e) ≠ SimpleDocNav.id n) →
              ∃ p, match_product (SimpleDocNav.doc n) = inr p) ∧
        ∃ σ,
          resolve_lineage uri (SimpleDocNav.id ds) (db_dss index ds) match_product ds
          = (inr res.1, σ) ∧
          store σ = res.2 ∧
          ∀ n k, n ∈ traverse_sources (SimpleDocNav.sources ds) →
            SimpleDocNav.id n = Some k → Some k ∈ missing →
            ∃ a d, cache σ !! Some k = Some a ∧ res.2 !! a = Some d ∧
                   Dataset.metadata_doc d = SimpleDocNav.doc n ∧
                   match_product (SimpleDocNav.doc n) = inr (Dataset.type d) ∧
                   lookups_for σ (Some k) = [MatcherCall (Some k) (SimpleDocNav.doc n)]
    | inl (ErrInconsistentLineage bad) =>
        verify_lineage = true ∧ bad = bad_lineage index ds ∧ bad ≠ []
    | inl (ErrBadMatch e) =>
        (verify_lineage = false ∨ bad_lineage index ds = []) ∧
        ∃ n, n ∈ traverse_datasets ds ∧
             (∀ entry, entry ∈ bulk → Some (CatalogEntry.id entry) ≠ SimpleDocNav.id n) ∧
             match_product (SimpleDocNav.doc n) = inl e
    | inl (ErrInvalidDoc _) | inl (ErrMissingLineage _) => False
    end.
Proof.
  intros Hdedup Hids bulk missing.
  assert (Hmissing : ∀ x, x ∈ missing ↔
        ∃ n k, n ∈ traverse_sources (SimpleDocNav.sources ds) ∧
               SimpleDocNav.id n = Some k ∧ x = Some k ∧
               ∀ e, e ∈ bulk → CatalogEntry.id e ≠ k)
    by (intros x; by apply (elem_of_missing_lineage_bulk index main)).
  split; [done|]. split.
  - intros Hne.
    destruct (all_some missing) as [names Hnames].
    { intros x (n & k & _ & _ & -> & _)%Hmissing. by eexists. }
    exists names. split; [done|].
    assert (Hlen : (0 <? length missing) = true).
    { apply Nat.ltb_lt. destruct missing; [done|simpl; lia]. }
    unfold resolve. rewrite Hdedup. fold missing.
    rewrite Hlen. simpl. rewrite Hnames, join_ids_strings. done.
  - unfold resolve. rewrite Hdedup. rewrite andb_false_r.
    destruct (verify_lineage && (0 <? length (bad_lineage index ds))) eqn:Hverify.
    { eexists. split; [done|]. simpl.
      apply andb_true_iff in Hverify as [-> Hbad]. split; [done|]. split; [done|].
      intros Hnil. by rewrite Hnil in Hbad. }
    assert (Hoff : verify_lineage = false ∨ bad_lineage index ds = []).
    { destruct verify_lineage; [right|by left]. simpl in Hverify.
      apply Nat.ltb_ge in Hverify. destruct (bad_lineage index ds); [done|simpl in *; lia]. }
    pose proof (resolve_lineage_run uri (SimpleDocNav.id ds) (db_dss index ds)
                  match_product ds) as Hrun.
    destruct (resolve_lineage uri (SimpleDocNav.id ds) (db_dss index ds) match_product ds)
      as [[e|root] σ].
    + eexists. split; [done|]. simpl. split; [done|].
      destruct Hrun as (σ0 & n & _ & Hn & _ & Hdb & Hm & _).
      exists n. split; [done|]. split; [|done]. by apply db_get_None.
    + eexists. split; [done|]. simpl. split; [done|].
      destruct Hrun as (Hinv & _ & Hall).
      assert (Hbuilt : ∀ n, n ∈ traverse_datasets ds →
                db_get (db_dss index ds) (SimpleDocNav.id n) = None →
                ∃ a d, cache σ !! SimpleDocNav.id n = Some a ∧ store σ !! a = Some d ∧
                  Dataset.metadata_doc d = SimpleDocNav.doc n ∧
                  match_product (SimpleDocNav.doc n) = inr (Dataset.type d) ∧
                  lookups_for σ (SimpleDocNav.id n)
                  = [MatcherCall (SimpleDocNav.id n) (SimpleDocNav.doc n)]).
      { intros n Hn Hdb. destruct (Hall n Hn) as [a Hc].
        destruct (inv_cached _ _ _ _ _ σ Hinv _ a Hc) as (d & Hd & [Hnode _ Hp]).
        destruct Hnode as (n' & refs & Hn' & Hid' & Hdoc & _).
        assert (n' = n) as -> by by eapply (tree_ids_unique main ds).
        rewrite Hdb, Hdoc in Hp. exists a, d. by destruct Hp. }
      split; [|exists σ; split; [done|]; split; [done|]].
      * intros n Hn Hdb. apply db_get_None in Hdb.
        destruct (Hbuilt n Hn Hdb) as (a & d & _ & _ & _ & Hm & _). eauto.
      * intros n k Hn Hk Hmiss.
        apply elem_of_missing_lineage in Hmiss as (_ & _ & Hdb).
        assert (Hin : n ∈ traverse_datasets ds)
          by (rewrite traverse_datasets_unfold, elem_of_app; by left).
        rewrite <- Hk in Hdb. destruct (Hbuilt n Hin Hdb) as (a & d & Hbuilt').
        rewrite Hk in Hbuilt'. by exists a, d.
Qed.

(** The scene with the shared ancestor against an empty catalogue: its
    three ancestors are missing; with the flag set they are named in the
    error, and with the flag unset each has its object, built from its
    document by one call of the matcher. *)
Lemma resolve_missing_lineage_witness :
  missing_lineage Examples.empty_catalogue Examples.shared_ancestor
  = [Some "b"; Some "m"; Some "n"] ∧
  resolve Examples.empty_catalogue (multi_product_matcher Examples.rules) true true
    Examples.shared_ancestor "file:///a"
  = Returned (inl (ErrMissingLineage ["b"; "m"; "n"])) ∧
  ∃ res σ,
    resolve Examples.empty_catalogue (multi_product_matcher Examples.rules) false true
      Examples.shared_ancestor "file:///a" = Returned (inr res) ∧
    store σ = res.2 ∧
    ∀ n k, n ∈ traverse_sources (SimpleDocNav.sources Examples.shared_ancestor) →
      SimpleDocNav.id n = Some k →
      ∃ a d, cache σ !! Some k = Some a ∧ res.2 !! a = Some d ∧
             Dataset.metadata_doc d = SimpleDocNav.doc n ∧
             multi_product_matcher Examples.rules (SimpleDocNav.doc n)
             = inr (Dataset.type d) ∧
             lookups_for σ (Some k) = [MatcherCall (Some k) (SimpleDocNav.doc n)].
Proof.
  destruct (resolve_missing_lineage Examples.empty_catalogue
              (multi_product_matcher Examples.rules) true
              Examples.shared_ancestor Examples.shared_ancestor "file:///a")
    as (Hmiss & Hfail & r & Hr & Hcase); [by vm_compute| |].
  { intros n Hn. vm_compute in Hn.
    repeat (apply elem_of_cons in Hn as [->|Hn]; [by eexists|]).
    by apply elem_of_nil in Hn. }
  split; [by vm_compute|]. split.
  - destruct Hfail as (names & Hnames & Hres); [by vm_compute|].
    rewrite Hres. do 3 f_equal.
    assert (Some <$> names = Some <$> ["b"; "m"; "n"]) as Heq
      by (rewrite <- Hnames; by vm_compute).
    revert Heq. apply (inj (fmap Some)).
  - destruct r as [err|res]; [by vm_compute in Hr|].
    destruct Hcase as (_ & _ & σ & _ & Hstore & Hanc).
    exists res, σ. split; [by rewrite Hr|]. split; [done|].
    intros n k Hn Hk. apply (Hanc n k Hn Hk). apply Hmiss.
    exists n, k. repeat split; try done. intros e He. by vm_compute in He; apply elem_of_nil in He.
Defined.

(** C2 fails as stated.  With the flag unset and the ancestor [b] missing
    from the catalogue, resolution does not succeed when no product matches
    [b]: the matcher's error is returned.  With the flag set and [b]
    missing, a conflict between two copies of [b] is reported instead of the
    missing lineage, and a missing ancestor without identity ends in a
    [TypeError] rather than a returned error. *)
Lemma resolve_missing_lineage_not_always :
  match dataset_resolver Examples.empty_catalogue Examples.rules false true false with
  | Returned ds_resolve =>
      missing_lineage Examples.empty_catalogue Examples.unknown_source = [Some "b"] ∧
      ds_resolve Examples.unknown_source "file:///a"
      = Returned (inl (ErrBadMatch (NoMatchingProduct (VStr "b"))))
  | Raised _ => False
  end ∧
  match dataset_resolver Examples.empty_catalogue Examples.rules true true false with
  | Returned ds_resolve =>
      ds_resolve Examples.conflicting_sources "file:///a"
      = Returned (inl (ErrInvalidDoc (InconsistentMetadata "b"))) ∧
      ds_resolve Examples.anonymous_source "file:///a"
      = Raised (TypeError "sequence item: expected str instance, NoneType found")
  | Raised _ => False
  end.
Proof. by vm_compute. Qed.

(* ===================================================================== *)
(** * Part III. Properties of the rest of the commands                   *)
(* ===================================================================== *)

(** ** More on the signature matcher *)

Lemma filter_contains_elem doc rules r :
  r ∈ List.filter (λ r, contains (VDict doc) (VDict (rule.signature r))) rules ↔
  r ∈ rules ∧ contains (VDict doc) (VDict (rule.signature r)) = true.
Proof.
  apply (elem_of_filter_bool (λ r, contains (VDict doc) (VDict (rule.signature r))) rules r).
Qed.

Lemma list_filter_sublist {A} (f : A → bool) (l : list A) : sublist (List.filter f l) l.
Proof.
  induction l as [|x l IH]; simpl; [constructor|].
  destruct (f x); [by apply sublist_skip|by apply sublist_cons].
Qed.

(** X1.  Whatever the (non-empty) rule list, a product returned by the
    matcher is the product of one of the rules, and the document contains
    that rule's signature; building a matcher fails, on the assertion,
    exactly for the empty rule list. *)
Theorem product_matcher_sound (rules : list rule.t)
    (match_product : document → BadMatch + Product.t) (doc : document) (p : Product.t) :
  product_matcher rules = Returned match_product →
  match_product doc = inr p →
  rules ≠ [] ∧
  (product_matcher [] = Raised AssertionError) ∧
  ∃ r, r ∈ rules ∧ rule.product r = p ∧
       contains (VDict doc) (VDict (rule.signature r)) = true.
Proof.
  intros Hpm Hdoc. destruct rules as [|r1 [|r2 rest]]; [done| |].
  - injection Hpm as <-. split; [done|]. split; [done|].
    unfold single_product_matcher, matches in Hdoc.
    destruct (contains _ _) eqn:Hc; [|done]. injection Hdoc as <-.
    exists r1. split; [apply list_elem_of_here|done].
  - injection Hpm as <-. split; [done|]. split; [done|].
    unfold multi_product_matcher in Hdoc.
    destruct (List.filter _ (r1 :: r2 :: rest)) as [|r [|r' l]] eqn:Hf; simpl in Hdoc; try done.
    injection Hdoc as <-. exists r.
    assert (Hr : r ∈ List.filter (λ r, contains (VDict doc) (VDict (rule.signature r)))
                   (r1 :: r2 :: rest)) by (rewrite Hf; apply list_elem_of_here).
    apply filter_contains_elem in Hr as [? ?]. done.
Qed.

Lemma product_matcher_sound_witness :
  [rule.Mk Examples.landsat (Product.metadata_doc Examples.landsat)] ≠ [] ∧
  (product_matcher [] = Raised AssertionError) ∧
  ∃ r, r ∈ [rule.Mk Examples.landsat (Product.metadata_doc Examples.landsat)] ∧
       rule.product r = Examples.landsat ∧
       contains (VDict [("id", VStr "a"); ("platform", VStr "LANDSAT_8")])
         (VDict (rule.signature r)) = true.
Proof.
  apply (product_matcher_sound
           [rule.Mk Examples.landsat (Product.metadata_doc Examples.landsat)]
           (single_product_matcher
              (rule.Mk Examples.landsat (Product.metadata_doc Examples.landsat)))
           [("id", VStr "a"); ("platform", VStr "LANDSAT_8")] Examples.landsat);
    reflexivity.
Defined.

(** X2.  With a single rule the matcher returns the rule's product exactly
    when the document contains the signature.  Otherwise it raises the
    mismatch error, which carries the signature and, of the document, the
    fields whose key occurs in the signature and only those, in the
    document's order. *)
Theorem single_rule_matcher_report (r : rule.t) (doc : document) :
  ∃ match_product,
    product_matcher [r] = Returned match_product ∧
    (match_product doc = inr (rule.product r) ↔
     contains (VDict doc) (VDict (rule.signature r)) = true) ∧
    (contains (VDict doc) (VDict (rule.signature r)) = false →
     ∃ relevant_doc,
       match_product doc = inl (SignatureMismatch relevant_doc (rule.signature r)) ∧
       sublist relevant_doc doc ∧
       ∀ kv, kv ∈ relevant_doc ↔
             kv ∈ doc ∧ is_Some (dict_get kv.1 (rule.signature r))).
Proof.
  exists (single_product_matcher r). split; [done|].
  unfold single_product_matcher, matches.
  destruct (contains (VDict doc) (VDict (rule.signature r))) eqn:Hc.
  - split; [done|]. done.
  - split; [split; done|]. intros _. eexists. split; [done|]. split.
    + apply list_filter_sublist.
    + intros kv. rewrite elem_of_filter_bool. unfold dict_has.
      destruct (dict_get kv.1 (rule.signature r)); split; intros [? ?]; split; eauto;
        done.
Qed.

Lemma list_filter_Permutation {A} (f : A → bool) (l l' : list A) :
  l ≡ₚ l' → List.filter f l ≡ₚ List.filter f l'.
Proof.
  induction 1 as [|x l l' _ IH|x y l|l l' l'' _ IH1 _ IH2]; simpl.
  - done.
  - destruct (f x); by rewrite IH.
  - destruct (f x), (f y); try done. apply perm_swap.
  - by etrans.
Qed.

Lemma multi_product_matcher_Permutation rules rules' doc :
  rules ≡ₚ rules' →
  (∀ p, multi_product_matcher rules doc = inr p → multi_product_matcher rules' doc = inr p) ∧
  (∀ i, multi_product_matcher rules doc = inl (NoMatchingProduct i) →
        multi_product_matcher rules' doc = inl (NoMatchingProduct i)).
Proof.
  intros Hperm.
  pose proof (list_filter_Permutation
                (λ r, contains (VDict doc) (VDict (rule.signature r))) _ _ Hperm) as Hf.
  unfold multi_product_matcher.
  destruct (List.filter _ rules) as [|r [|r' l]] eqn:Hl.
  - apply Permutation_nil_l in Hf as <-. done.
  - apply Permutation_singleton_l in Hf as <-. done.
  - split; [done|]. simpl. done.
Qed.

(** X3.  The order of the rules does not matter to what the matcher
    finds: after any reordering of the rule list it returns the same product
    for a document, and reports that no product matches for the same
    documents. *)
Theorem product_matcher_rule_order (rules rules' : list rule.t)
    (match_product match_product' : document → BadMatch + Product.t) (doc : document) :
  rules ≡ₚ rules' →
  product_matcher rules = Returned match_product →
  product_matcher rules' = Returned match_product' →
  (∀ p, match_product doc = inr p ↔ match_product' doc = inr p) ∧
  (∀ i, match_product doc = inl (NoMatchingProduct i) ↔
        match_product' doc = inl (NoMatchingProduct i)).
Proof.
  intros Hperm Hm Hm'.
  pose proof (Permutation_length Hperm) as Hlen.
  destruct rules as [|r1 [|r2 rest]]; [done| |].
  - apply Permutation_singleton_l in Hperm as <-.
    rewrite Hm in Hm'. by injection Hm' as <-.
  - destruct rules' as [|r1' [|r2' rest']]; simpl in Hlen; try lia.
    injection Hm as <-. injection Hm' as <-.
    destruct (multi_product_matcher_Permutation _ _ doc Hperm) as [Hp Hn].
    symmetry in Hperm.
    destruct (multi_product_matcher_Permutation _ _ doc Hperm) as [Hp' Hn'].
    split; intros; split; auto.
Qed.

Lemma product_matcher_rule_order_witness :
  (∀ p, multi_product_matcher Examples.rules
          [("id", VStr "a"); ("platform", VStr "LANDSAT_8")] = inr p ↔
        multi_product_matcher (reverse Examples.rules)
          [("id", VStr "a"); ("platform", VStr "LANDSAT_8")] = inr p) ∧
  (∀ i, multi_product_matcher Examples.rules
          [("id", VStr "a"); ("platform", VStr "LANDSAT_8")] = inl (NoMatchingProduct i) ↔
        multi_product_matcher (reverse Examples.rules)
          [("id", VStr "a"); ("platform", VStr "LANDSAT_8")] = inl (NoMatchingProduct i)).
Proof.
  apply (product_matcher_rule_order Examples.rules (reverse Examples.rules)).
  - symmetry. apply reverse_Permutation.
  - reflexivity.
  - reflexivity.
Defined.

(** ** Rules from the product catalogue *)

Lemma named_products_found products names ps :
  named_products products names = inr ps →
  Forall2 (λ name p, Products.get_by_name products name = Some p) names ps.
Proof.
  revert ps. induction names as [|name names IH]; intros ps; simpl.
  - intros [= <-]. constructor.
  - destruct (Products.get_by_name products name) as [p|] eqn:Hp; [|done].
    destruct (named_products products names) as [?|found]; [done|].
    intros [= <-]. constructor; [done|]. by apply IH.
Qed.

Lemma named_products_missing products names name :
  named_products products names = inl name →
  name ∈ names ∧ Products.get_by_name products name = None.
Proof.
  induction names as [|name' names IH]; simpl; [done|].
  destruct (Products.get_by_name products name') as [p|] eqn:Hp.
  - destruct (named_products products names) as [missing|found]; [|done].
    intros [= <-]. destruct IH as [? ?]; [done|]. split; [by apply list_elem_of_further|done].
  - intros [= <-]. split; [apply list_elem_of_here|done].
Qed.

Lemma rules_signature (ps : list Product.t) r :
  r ∈ map (λ p, rule.Mk p (Product.metadata_doc p)) ps →
  rule.signature r = Product.metadata_doc (rule.product r).
Proof. intros Hr. apply list_elem_of_In, in_map_iff in Hr as (q & <- & _). done. Qed.

(** X4.  When [load_rules_from_types] returns rules it has logged
    nothing, the list is not empty (so a matcher can be built from it: the
    assertion of [product_matcher] holds), every rule's signature is the
    metadata document of its product, and the products are those the
    catalogue gives for the names, in the order of the names, or all
    products when no name was given.  It returns [None] only after logging
    the one reason: a name the catalogue does not know, or no product at
    all. *)
Theorem load_rules_from_types_result (products : Products.t) (product_names : list string) :
  match load_rules_from_types products product_names with
  | (Some rules, log) =>
      log = [] ∧ rules ≠ [] ∧
      (∃ match_product, product_matcher rules = Returned match_product) ∧
      (∀ r, r ∈ rules → rule.signature r = Product.metadata_doc (rule.product r)) ∧
      (product_names = [] → map rule.product rules = Products.get_all products) ∧
      (product_names ≠ [] →
       Forall2 (λ name r, Products.get_by_name products name = Some (rule.product r))
         product_names rules)
  | (None, log) =>
      (∃ name, name ∈ product_names ∧ Products.get_by_name products name = None ∧
               log = [ProductNotPresent name]) ∨
      (product_names = [] ∧ Products.get_all products = [] ∧ log = [NoProducts])
  end.
Proof.
  unfold load_rules_from_types.
  destruct product_names as [|name names].
  - change (0 <? length (@nil string)) with false. cbv iota.
    destruct (Products.get_all products) as [|p ps] eqn:Hall.
    + right. done.
    + change (length (p :: ps) =? 0) with false. cbv iota.
      split; [done|]. split; [done|]. split; [destruct ps; simpl; eauto|].
      split; [apply rules_signature|].
      split; [|done]. intros _. rewrite map_map. simpl. f_equal. apply map_id.
  - change (0 <? length (name :: names)) with true. cbv iota.
    destruct (named_products products (name :: names)) as [missing|ps] eqn:Hnamed.
    + left. apply named_products_missing in Hnamed as [? ?]. eauto.
    + pose proof (named_products_found _ _ _ Hnamed) as Hfound.
      destruct ps as [|p ps]; [by inversion Hfound|].
      change (length (p :: ps) =? 0) with false. cbv iota.
      split; [done|]. split; [done|]. split; [destruct ps; simpl; eauto|].
      split; [apply rules_signature|].
      split; [done|]. intros _.
      apply Forall2_fmap_r. eapply Forall2_impl; [exact Hfound|]. done.
Qed.

Lemma filter_two_hits {A} (f : A → bool) (l1 l2 l3 : list A) x y :
  f x = true → f y = true → 2 ≤ length (List.filter f (l1 ++ x :: l2 ++ y :: l3)).
Proof.
  intros Hx Hy. rewrite List.filter_app, length_app. simpl. rewrite Hx. simpl.
  rewrite List.filter_app, length_app. simpl. rewrite Hy. simpl. lia.
Qed.

(** X5.  Naming the same product twice on the command line makes it
    unmatchable: the rule list then holds its rule twice, and every document
    that contains the product's signature is reported as matching several
    products, this one among them. *)
Theorem repeated_product_name_is_ambiguous (products : Products.t)
    (before between after : list string) (name : string) (p : Product.t)
    (rules : list rule.t) (match_product : document → BadMatch + Product.t)
    (doc : document) :
  load_rules_from_types products (before ++ name :: between ++ name :: after)
  = (Some rules, []) →
  product_matcher rules = Returned match_product →
  Products.get_by_name products name = Some p →
  contains (VDict doc) (VDict (Product.metadata_doc p)) = true →
  ∃ doc_id names, match_product doc = inl (SeveralProducts doc_id names) ∧
                  Product.name p ∈ names.
Proof.
  intros Hload Hm Hp Hc. unfold load_rules_from_types in Hload.
  replace (0 <? length (before ++ name :: between ++ name :: after)) with true in Hload
    by (rewrite length_app; simpl; symmetry; apply Nat.ltb_lt; lia).
  destruct (named_products products _) as [?|ps] eqn:Hnamed; [done|].
  apply named_products_found in Hnamed.
  apply Forall2_app_inv_l in Hnamed as (ps1 & psa & _ & Hrest & ->).
  apply Forall2_cons_inv_l in Hrest as (p1 & psb & Hp1 & Hrest & ->).
  apply Forall2_app_inv_l in Hrest as (ps2 & psc & _ & Hrest & ->).
  apply Forall2_cons_inv_l in Hrest as (p2 & ps3 & Hp2 & _ & ->).
  assert (p1 = p) as -> by congruence. assert (p2 = p) as -> by congruence.
  destruct (length (ps1 ++ p :: ps2 ++ p :: ps3) =? 0); [done|].
  injection Hload as <-.
  set (mk := λ p, rule.Mk p (Product.metadata_doc p)) in *.
  set (f := λ r, contains (VDict doc) (VDict (rule.signature r))).
  assert (Hrules : map mk (ps1 ++ p :: ps2 ++ p :: ps3)
                   = map mk ps1 ++ mk p :: map mk ps2 ++ mk p :: map mk ps3).
  { rewrite map_app. simpl. by rewrite map_app. }
  rewrite Hrules in *.
  assert (Hhits : 2 ≤ length (List.filter f
                    (map mk ps1 ++ mk p :: map mk ps2 ++ mk p :: map mk ps3)))
    by (by apply filter_two_hits).
  assert (Hin : mk p ∈ List.filter f
                  (map mk ps1 ++ mk p :: map mk ps2 ++ mk p :: map mk ps3)).
  { apply elem_of_filter_bool. split; [|done].
    apply elem_of_app. right. apply list_elem_of_here. }
  assert (Hlen : 2 ≤ length (map mk ps1 ++ mk p :: map mk ps2 ++ mk p :: map mk ps3)).
  { rewrite length_app. simpl. rewrite length_app. simpl. lia. }
  destruct (map mk ps1 ++ mk p :: map mk ps2 ++ mk p :: map mk ps3)
    as [|r1 [|r2 rest]] eqn:Hshape; simpl in Hlen; try lia.
  injection Hm as <-. rewrite multi_product_matcher_several by done.
  eexists _, _. split; [done|].
  apply list_elem_of_In, in_map_iff. exists p. split; [done|].
  apply in_map_iff. exists (mk p). split; [done|]. by apply list_elem_of_In.
Qed.

(** ** The shape of the resolved graph *)

Section OrderFacts.
Variable uri : string.
Variable main_uuid : option string.
Variable db : gmap string CatalogEntry.t.
Variable match_product : document → BadMatch + Product.t.

Lemma store_ordered_init : store_ordered resolver_init.
Proof.
  split; simpl.
  - intros k a Hk. by rewrite lookup_empty in Hk.
  - intros a d refs ref Ha. by rewrite lookup_nil in Ha.
  - by rewrite map_size_empty.
Qed.

Lemma store_ordered_extend σ k d :
  store_ordered σ → cache σ !! k = None →
  (∀ refs ref, Dataset.sources d = Some refs → ref ∈ refs → ref.2 < length (store σ)) →
  ∀ l, store_ordered {| store := store σ ++ [d];
                        cache := <[k := length (store σ)]> (cache σ);
                        lookups := l |}.
Proof.
  intros [Hc Hr Hs] Hk Hd l. split; simpl.
  - intros k' a. rewrite length_app. simpl. destruct (decide (k = k')) as [<-|Hne].
    + rewrite lookup_insert_eq. intros [= <-]. lia.
    + rewrite lookup_insert_ne by done. intros Ha. apply Hc in Ha. lia.
  - intros a d' refs ref Ha Hsrc Href.
    apply lookup_app_Some in Ha as [Ha|[Hlen Ha]].
    + by eapply Hr.
    + apply list_lookup_singleton_Some in Ha as [Ha <-].
      specialize (Hd refs ref Hsrc Href). lia.
  - rewrite map_size_insert_None by done. rewrite length_app. simpl. lia.
Qed.

Lemma resolve_ds_ordered ds refs σ :
  store_ordered σ → Forall (λ ref, ref.2 < length (store σ)) refs →
  match resolve_ds uri main_uuid db match_product ds refs σ with
  | (inr a, σ') =>
      store_ordered σ' ∧ a < length (store σ') ∧ length (store σ) ≤ length (store σ')
  | (inl e, σ') => True
  end.
Proof.
  intros Hord Hrefs. unfold resolve_ds. rewrite stateful_bind_run. unfold gets at 1.
  assert (Hd : ∀ p uris refs' ref,
            Dataset.sources (Dataset.Mk p (SimpleDocNav.doc ds) uris (Some refs)) = Some refs' →
            ref ∈ refs' → ref.2 < length (store σ)).
  { intros p uris refs' ref [= <-] Href. by eapply (proj1 (Forall_forall _ _) Hrefs). }
  destruct (cache σ !! SimpleDocNav.id ds) as [a|] eqn:Hc.
  - simpl. split; [done|]. split; [|done]. by eapply ord_cache.
  - destruct (db_get db (SimpleDocNav.id ds)) as [e|] eqn:Hdb.
    + simpl. split; [eapply store_ordered_extend; eauto|].
      rewrite length_app. simpl. lia.
    + destruct (match_product (SimpleDocNav.doc ds)) as [e|p] eqn:Hm; simpl; [done|].
      split; [eapply store_ordered_extend; eauto|].
      rewrite length_app. simpl. lia.
Qed.

Lemma remap_sources_ordered (srcs : list (string * SimpleDocNav.t)) :
  Forall (λ kc, ∀ σ, store_ordered σ →
    match remap_lineage_doc (resolve_ds uri main_uuid db match_product) kc.2 σ with
    | (inr a, σ') =>
        store_ordered σ' ∧ a < length (store σ') ∧ length (store σ) ≤ length (store σ')
    | (inl e, σ') => True
    end) srcs →
  ∀ σ, store_ordered σ →
    match remap_sources (resolve_ds uri main_uuid db match_product) srcs σ with
    | (inr refs, σ') =>
        store_ordered σ' ∧ Forall (λ ref, ref.2 < length (store σ')) refs ∧
        length (store σ) ≤ length (store σ')
    | (inl e, σ') => True
    end.
Proof.
  induction 1 as [|[k c] srcs Hc _ IHs]; intros σ Hord.
  - simpl. split; [done|]. split; [constructor|done].
  - simpl remap_sources. rewrite stateful_bind_run. simpl in Hc. specialize (Hc σ Hord).
    destruct (remap_lineage_doc _ c σ) as [[e|a] σ1]; [done|].
    destruct Hc as (Hord1 & Ha & Hle1). rewrite stateful_bind_run.
    specialize (IHs σ1 Hord1).
    destruct (remap_sources _ srcs σ1) as [[e|refs] σ2]; [done|].
    destruct IHs as (Hord2 & Hrefs & Hle2). simpl.
    split; [done|]. split; [|lia]. constructor; [simpl; lia|done].
Qed.

Lemma remap_resolve_ds_ordered (t : SimpleDocNav.t) : ∀ σ,
  store_ordered σ →
  match remap_lineage_doc (resolve_ds uri main_uuid db match_product) t σ with
  | (inr a, σ') =>
      store_ordered σ' ∧ a < length (store σ') ∧ length (store σ) ≤ length (store σ')
  | (inl e, σ') => True
  end.
Proof.
  induction t as [i d b srcs IH] using nav_nested_ind. intros σ Hord.
  rewrite remap_lineage_doc_unfold, stateful_bind_run. simpl SimpleDocNav.sources.
  pose proof (remap_sources_ordered srcs IH σ Hord) as Hsrcs.
  destruct (remap_sources _ srcs σ) as [[e|refs] σ1]; [done|].
  destruct Hsrcs as (Hord1 & Hrefs & Hle1).
  pose proof (resolve_ds_ordered (SimpleDocNav.Nav i d b srcs) refs σ1 Hord1 Hrefs) as Hstep.
  destruct (resolve_ds _ _ _ _ (SimpleDocNav.Nav i d b srcs) refs σ1) as [[e|a] σ2]; [done|].
  destruct Hstep as (Hord2 & Ha & Hle2). split; [done|]. split; [done|lia].
Qed.
End OrderFacts.

(** X6.  A successful resolution builds exactly one object per distinct
    identity of the document tree, and every lineage reference of an object
    points to an object built before it: the resolved graph has no cycle
    and no dangling reference, whatever the tree. *)
Theorem resolved_graph_shape (uri : string) (main_uuid : option string)
    (db : gmap string CatalogEntry.t) (match_product : document → BadMatch + Product.t)
    (main : SimpleDocNav.t) (root : loc) (σ : resolver_state) :
  resolve_lineage uri main_uuid db match_product main = (inr root, σ) →
  root < length (store σ) ∧
  (∀ a d refs ref,
     store σ !! a = Some d → Dataset.sources d = Some refs → ref ∈ refs → ref.2 < a) ∧
  length (store σ)
  = size (list_to_set (SimpleDocNav.id <$> traverse_datasets main) : gset (option string)).
Proof.
  intros Hrun.
  pose proof (remap_resolve_ds_ordered uri main_uuid db match_product main
                resolver_init store_ordered_init) as Hord.
  pose proof (resolve_lineage_run uri main_uuid db match_product main) as Hinv.
  unfold resolve_lineage in *. rewrite Hrun in Hord, Hinv.
  destruct Hord as ([Hc Hr Hs] & Hroot & _). destruct Hinv as (Hinv & _ & Hall).
  split; [done|]. split; [done|].
  rewrite <- Hs, <- size_dom. f_equal. apply set_eq. intros k.
  rewrite elem_of_dom, elem_of_list_to_set, list_elem_of_fmap. split.
  - intros [a Ha].
    destruct (inv_cached _ _ _ _ _ σ Hinv k a Ha) as (d & _ & [Hnode _ _]).
    destruct Hnode as (n & refs & Hn & <- & _). eauto.
  - intros (n & -> & Hn). by apply Hall.
Qed.

Lemma resolved_graph_shape_witness :
  3 < length (store Examples.shared_run.2) ∧
  (∀ a d refs ref,
     store Examples.shared_run.2 !! a = Some d → Dataset.sources d = Some refs →
     ref ∈ refs → ref.2 < a) ∧
  length (store Examples.shared_run.2)
  = size (list_to_set (SimpleDocNav.id <$> traverse_datasets Examples.shared_ancestor)
          : gset (option string)).
Proof.
  apply (resolved_graph_shape "file:///a" (Some "a") ∅
           (multi_product_matcher Examples.rules) Examples.shared_ancestor 3
           Examples.shared_run.2).
  by vm_compute.
Defined.

(** ** Lineage verification *)

Lemma elem_of_lineage_uuids (ds : SimpleDocNav.t) x :
  x ∈ lineage_uuids ds ↔
  (∃ n, n ∈ traverse_datasets ds ∧ SimpleDocNav.id n = x) ∧ x ≠ SimpleDocNav.id ds.
Proof.
  unfold lineage_uuids.
  rewrite elem_of_filter_bool, elem_of_all_uuid, negb_true_iff.
  rewrite <- not_true_iff_false, id_eqb_eq. tauto.
Qed.

Lemma get_list_values (N : SimpleDocNav.t → Prop) (n : SimpleDocNav.t) out :
  N n →
  Forall (λ kv, Forall (λ v, SimpleDocNav.id v = kv.1 ∧ N v) kv.2) out →
  Forall (λ kv, Forall (λ v, SimpleDocNav.id v = kv.1 ∧ N v) kv.2)
    (get_list (SimpleDocNav.id n) n out).
Proof.
  intros Hn. induction 1 as [|[k' vs] out Hvs Hout IH]; simpl.
  - by repeat constructor.
  - destruct (id_eqb (SimpleDocNav.id n) k') eqn:Heq; constructor; simpl in *; try done.
    apply id_eqb_eq in Heq. apply Forall_app. split; [done|]. by repeat constructor.
Qed.

Lemma flatten_fold_values (N : SimpleDocNav.t → Prop) (l : list SimpleDocNav.t) : ∀ out,
  (∀ n, n ∈ l → N n) →
  Forall (λ kv, Forall (λ v, SimpleDocNav.id v = kv.1 ∧ N v) kv.2) out →
  Forall (λ kv, Forall (λ v, SimpleDocNav.id v = kv.1 ∧ N v) kv.2)
    (foldl (λ out n, get_list (SimpleDocNav.id n) n out) out l).
Proof.
  induction l as [|n l IH]; intros out Hl Hout; [done|]. simpl.
  apply IH; [intros n' Hn'; by apply Hl, list_elem_of_further|].
  apply get_list_values; [apply Hl, list_elem_of_here|done].
Qed.

Lemma ids_get_Some {A} k (d : list (option string * A)) v :
  ids_get k d = Some v → (k, v) ∈ d.
Proof.
  induction d as [|[k' v'] d IH]; simpl; [done|].
  destruct (id_eqb k k') eqn:Heq.
  - apply id_eqb_eq in Heq as ->. intros [= ->]. apply list_elem_of_here.
  - intros Hv. by apply list_elem_of_further, IH.
Qed.

Lemma ids_get_None {A} k (d : list (option string * A)) :
  ids_get k d = None → k ∉ d.*1.
Proof.
  induction d as [|[k' v'] d IH]; simpl; [by intros _ ?%elem_of_nil|].
  destruct (id_eqb k k') eqn:Heq; [done|].
  intros Hd [->|Hin]%elem_of_cons; [by rewrite id_eqb_refl in Heq|by apply IH].
Qed.

(** The document [ds_by_uuid] holds for an identity is a document of
    the tree with that identity, and it holds one for every identity of
    the tree. *)
Lemma ds_by_uuid_Some (ds : SimpleDocNav.t) k n0 :
  ids_get k (ds_by_uuid ds) = Some n0 →
  n0 ∈ traverse_datasets ds ∧ SimpleDocNav.id n0 = k.
Proof.
  intros Hget%ids_get_Some. unfold ds_by_uuid, valmap_first, flatten_datasets in Hget.
  apply list_elem_of_omap in Hget as ([k' vs] & Hin & Hfirst).
  destruct vs as [|v vs]; [done|]. simpl in Hfirst. injection Hfirst as -> ->.
  pose proof (flatten_fold_values (λ n, n ∈ traverse_datasets ds)
                (traverse_datasets ds) [] (λ n Hn, Hn) (Forall_nil_2 _)) as Hall.
  rewrite Forall_forall in Hall. specialize (Hall _ Hin). simpl in Hall.
  apply Forall_cons in Hall as [[? ?] _]. done.
Qed.

Lemma ds_by_uuid_is_Some (ds n : SimpleDocNav.t) :
  n ∈ traverse_datasets ds → is_Some (ids_get (SimpleDocNav.id n) (ds_by_uuid ds)).
Proof.
  intros Hn. destruct (ids_get _ _) as [n0|] eqn:Hget; [by eexists|].
  apply ids_get_None in Hget. destruct Hget.
  apply (elem_of_all_uuid ds). eauto.
Qed.

(** An inconsistency of the lineage of [ds] with the catalogue: the
    identity [s] of a document of the tree, other than the root's, for
    which the bulk lookup returned an entry whose document differs. *)
Lemma elem_of_bad_lineage index main (ds : SimpleDocNav.t) s err :
  dedup_lineage main = inr ds →
  (s, err) ∈ bad_lineage index ds ↔
  ∃ n e,
    n ∈ traverse_datasets ds ∧ SimpleDocNav.id n = Some s ∧
    Some s ≠ SimpleDocNav.id ds ∧
    last (filter (λ e, CatalogEntry.id e = s) (Index.bulk_get index (all_uuid ds)))
    = Some e ∧
    check_consistent (SimpleDocNav.doc_without_lineage_sources n)
      (CatalogEntry.metadata_doc e) = (false, err).
Proof.
  intros Hdedup. unfold bad_lineage. rewrite list_elem_of_In, in_flat_map. split.
  - intros (uuid & Huuid & Hin).
    apply list_elem_of_In, elem_of_lineage_uuids in Huuid as [Hnode Hneq].
    destruct uuid as [s'|]; [|done].
    destruct (db_dss index ds !! s') as [db_ds|] eqn:Hdb; [|done].
    destruct (ids_get (Some s') (ds_by_uuid ds)) as [n0|] eqn:Hn0; [|done].
    destruct (check_consistent _ _) as [ok err'] eqn:Hchk.
    destruct ok; simpl in Hin; [done|]. destruct Hin as [[= -> ->]|[]].
    apply ds_by_uuid_Some in Hn0 as [Hn0 Hid].
    exists n0, db_ds. repeat split; try done.
    unfold db_dss in Hdb. by rewrite by_id_lookup in Hdb.
  - intros (n & e & Hn & Hid & Hneq & He & Hchk).
    exists (Some s). split.
    + apply list_elem_of_In, elem_of_lineage_uuids. eauto.
    + unfold db_dss. rewrite by_id_lookup, He.
      destruct (ds_by_uuid_is_Some ds n Hn) as [n0 Hn0]. rewrite Hid in Hn0.
      rewrite Hn0. apply ds_by_uuid_Some in Hn0 as [Hn0 Hid0].
      assert (n0 = n) as -> by by eapply dedup_lineage_shared.
      rewrite Hchk. simpl. by left.
Qed.

(** X7.  Lineage verification compares only lineage documents the
    catalogue already holds, never the root document, even one that is
    indexed already.  An inconsistency is an identity of a document of the
    deduplicated tree, other than the root's, for which the bulk lookup
    returned an entry (the last one counts) whose document fails
    [check_consistent] against the document of the tree, lineage sources
    apart.  When resolution returns an inconsistency report, verification
    is on and the report lists exactly the inconsistencies, and there is at
    least one; and with verification on, any inconsistency makes
    resolution return such a report, unless missing lineage has aborted it
    first. *)
Theorem lineage_verification (index : Index.t)
    (match_product : document → BadMatch + Product.t)
    (fail_on_missing_lineage verify_lineage : bool)
    (main ds : SimpleDocNav.t) (uri : string) :
  dedup_lineage main = inr ds →
  let inconsistent s err :=
    ∃ n e,
      n ∈ traverse_datasets ds ∧ SimpleDocNav.id n = Some s ∧
      Some s ≠ SimpleDocNav.id ds ∧
      last (filter (λ e, CatalogEntry.id e = s) (Index.bulk_get index (all_uuid ds)))
      = Some e ∧
      check_consistent (SimpleDocNav.doc_without_lineage_sources n)
        (CatalogEntry.metadata_doc e) = (false, err) in
  (∀ bad,
     resolve index match_product fail_on_missing_lineage verify_lineage main uri
     = Returned (inl (ErrInconsistentLineage bad)) →
     verify_lineage = true ∧ bad ≠ [] ∧
     ∀ s err, (s, err) ∈ bad ↔ inconsistent s err) ∧
  (∀ s err,
     inconsistent s err →
     verify_lineage = true →
     fail_on_missing_lineage = false ∨ missing_lineage index ds = [] →
     ∃ bad,
       resolve index match_product fail_on_missing_lineage verify_lineage main uri
       = Returned (inl (ErrInconsistentLineage bad)) ∧
       (s, err) ∈ bad).
Proof.
  intros Hdedup inconsistent. split.
  - intros bad. unfold resolve. rewrite Hdedup.
    destruct ((0 <? length (missing_lineage index ds)) && fail_on_missing_lineage).
    { by destruct (join_ids (missing_lineage index ds)). }
    destruct (verify_lineage && (0 <? length (bad_lineage index ds))) eqn:Hverify.
    + intros [= <-]. apply andb_true_iff in Hverify as [-> Hbad].
      split; [done|]. split.
      * intros Hnil. by rewrite Hnil in Hbad.
      * intros s err. by apply (elem_of_bad_lineage index main).
    + by destruct (resolve_lineage _ _ _ _ _) as [[e|root] σ].
  - intros s err Hbad -> Hmiss.
    apply (elem_of_bad_lineage index main ds s err Hdedup) in Hbad.
    exists (bad_lineage index ds). split; [|done].
    unfold resolve. rewrite Hdedup.
    replace ((0 <? length (missing_lineage index ds)) && fail_on_missing_lineage)
      with false by (destruct Hmiss as [->| ->]; [by rewrite andb_false_r|done]).
    destruct (bad_lineage index ds) as [|b l]; [by apply elem_of_nil in Hbad|done].
Qed.

(** The scene whose source [b] the catalogue holds with another platform:
    the report names [b], and nothing else. *)
Lemma lineage_verification_witness :
  ∃ bad,
    resolve Examples.knows_b (multi_product_matcher Examples.rules) true true
      Examples.unknown_source "file:///a"
    = Returned (inl (ErrInconsistentLineage bad)) ∧
    bad.*1 = ["b"] ∧
    ∀ s err, (s, err) ∈ bad ↔
      ∃ n e,
        n ∈ traverse_datasets Examples.unknown_source ∧ SimpleDocNav.id n = Some s ∧
        Some s ≠ SimpleDocNav.id Examples.unknown_source ∧
        last (filter (λ e, CatalogEntry.id e = s)
                (Index.bulk_get Examples.knows_b (all_uuid Examples.unknown_source)))
        = Some e ∧
        check_consistent (SimpleDocNav.doc_without_lineage_sources n)
          (CatalogEntry.metadata_doc e) = (false, err).
Proof.
  destruct (lineage_verification Examples.knows_b (multi_product_matcher Examples.rules)
              true true Examples.unknown_source Examples.unknown_source "file:///a")
    as (Hreport & Hfound); [by vm_compute|].
  destruct (Hfound "b"
              (check_consistent
                 (SimpleDocNav.doc_without_lineage_sources (Examples.nav "b" "SPOT" []))
                 (CatalogEntry.metadata_doc (Examples.entry "b" false 0))).2)
    as (bad & Hres & Hin).
  - exists (Examples.nav "b" "SPOT" []), (Examples.entry "b" false 0).
    split; [by vm_compute; apply list_elem_of_here|]. by vm_compute.
  - done.
  - right. by vm_compute.
  - exists bad. split; [done|]. split; [|by apply Hreport].
    rewrite Hres in Hreport. clear Hin.
    assert (Returned (inl (ErrInconsistentLineage bad))
            = resolve Examples.knows_b (multi_product_matcher Examples.rules) true true
                Examples.unknown_source "file:///a") as Heq by done.
    vm_compute in Heq. by injection Heq as ->.
Defined.

(** ** Documents without lineage *)

Lemma dedup_lineage_leaf i d b :
  dedup_lineage (SimpleDocNav.Nav i d b []) = inr (SimpleDocNav.Nav i d b []).
Proof. unfold dedup_lineage. destruct i; reflexivity. Qed.

(** X8.  For a document without lineage sources, lineage-aware resolution
    does not depend on its flags.  If the bulk lookup returns an entry for
    the document's identity, it succeeds with the product recorded there
    (in the last such entry), without consulting the matcher; otherwise it
    answers with the matcher's verdict on the document itself, [doc].
    Lineage-skipping resolution answers with the matcher's verdict on the
    document with its lineage sources emptied,
    [doc_without_lineage_sources], and builds the dataset from that
    document.  So the two answer alike on a document the bulk lookup does
    not return when those two documents are the same, as they are for a
    document written with an empty mapping of lineage sources. *)
Theorem resolve_leaf (index : Index.t)
    (match_product : document → BadMatch + Product.t)
    (fail_on_missing_lineage verify_lineage : bool) (ds : SimpleDocNav.t) (uri : string) :
  SimpleDocNav.sources ds = [] →
  let found :=
    match SimpleDocNav.id ds with
    | Some k =>
        last (filter (λ e, CatalogEntry.id e = k)
                (Index.bulk_get index [SimpleDocNav.id ds]))
    | None => None
    end in
  resolve index match_product fail_on_missing_lineage verify_lineage ds uri
  = match found with
    | Some e =>
        Returned (inr (0, [Dataset.Mk (CatalogEntry.type e) (SimpleDocNav.doc ds)
                             [uri] (Some [])]))
    | None =>
        match match_product (SimpleDocNav.doc ds) with
        | inr product =>
            Returned (inr (0, [Dataset.Mk product (SimpleDocNav.doc ds) [uri] (Some [])]))
        | inl e => Returned (inl (ErrBadMatch e))
        end
    end ∧
  resolve_no_lineage match_product ds uri
  = match match_product (SimpleDocNav.doc_without_lineage_sources ds) with
    | inr product =>
        Returned (inr (0, [Dataset.Mk product (SimpleDocNav.doc_without_lineage_sources ds)
                             [uri] (Some [])]))
    | inl e => Returned (inl (ErrBadMatch e))
    end ∧
  (found = None →
   SimpleDocNav.doc ds = SimpleDocNav.doc_without_lineage_sources ds →
   resolve index match_product fail_on_missing_lineage verify_lineage ds uri
   = resolve_no_lineage match_product ds uri).
Proof.
  destruct ds as [i d b srcs]. simpl. intros ->.
  assert (Hres :
    resolve index match_product fail_on_missing_lineage verify_lineage
      (SimpleDocNav.Nav i d b []) uri
    = match db_get (by_id (Index.bulk_get index [i])) i with
      | Some e => Returned (inr (0, [Dataset.Mk (CatalogEntry.type e) d [uri] (Some [])]))
      | None =>
          match match_product d with
          | inr product => Returned (inr (0, [Dataset.Mk product d [uri] (Some [])]))
          | inl e => Returned (inl (ErrBadMatch e))
          end
      end).
  { unfold resolve. rewrite dedup_lineage_leaf.
    assert (Hall : all_uuid (SimpleDocNav.Nav i d b []) = [i]) by done.
    assert (Hlin : lineage_uuids (SimpleDocNav.Nav i d b []) = []).
    { unfold lineage_uuids. rewrite Hall. simpl. by rewrite id_eqb_refl. }
    assert (Hmiss : missing_lineage index (SimpleDocNav.Nav i d b []) = []).
    { unfold missing_lineage. by rewrite Hlin. }
    assert (Hbad : bad_lineage index (SimpleDocNav.Nav i d b []) = []).
    { unfold bad_lineage. by rewrite Hlin. }
    rewrite Hmiss, Hbad. simpl. rewrite andb_false_r.
    unfold resolve_lineage, db_dss. rewrite Hall.
    rewrite remap_lineage_doc_unfold. simpl SimpleDocNav.sources.
    unfold resolve_ds. simpl. rewrite id_eqb_refl.
    destruct (db_get (by_id (Index.bulk_get index [i])) i) as [e|]; simpl; [done|].
    by destruct (match_product d). }
  assert (Hfound :
    db_get (by_id (Index.bulk_get index [i])) i
    = match i with
      | Some k => last (filter (λ e, CatalogEntry.id e = k) (Index.bulk_get index [i]))
      | None => None
      end).
  { destruct i as [k|]; [|done]. simpl. by rewrite by_id_lookup. }
  rewrite Hfound in Hres. split; [done|]. split.
  - unfold resolve_no_lineage. simpl. by destruct (match_product b).
  - intros Hnone <-. rewrite Hres, Hnone. unfold resolve_no_lineage. simpl.
    by destruct (match_product d).
Qed.

(** A Sentinel document written with an empty mapping of lineage sources,
    against an empty catalogue: both resolvers build the same dataset. *)
Lemma resolve_leaf_witness :
  resolve Examples.empty_catalogue (multi_product_matcher Examples.rules) true true
    (Examples.nav "b" "SENTINEL_2" []) "file:///b"
  = Returned (inr (0, [Dataset.Mk Examples.sentinel
                         (SimpleDocNav.doc (Examples.nav "b" "SENTINEL_2" []))
                         ["file:///b"] (Some [])])) ∧
  resolve Examples.empty_catalogue (multi_product_matcher Examples.rules) true true
    (Examples.nav "b" "SENTINEL_2" []) "file:///b"
  = resolve_no_lineage (multi_product_matcher Examples.rules)
      (Examples.nav "b" "SENTINEL_2" []) "file:///b".
Proof.
  destruct (resolve_leaf Examples.empty_catalogue (multi_product_matcher Examples.rules)
              true true (Examples.nav "b" "SENTINEL_2" []) "file:///b")
    as (Hres & _ & Hsame); [reflexivity|].
  split; [by rewrite Hres|]. apply Hsame; reflexivity.
Defined.

(** A document with no lineage at all: lineage-skipping resolution builds
    the dataset from the document with an empty lineage added, and
    lineage-aware resolution from the document as it is. *)
Example resolve_leaf_no_lineage_key :
  resolve Examples.empty_catalogue (multi_product_matcher Examples.rules) true true
    (MoreExamples.leaf "b" "SENTINEL_2") "file:///b"
  = Returned (inr (0, [Dataset.Mk Examples.sentinel
                         [("id", VStr "b"); ("platform", VStr "SENTINEL_2")]
                         ["file:///b"] (Some [])])) ∧
  resolve_no_lineage (multi_product_matcher Examples.rules)
    (MoreExamples.leaf "b" "SENTINEL_2") "file:///b"
  = Returned (inr (0, [Dataset.Mk Examples.sentinel
                         [("id", VStr "b"); ("platform", VStr "SENTINEL_2");
                          ("lineage", VDict [("source_datasets", VDict [])])]
                         ["file:///b"] (Some [])])).
Proof. by vm_compute. Qed.

Lemma repeated_product_name_is_ambiguous_witness :
  ∃ doc_id names,
    multi_product_matcher
      [rule.Mk Examples.landsat (Product.metadata_doc Examples.landsat);
       rule.Mk Examples.landsat (Product.metadata_doc Examples.landsat)]
      [("id", VStr "a"); ("platform", VStr "LANDSAT_8")]
    = inl (SeveralProducts doc_id names) ∧
    Product.name Examples.landsat ∈ names.
Proof.
  apply (repeated_product_name_is_ambiguous MoreExamples.product_catalogue
           [] [] [] "ls8_scene" Examples.landsat
           [rule.Mk Examples.landsat (Product.metadata_doc Examples.landsat);
            rule.Mk Examples.landsat (Product.metadata_doc Examples.landsat)]);
    reflexivity.
Defined.

(** ** Loading datasets *)

(** X9.  [load_datasets] drops no document silently.  When no exception
    escapes the resolver, each document is either yielded or accounted for
    by one logged error, and the datasets come out in the order of their
    documents; when one escapes, what was yielded and logged accounts for
    fewer documents than were given. *)
Theorem load_datasets_accounting (docs : list (string * SimpleDocNav.t))
    (ds_resolve : SimpleDocNav.t → string → outcome (resolve_error + resolved)) :
  match load_datasets docs ds_resolve with
  | (out, log, None) =>
      length out + length log = length docs ∧ out = omap (passes ds_resolve) docs
  | (out, log, Some e) => length out + length log < length docs
  end.
Proof.
  induction docs as [|[uri ds] docs IH]; [done|].
  cbn [load_datasets omap list_omap]. unfold passes at 1. cbn [fst snd].
  destruct (ds_resolve ds uri) as [[err|r]|x] eqn:Hres.
  - destruct (load_datasets docs ds_resolve) as [[out log] [e|]]; simpl in *; [lia|].
    destruct IH as [Hlen ->]. split; [lia|done].
  - destruct (root_dataset r) as [d|] eqn:Hroot; [|simpl; lia].
    destruct (check_dataset_consistent d) as [ok reason] eqn:Hchk.
    destruct ok; cbn [negb fst];
      destruct (load_datasets docs ds_resolve) as [[out log] [e|]]; simpl in *; try lia;
      destruct IH as [Hlen ->]; (split; [lia|done]).
  - simpl. lia.
Qed.

(** ** Loading datasets for update *)

Lemma loc_action_returns dry_run reply action new_ds existing_ds name uri :
  Dataset.uris new_ds = [uri] →
  ∃ r, loc_action dry_run reply action new_ds existing_ds name = Returned r.
Proof.
  intros Huris. unfold loc_action. rewrite Huris.
  destruct (CatalogEntry.uris existing_ds) as [|old [|old' rest]]; simpl; eauto.
  destruct (String.eqb uri old); eauto. destruct dry_run; eauto.
Qed.

Lemma update_loc_returns dry_run reply policy new_ds existing_ds uri :
  Dataset.uris new_ds = [uri] →
  ∃ r, update_loc dry_run reply policy new_ds existing_ds = Returned r.
Proof.
  intros Huris. destruct policy; simpl.
  - unfold loc_keep. eauto.
  - by eapply loc_action_returns.
  - by eapply loc_action_returns.
Qed.

Lemma check_dataset_consistent_true d reason :
  check_dataset_consistent d = (true, reason) → reason = None.
Proof.
  unfold check_dataset_consistent. repeat case_match; by intros [= <-].
Qed.

Lemma load_for_update_step_yields index uri doc dataset existing log :
  load_for_update_step index uri doc = (Some (dataset, existing), log) →
  log = [] ∧
  ∃ uuid, SimpleDocNav.id doc = Some uuid ∧ Index.get index uuid = Some existing ∧
          dataset = Dataset.Mk (CatalogEntry.type existing)
                      (SimpleDocNav.doc_without_lineage_sources doc) [uri] None ∧
          check_dataset_consistent dataset = (true, None).
Proof.
  unfold load_for_update_step, mk_dataset.
  destruct (SimpleDocNav.id doc) as [uuid|]; [|done].
  destruct (Index.get index uuid) as [e|] eqn:Hget; [|done].
  destruct (check_dataset_consistent _) as [ok reason] eqn:Hchk.
  destruct ok; [|done]. intros [= <- <- <-]. split; [done|]. exists uuid.
  split; [done|]. split; [done|]. split; [done|].
  by rewrite (check_dataset_consistent_true _ _ Hchk) in Hchk.
Qed.

Lemma load_for_update_step_one index uri doc :
  length (from_option (λ p, [p]) [] (load_for_update_step index uri doc).1)
  + length (load_for_update_step index uri doc).2 = 1.
Proof.
  unfold load_for_update_step, mk_dataset.
  destruct (SimpleDocNav.id doc) as [uuid|]; [|done].
  destruct (Index.get index uuid) as [e|]; [|done].
  destruct (check_dataset_consistent _) as [[] reason]; done.
Qed.

(** X10.  [load_datasets_for_update] never classifies a document anew:
    each pair it yields is a dataset found in the catalogue under the
    document's identity, together with a new dataset that has the existing
    one's product, the document without its lineage, the document's
    location as only location, no sources, and passes the measurement
    check.  Every document is either such a pair or one logged error
    (a document without identity is logged without any lookup), and the
    location step of [update] cannot fail to unpack the new dataset's
    location, whatever the policy. *)
Theorem load_datasets_for_update_pairs (docs : list (string * SimpleDocNav.t))
    (index : Index.t) :
  let out := (load_datasets_for_update docs index).1 in
  let log := (load_datasets_for_update docs index).2 in
  length out + length log = length docs ∧
  (∀ dataset existing, (dataset, existing) ∈ out →
     (∃ uri doc uuid,
        (uri, doc) ∈ docs ∧ SimpleDocNav.id doc = Some uuid ∧
        Index.get index uuid = Some existing ∧
        dataset = Dataset.Mk (CatalogEntry.type existing)
                    (SimpleDocNav.doc_without_lineage_sources doc) [uri] None ∧
        check_dataset_consistent dataset = (true, None)) ∧
     ∀ dry_run reply policy,
       ∃ r, update_loc dry_run reply policy dataset existing = Returned r) ∧
  (∀ uri doc, (uri, doc) ∈ docs → SimpleDocNav.id doc = None →
     FailureWhileProcessing uri "Metadata document it missing id field" ∈ log).
Proof.
  induction docs as [|[uri doc] docs IH]; simpl.
  - split; [done|]. split; intros; by apply elem_of_nil in H.
  - pose proof (load_for_update_step_one index uri doc) as Hone.
    destruct (load_for_update_step index uri doc) as [yielded log0] eqn:Hstep.
    destruct (load_datasets_for_update docs index) as [out log'] eqn:Hrest.
    simpl in *. destruct IH as (Hlen & Hpairs & Hnoid).
    split; [|split].
    + rewrite length_app. destruct yielded; simpl in *; lia.
    + intros dataset existing Hin.
      assert (Hcases : yielded = Some (dataset, existing) ∨ (dataset, existing) ∈ out).
      { destruct yielded as [p|]; [|by right].
        apply elem_of_cons in Hin as [->|?]; auto. }
      destruct Hcases as [->|Hin'].
      * apply load_for_update_step_yields in Hstep as (_ & uuid & Hid & Hget & -> & Hchk).
        split.
        -- exists uri, doc, uuid. repeat split; try done. apply list_elem_of_here.
        -- intros. by eapply update_loc_returns.
      * destruct (Hpairs _ _ Hin') as [(u & d & uuid & Hd & ?) Hloc]. split; [|done].
        exists u, d, uuid. split; [by apply list_elem_of_further|done].
    + intros u d Hin Hid. apply elem_of_app.
      apply elem_of_cons in Hin as [[= -> ->]|Hin].
      * left. unfold load_for_update_step, mk_dataset in Hstep. rewrite Hid in Hstep.
        injection Hstep as <- <-. apply list_elem_of_here.
      * right. by apply (Hnoid u d).
Qed.

(** ** Restore: the cases beside an archived target with its derived set *)

Section RestoreFacts.
Variable pop : gset string → string.
Variable index : Index.t.
Hypothesis pop_elem : ∀ s, s ≠ ∅ → pop s ∈ s.
Variable rank : string → nat.
Hypothesis rank_decreases :
  ∀ x d, d ∈ Index.get_derived index x → rank (CatalogEntry.id d) < rank x.

Lemma get_derived_set_returns fuel id_ :
  paths index (rank id_) id_ ≤ fuel →
  ∃ derived_set calls,
    _get_derived_set pop index fuel id_ = Some (derived_set, calls) ∧
    ∀ e, e ∈ derived_set ↔
         e = Index.get index id_ ∨ ∃ d, e = Some d ∧ derived_from index id_ d.
Proof.
  intros Hfuel.
  destruct (derived_loop_terminates pop index pop_elem rank rank_decreases fuel
              [Index.get index id_] {[id_]} []) as ([derived_set calls] & Hloop & _).
  { by rewrite weight_singleton. }
  exists derived_set, calls. split; [done|].
  by destruct (get_derived_set_result pop index id_ pop_elem fuel derived_set calls Hloop).
Qed.

Lemma members_absent (s : list (option CatalogEntry.t)) :
  None ∈ s →
  members s = Raised (AttributeError "'NoneType' object has no attribute 'is_archived'").
Proof.
  induction s as [|[d|] s IH]; intros Hin.
  - by apply elem_of_nil in Hin.
  - apply elem_of_cons in Hin as [?|Hin]; [done|]. simpl. by rewrite (IH Hin).
  - done.
Qed.

Lemma restore_one_derived fuel id_ target :
  paths index (rank id_) id_ ≤ fuel →
  Index.get index id_ = Some target →
  ∃ l,
    (∀ d, d ∈ l ↔ d = target ∨ derived_from index id_ d) ∧
    ∀ dry_run tolerance,
      _restore_one pop index fuel dry_run id_ true tolerance
      = Some (Returned
          (let to_process := List.filter CatalogEntry.is_archived l in
           let to_process :=
             if CatalogEntry.is_archived target
             then List.filter (within_tolerance target tolerance) to_process
             else to_process in
           {| restoring := to_process;
              restore_call := if negb dry_run then Some (CatalogEntry.id <$> to_process)
                              else None |})).
Proof.
  intros Hfuel Hget.
  destruct (get_derived_set_returns fuel id_ Hfuel) as (derived_set & calls & Hloop & Hset).
  destruct (members_all_present derived_set) as (l & Hl & Hmem).
  { intros e He. apply Hset in He as [->|(d & -> & _)]; [by rewrite Hget|done]. }
  exists l. split.
  - intros d. rewrite Hmem, Hset, Hget. split.
    + intros [[= ->]|(d' & [= <-] & Hd)]; auto.
    + intros [->|Hd]; eauto.
  - intros dry_run tolerance. unfold _restore_one. rewrite Hloop, Hget. simpl. by rewrite Hl.
Qed.
End RestoreFacts.

(** X11.  Restoring with the derived datasets a target that is itself not
    archived, on a catalogue without derivation cycles ([rank] decreases
    along the derived relation): the tolerance plays no part.  Every archived dataset derived
    from the target is restored, whenever it was archived, and whatever the
    tolerance given; the target, being active, is not among them. *)
Theorem restore_one_active_target (pop : gset string → string) (index : Index.t)
    (rank : string → nat) (fuel : nat) (dry_run : bool) (id_ : string)
    (target : CatalogEntry.t) (tolerance : Z) :
  (∀ s, s ≠ ∅ → pop s ∈ s) →
  (∀ x d, d ∈ Index.get_derived index x → rank (CatalogEntry.id d) < rank x) →
  paths index (rank id_) id_ ≤ fuel →
  Index.get index id_ = Some target →
  CatalogEntry.is_archived target = false →
  ∃ res,
    _restore_one pop index fuel dry_run id_ true tolerance = Some (Returned res) ∧
    (∀ d, d ∈ restoring res ↔
          derived_from index id_ d ∧ CatalogEntry.is_archived d = true) ∧
    (target ∉ restoring res) ∧
    restore_call res
    = (if dry_run then None else Some (CatalogEntry.id <$> restoring res)).
Proof.
  intros Hpop Hrank Hfuel Hget Harch.
  destruct (restore_one_derived pop index Hpop rank Hrank fuel id_ target Hfuel Hget)
    as (l & Hl & ->).
  rewrite Harch. eexists. split; [done|]. simpl.
  assert (Hmem : ∀ d, d ∈ List.filter CatalogEntry.is_archived l ↔
                      derived_from index id_ d ∧ CatalogEntry.is_archived d = true).
  { intros d. rewrite elem_of_filter_bool, Hl. split.
    - intros [[->|Hd] Ha]; [congruence|done].
    - intros [Hd Ha]. auto. }
  split; [done|]. split.
  - rewrite elem_of_filter_bool. intros [_ Ha]. congruence.
  - by destruct dry_run.
Qed.

(** X12.  Restoring an identity the catalogue does not know restores
    nothing.  Without the derived datasets it ends in an [AttributeError].
    With them it ends in the same [AttributeError] whenever the walk over
    the derived datasets ends, whatever [set.pop()] picks, and the walk
    does end on a catalogue without derivation cycles ([rank] decreases
    along the derived relation). *)
Theorem restore_one_unknown_id (pop : gset string → string) (index : Index.t)
    (fuel : nat) (dry_run restore_derived : bool) (id_ : string) (tolerance : Z) :
  (∀ s, s ≠ ∅ → pop s ∈ s) →
  Index.get index id_ = None →
  _restore_one pop index fuel dry_run id_ false tolerance
  = Some (Raised (AttributeError "'NoneType' object has no attribute 'is_archived'")) ∧
  (∀ r, _restore_one pop index fuel dry_run id_ restore_derived tolerance = Some r →
        r = Raised (AttributeError "'NoneType' object has no attribute 'is_archived'")) ∧
  (∀ rank : string → nat,
     (∀ x d, d ∈ Index.get_derived index x → rank (CatalogEntry.id d) < rank x) →
     paths index (rank id_) id_ ≤ fuel →
     _restore_one pop index fuel dry_run id_ restore_derived tolerance
     = Some (Raised (AttributeError "'NoneType' object has no attribute 'is_archived'"))).
Proof.
  intros Hpop Hget.
  assert (Hplain : _restore_one pop index fuel dry_run id_ false tolerance
    = Some (Raised (AttributeError "'NoneType' object has no attribute 'is_archived'"))).
  { unfold _restore_one. by rewrite Hget. }
  assert (Hany : ∀ r,
    _restore_one pop index fuel dry_run id_ restore_derived tolerance = Some r →
    r = Raised (AttributeError "'NoneType' object has no attribute 'is_archived'")).
  { destruct restore_derived; [|rewrite Hplain; by intros r [= <-]].
    unfold _restore_one.
    destruct (_get_derived_set pop index fuel id_) as [[derived_set calls]|] eqn:Hloop;
      [|done].
    destruct (get_derived_set_result pop index id_ Hpop fuel derived_set calls Hloop)
      as [Hset _].
    simpl. rewrite members_absent; [by intros r [= <-]|].
    apply Hset. left. by rewrite Hget. }
  split; [done|]. split; [done|].
  intros rank Hrank Hfuel. destruct restore_derived; [|done].
  destruct (get_derived_set_returns pop index Hpop rank Hrank fuel id_ Hfuel)
    as (derived_set & calls & Hloop & Hset).
  unfold _restore_one. rewrite Hloop. simpl. rewrite members_absent; [done|].
  apply Hset. left. by rewrite Hget.
Qed.


Lemma active_family_rank_decreases x d :
  d ∈ Index.get_derived MoreExamples.active_family x →
  Examples.family_rank (CatalogEntry.id d) < Examples.family_rank x.
Proof.
  simpl. destruct (String.eqb x "t") eqn:Ht.
  - apply String.eqb_eq in Ht as ->. intros Hd.
    apply elem_of_cons in Hd as [->|Hd]; [vm_compute; lia|].
    apply list_elem_of_singleton in Hd as ->. vm_compute; lia.
  - intros Hd. by apply elem_of_nil in Hd.
Qed.

Lemma restore_one_active_target_witness :
  ∃ res,
    _restore_one Examples.pop_first MoreExamples.active_family 3 false "t" true 0
    = Some (Returned res) ∧
    (∀ d, d ∈ restoring res ↔
          derived_from MoreExamples.active_family "t" d ∧
          CatalogEntry.is_archived d = true) ∧
    (Examples.entry "t" false 0 ∉ restoring res) ∧
    restore_call res = Some (CatalogEntry.id <$> restoring res).
Proof.
  apply (restore_one_active_target Examples.pop_first MoreExamples.active_family
           Examples.family_rank 3 false "t" (Examples.entry "t" false 0) 0).
  - apply pop_first_elem.
  - apply active_family_rank_decreases.
  - vm_compute. lia.
  - reflexivity.
  - reflexivity.
Defined.

(** An unknown identity, without the derived datasets and with them. *)
Lemma restore_one_unknown_id_witness :
  _restore_one Examples.pop_first Examples.archived_family 3 false "unknown" false
    (timedelta_seconds 600)
  = Some (Raised (AttributeError "'NoneType' object has no attribute 'is_archived'")) ∧
  _restore_one Examples.pop_first Examples.archived_family 3 false "unknown" true
    (timedelta_seconds 600)
  = Some (Raised (AttributeError "'NoneType' object has no attribute 'is_archived'")).
Proof.
  destruct (restore_one_unknown_id Examples.pop_first Examples.archived_family
              3 false true "unknown" (timedelta_seconds 600))
    as (Hplain & Hany & Hacyclic).
  - apply pop_first_elem.
  - reflexivity.
  - split; [exact Hplain|].
    apply (Hacyclic Examples.family_rank family_rank_decreases). vm_compute. lia.
Defined.


(** ** Durations and intervals *)


Lemma parse_duration_interval `{Dates.Builtins} (s : string) :
  match Dates.parse_interval s, Dates.parse_duration s with
  | Returned (n, f), Returned d => d = delta_in f n
  | Raised (ValueError _), Raised (ValueError _) => True
  | _, _ => False
  end.
Proof.
  unfold Dates.parse_interval, Dates.parse_duration, Dates.split_duration.
  destruct (Dates.int (Dates.all_but_last s)) as [z|]; simpl; [|done].
  unfold Dates.FREQS, Dates.DURATIONS.
  destruct (String.eqb (Dates.last_char s) "y"); [done|].
  destruct (String.eqb (Dates.last_char s) "m"); [done|].
  destruct (String.eqb (Dates.last_char s) "d"); done.
Qed.

Lemma parse_interval_accepts `{Dates.Builtins} (s : string) :
  (∃ n f, Dates.parse_interval s = Returned (n, f)) ↔
  is_Some (Dates.int (Dates.all_but_last s)) ∧ Dates.last_char s ∈ ["y"; "m"; "d"].
Proof.
  unfold Dates.parse_interval, Dates.split_duration.
  destruct (Dates.int (Dates.all_but_last s)) as [z|]; simpl.
  - unfold Dates.FREQS.
    destruct (String.eqb (Dates.last_char s) "y") eqn:Hy;
      [apply String.eqb_eq in Hy; rewrite Hy; split; [split; [by eexists|set_solver]|by eauto]|].
    destruct (String.eqb (Dates.last_char s) "m") eqn:Hm;
      [apply String.eqb_eq in Hm; rewrite Hm; split; [split; [by eexists|set_solver]|by eauto]|].
    destruct (String.eqb (Dates.last_char s) "d") eqn:Hd;
      [apply String.eqb_eq in Hd; rewrite Hd; split; [split; [by eexists|set_solver]|by eauto]|].
    apply String.eqb_neq in Hy, Hm, Hd. split.
    + by intros (n & f & ?).
    + intros [_ Hin]. set_solver.
  - split; [by intros (n & f & ?)|]. by intros [[? ?] _].
Qed.

(** X14.  Step sizes and durations are written alike.  [parse_interval]
    and [parse_duration] accept the same strings, those that end in one of
    the units y, m and d after a text that [int] accepts, and read the same
    count in the same unit; on any other string both raise [ValueError].
    When its step size or its duration is not such a string,
    [date_sequence] raises that [ValueError], the step size's first, when
    it is first asked for a pair, and yields nothing.  When both are, it
    runs its loop over the recurrence of that frequency and interval, it
    yields the span of every item that ends by the end date, as long as
    no exception has occurred, and an exception that ends it is one of the recurrence, of the addition
    of the duration to one of its items, or of the comparison with the
    end date, at an item reached through items only. *)
Theorem date_sequence_arguments `{Dates.Builtins} {date : Type} `{Dates.Calendar date}
    (start end_ : date) (stats_duration step_size : string) :
  (∀ s,
     match Dates.parse_interval s, Dates.parse_duration s with
     | Returned (n, f), Returned d => d = delta_in f n
     | Raised (ValueError _), Raised (ValueError _) => True
     | _, _ => False
     end) ∧
  (∀ s,
     (∃ n f, Dates.parse_interval s = Returned (n, f)) ↔
     is_Some (Dates.int (Dates.all_but_last s)) ∧
     Dates.last_char s ∈ ["y"; "m"; "d"]) ∧
  match Dates.parse_interval step_size, Dates.parse_duration stats_duration with
  | Returned (n, f), Returned d =>
      ∀ fuel,
        Dates.date_sequence start end_ stats_duration step_size fuel =
          Dates.date_sequence_loop (Dates.rrule f n start end_) d end_ 0 fuel ∧
        (∀ j s e,
           (j < fuel)%nat →
           (∀ k, (k < j)%nat →
              ∃ s' e' b, Dates.rrule f n start end_ k = Dates.Item s' ∧
                         Dates.date_add s' d = Returned e' ∧
                         Dates.date_le e' end_ = Returned b) →
           Dates.rrule f n start end_ j = Dates.Item s →
           Dates.date_add s d = Returned e →
           Dates.date_le e end_ = Returned true →
           (s, e) ∈ (Dates.date_sequence start end_ stats_duration step_size fuel).1) ∧
        ∀ pairs e,
          Dates.date_sequence start end_ stats_duration step_size fuel =
            (pairs, Dates.Failed e) →
          ∃ j, (j < fuel)%nat ∧
            (∀ k, (k < j)%nat → ∃ s', Dates.rrule f n start end_ k = Dates.Item s') ∧
            (Dates.rrule f n start end_ j = Dates.Error e ∨
             ∃ s, Dates.rrule f n start end_ j = Dates.Item s ∧
               (Dates.date_add s d = Raised e ∨
                ∃ e', Dates.date_add s d = Returned e' ∧
                      Dates.date_le e' end_ = Raised e))
  | Raised e, _ | Returned _, Raised e =>
      (∃ msg, e = ValueError msg) ∧
      ∀ fuel,
        Dates.date_sequence start end_ stats_duration step_size (S fuel) =
          ([], Dates.Failed e)
  end.
Proof.
  split; [apply parse_duration_interval|].
  split; [apply parse_interval_accepts|].
  pose proof (parse_duration_interval step_size) as Hstep.
  pose proof (parse_duration_interval stats_duration) as Hdur.
  unfold Dates.date_sequence.
  destruct (Dates.parse_interval step_size) as [[n f]|e] eqn:Hi.
  - destruct (Dates.parse_duration stats_duration) as [d|e] eqn:Hd.
    + intros fuel.
      assert (match fuel with
              | O => ([], Dates.Running)
              | S _ => Dates.date_sequence_loop (Dates.rrule f n start end_) d end_ 0 fuel
              end = Dates.date_sequence_loop (Dates.rrule f n start end_) d end_ 0 fuel)
        as -> by by destruct fuel.
      split; [done|]. split.
      { intros j s e Hj Hclean Hitem Hadd Hle.
        apply (date_sequence_loop_complete _ _ _ _ 0 j); try done; [lia|].
        intros k Hk. apply Hclean. lia. }
      intros pairs e Hrun.
      apply date_sequence_loop_failed in Hrun as (j & Hj & Hbefore & Hwhy).
      exists j. split; [lia|]. split; [|done]. intros k Hk. apply Hbefore. lia.
    + split; [|done].
      destruct (Dates.parse_interval stats_duration) as [[]|[]]; try done.
      all: destruct e; try done; eauto.
  - split; [|done]. destruct e; try done; eauto.
Qed.

(** On the small calendar: a step of no days repeats the first span for
    ever, a negative step fails in the recurrence, and a duration that
    leads out of the calendar fails in the addition. *)
Example date_sequence_zero_step :
  Dates.date_sequence 0%Z 100%Z "1m" "0d" 3
  = ([(0, 30); (0, 30); (0, 30)]%Z, Dates.Running).
Proof. by vm_compute. Qed.

Example date_sequence_negative_step (fuel : nat) :
  Dates.date_sequence 0%Z 100%Z "1m" "-1d" (S fuel)
  = ([], Dates.Failed (ValueError "year is out of range")).
Proof. done. Qed.

Example date_sequence_out_of_range (fuel : nat) :
  Dates.date_sequence 0%Z 100%Z "99999y" "1d" (S fuel)
  = ([], Dates.Failed (OverflowError "date value out of range")).
Proof. done. Qed.

(** ** Dataset information *)

Lemma outcome_map_returned {A B} (f : A → outcome B) l ys :
  outcome_map f l = Returned ys → Forall2 (λ x y, f x = Returned y) l ys.
Proof.
  revert ys. induction l as [|x l IH]; intros ys; simpl.
  - intros [= <-]. constructor.
  - destruct (f x) as [y|e] eqn:Hx; [|done]. simpl.
    destruct (outcome_map f l) as [ys'|e]; [|done]. simpl.
    intros [= <-]. constructor; auto.
Qed.

Lemma outcome_map_raised {A B} (f : A → outcome B) l e :
  outcome_map f l = Raised e → ∃ x, x ∈ l ∧ f x = Raised e.
Proof.
  induction l as [|x l IH]; simpl; [done|].
  destruct (f x) as [y|e'] eqn:Hx; simpl.
  - destruct (outcome_map f l) as [ys'|e']; [done|]. simpl.
    intros [= <-]. destruct IH as (x' & ? & ?); [done|].
    exists x'. split; [by apply list_elem_of_further|done].
  - intros [= <-]. exists x. split; [apply list_elem_of_here|done].
Qed.

Lemma max_list_with_bound {A} (f : A → nat) l n :
  Forall (λ x, f x ≤ n) l → max_list_with f l ≤ n.
Proof. induction 1; simpl; lia. Qed.

Lemma existsb_none {A} (f : A → bool) l :
  Forall (λ x, f x = false) l → existsb f l = false.
Proof. induction 1 as [|x l Hx _ IH]; simpl; [done|]. by rewrite Hx, IH. Qed.

Section InfoFacts.
Variable index : Index.t.
Variable indexed_time : CatalogEntry.t → option Z.
Variable search_fields : CatalogEntry.t → document.
Variable sources : CatalogEntry.t → option (list (string * CatalogEntry.t)).

Local Abbreviation build_at :=
  (build_dataset_info_at index indexed_time search_fields sources).

Lemma build_at_spec levels : ∀ dataset show_sources show_derived,
  match build_at levels dataset show_sources show_derived with
  | Returned i =>
      info_levels i ≤ S levels ∧
      (show_sources = false → shows_sources i = false) ∧
      (show_derived = false → shows_derived i = false)
  | Raised e => show_sources = true ∧ e = not_loaded
  end.
Proof.
  induction levels as [|levels IH]; intros dataset show_sources show_derived.
  { simpl. split; [lia|]. split; done. }
  cbn [build_dataset_info_at].
  (* the 'sources' entry *)
  set (on_source := λ '(key, source),
         i ← build_at levels source true false; Returned (key, i)).
  assert (Hsrc : ∀ items,
            match outcome_map on_source items with
            | Returned l =>
                Forall (λ '(_, c), info_levels c ≤ S levels) l ∧
                Forall (λ '(_, c), shows_derived c = false) l
            | Raised e => e = not_loaded
            end).
  { intros items. destruct (outcome_map on_source items) as [l|e] eqn:Hmap.
    - apply outcome_map_returned in Hmap.
      induction Hmap as [|[k s] [k' c] items l Hx _ [IH1 IH2]]; [by split|].
      unfold on_source in Hx. specialize (IH s true false).
      destruct (build_at levels s true false) as [i|]; [|done]. simpl in Hx.
      injection Hx as <- <-. destruct IH as (? & _ & ?).
      split; constructor; auto.
    - apply outcome_map_raised in Hmap as ([k s] & _ & Hx).
      unfold on_source in Hx. specialize (IH s true false).
      destruct (build_at levels s true false) as [i|e']; [done|]. simpl in Hx.
      injection Hx as <-. by destruct IH. }
  (* the 'derived' entry *)
  assert (Hder : ∀ ds,
            ∃ l, outcome_map (λ derived, build_at levels derived false true) ds = Returned l ∧
                 Forall (λ c, info_levels c ≤ S levels) l ∧
                 Forall (λ c, shows_sources c = false) l).
  { induction ds as [|d ds (l & Hl & IH1 & IH2)]; [by exists []|].
    simpl. specialize (IH d false true).
    destruct (build_at levels d false true) as [i|e]; [|by destruct IH].
    destruct IH as (? & ? & _). exists (i :: l). simpl. rewrite Hl. simpl.
    split; [done|]. split; constructor; auto. }
  destruct show_sources.
  - destruct (sources dataset) as [items|]; [|done].
    specialize (Hsrc items).
    destruct (outcome_map on_source items) as [l|e]; [|done]. simpl.
    destruct Hsrc as [Hlev Hnod].
    destruct show_derived.
    + destruct (Hder (Index.get_derived index (CatalogEntry.id dataset)))
        as (l' & -> & Hlev' & _). simpl.
      split; [|done].
      pose proof (max_list_with_bound (λ '(_, c), info_levels c) l (S levels)) as H1.
      pose proof (max_list_with_bound info_levels l' (S levels) Hlev') as H2.
      assert (max_list_with (λ '(_, c), info_levels c) l ≤ S levels).
      { apply H1. eapply Forall_impl; [exact Hlev|]. by intros []. }
      lia.
    + simpl. split; [|split; [done|]].
      * pose proof (max_list_with_bound (λ '(_, c), info_levels c) l (S levels)) as H1.
        assert (max_list_with (λ '(_, c), info_levels c) l ≤ S levels).
        { apply H1. eapply Forall_impl; [exact Hlev|]. by intros []. }
        lia.
      * intros _. apply existsb_none. eapply Forall_impl; [exact Hnod|]. by intros [].
  - simpl. destruct show_derived.
    + destruct (Hder (Index.get_derived index (CatalogEntry.id dataset)))
        as (l' & -> & Hlev' & Hnos). simpl.
      split; [|split; [|done]].
      * pose proof (max_list_with_bound info_levels l' (S levels) Hlev'). lia.
      * intros _. by apply existsb_none.
    + simpl. split; [lia|]. by split.
Qed.

Lemma build_at_root levels dataset show_sources show_derived i :
  build_at levels dataset show_sources show_derived = Returned i →
  info_id i = CatalogEntry.id dataset ∧
  (is_Some (info_sources i) ↔ show_sources = true ∧ 0 < levels) ∧
  (is_Some (info_derived i) ↔ show_derived = true ∧ 0 < levels).
Proof.
  destruct levels as [|levels]; cbn [build_dataset_info_at].
  { intros [= <-]. simpl. split; [done|].
    split; (split; [by intros [? ?]|intros [_ ?]; lia]). }
  destruct show_sources.
  - destruct (sources dataset) as [items|]; [|done].
    destruct (outcome_map _ items) as [l|]; [|done]. simpl.
    destruct show_derived.
    + destruct (outcome_map _ (Index.get_derived _ _)) as [l'|]; [|done]. simpl.
      intros [= <-]. simpl. split; [done|]. split; (split; [intros _; split; [done|lia]|eauto]).
    + simpl. intros [= <-]. simpl. split; [done|]. split.
      * split; [intros _; split; [done|lia]|eauto].
      * split; [by intros [? ?]|by intros [? _]].
  - simpl. destruct show_derived.
    + destruct (outcome_map _ (Index.get_derived _ _)) as [l'|]; [|done]. simpl.
      intros [= <-]. simpl. split; [done|]. split.
      * split; [by intros [? ?]|by intros [? _]].
      * split; [intros _; split; [done|lia]|eauto].
    + simpl. intros [= <-]. simpl. split; [done|].
      split; (split; [by intros [? ?]|by intros [? _]]).
Qed.

Lemma build_at_children levels dataset show_sources show_derived i :
  build_at levels dataset show_sources show_derived = Returned i →
  (∀ l, info_sources i = Some l →
     ∃ n items, levels = S n ∧ sources dataset = Some items ∧
       Forall2 (λ (item : string * CatalogEntry.t) (entry : string * info),
                  entry.1 = item.1 ∧ build_at n item.2 true false = Returned entry.2)
         items l) ∧
  (∀ l, info_derived i = Some l →
     ∃ n, levels = S n ∧
       Forall2 (λ derived c, build_at n derived false true = Returned c)
         (Index.get_derived index (CatalogEntry.id dataset)) l).
Proof.
  destruct levels as [|levels]; cbn [build_dataset_info_at].
  { intros [= <-]. simpl. split; intros; done. }
  assert (Hsrc : ∀ items l,
    outcome_map (λ '(key, source),
       i ← build_at levels source true false; Returned (key, i)) items = Returned l →
    Forall2 (λ (item : string * CatalogEntry.t) (entry : string * info),
               entry.1 = item.1 ∧ build_at levels item.2 true false = Returned entry.2)
      items l).
  { intros items l Hmap. apply outcome_map_returned in Hmap.
    eapply Forall2_impl; [exact Hmap|]. intros [k s] [k' c]. simpl.
    destruct (build_at levels s true false); [|done]. simpl. by intros [= <- <-]. }
  destruct show_sources.
  - destruct (sources dataset) as [items|]; [|done].
    destruct (outcome_map _ items) as [l|] eqn:Hmap; [|done]. simpl.
    destruct show_derived.
    + destruct (outcome_map _ (Index.get_derived _ _)) as [l'|] eqn:Hmap'; [|done]. simpl.
      intros [= <-]. simpl. split.
      * intros ? [= <-]. exists levels, items. auto.
      * intros ? [= <-]. exists levels. split; [done|]. by apply outcome_map_returned.
    + simpl. intros [= <-]. simpl. split; [|done].
      intros ? [= <-]. exists levels, items. auto.
  - simpl. destruct show_derived.
    + destruct (outcome_map _ (Index.get_derived _ _)) as [l'|] eqn:Hmap'; [|done]. simpl.
      intros [= <-]. simpl. split; [done|].
      intros ? [= <-]. exists levels. split; [done|]. by apply outcome_map_returned.
    + simpl. intros [= <-]. simpl. by split.
Qed.
End InfoFacts.

(** X15.  [build_dataset_info] is bounded by its depth limit, whatever the
    catalogue holds, derivation cycles included: the document it returns has
    at most [max_depth - depth + 1] levels, and at the limit it has neither
    sources nor derived datasets.  Its only failure is the [AttributeError]
    of asking for the sources of a dataset that was fetched without them:
    without [show_sources] it always returns. *)
Theorem build_dataset_info_bounded (index : Index.t)
    (indexed_time : CatalogEntry.t → option Z) (search_fields : CatalogEntry.t → document)
    (sources : CatalogEntry.t → option (list (string * CatalogEntry.t)))
    (dataset : CatalogEntry.t) (show_sources show_derived : bool) (depth max_depth : Z) :
  match build_dataset_info index indexed_time search_fields sources dataset
          show_sources show_derived depth max_depth with
  | Returned i =>
      info_levels i ≤ S (Z.to_nat (max_depth - depth)) ∧
      ((max_depth ≤ depth)%Z → info_sources i = None ∧ info_derived i = None)
  | Raised e => show_sources = true ∧ (depth < max_depth)%Z ∧ e = not_loaded
  end.
Proof.
  unfold build_dataset_info.
  pose proof (build_at_spec index indexed_time search_fields sources
                (Z.to_nat (max_depth - depth)) dataset show_sources show_derived) as Hspec.
  destruct (build_dataset_info_at _ _ _ _ _ _ _ _) as [i|e] eqn:Hrun.
  - split; [by destruct Hspec|]. intros Hle.
    replace (Z.to_nat (max_depth - depth)) with 0 in Hrun by lia.
    simpl in Hrun. by injection Hrun as <-.
  - destruct Hspec as [-> ->]. split; [done|]. split; [|done].
    destruct (Z.to_nat (max_depth - depth)) eqn:Hn; [done|lia].
Qed.

(** X16.  The two directions of lineage are never mixed.  In the document
    [build_dataset_info] returns, 'sources' is present exactly when sources
    were asked for below the depth limit, and likewise 'derived'; 'sources'
    has the classifiers of the dataset's sources and 'derived' one document
    per derived dataset of the catalogue, in its order; and no document
    under 'derived' shows sources at any level, no document under 'sources'
    shows derived datasets at any level. *)
Theorem build_dataset_info_branches (index : Index.t)
    (indexed_time : CatalogEntry.t → option Z) (search_fields : CatalogEntry.t → document)
    (sources : CatalogEntry.t → option (list (string * CatalogEntry.t)))
    (dataset : CatalogEntry.t) (show_sources show_derived : bool) (depth max_depth : Z)
    (i : info) :
  build_dataset_info index indexed_time search_fields sources dataset
    show_sources show_derived depth max_depth = Returned i →
  (is_Some (info_sources i) ↔ show_sources = true ∧ (depth < max_depth)%Z) ∧
  (is_Some (info_derived i) ↔ show_derived = true ∧ (depth < max_depth)%Z) ∧
  (∀ l, info_sources i = Some l →
     ∃ items, sources dataset = Some items ∧
       l.*1 = items.*1 ∧
       info_id <$> l.*2 = CatalogEntry.id <$> items.*2 ∧
       Forall (λ c, shows_derived c = false) l.*2) ∧
  (∀ l, info_derived i = Some l →
     info_id <$> l = CatalogEntry.id <$> Index.get_derived index (CatalogEntry.id dataset) ∧
     Forall (λ c, shows_sources c = false) l).
Proof.
  unfold build_dataset_info. intros Hrun.
  destruct (build_at_root _ _ _ _ _ _ _ _ _ Hrun) as (_ & Hs & Hd).
  destruct (build_at_children _ _ _ _ _ _ _ _ _ Hrun) as (Hsrc & Hder).
  split; [rewrite Hs; intuition lia|]. split; [rewrite Hd; intuition lia|]. split.
  - intros l Hl. destruct (Hsrc l Hl) as (n & items & _ & Hitems & Hall).
    exists items. split; [done|]. clear Hl Hitems.
    induction Hall as [|[k s] [k' c] items l [Hk Hc] _ (IH1 & IH2 & IH3)];
      [by repeat split|].
    simpl in Hk, Hc. subst k'.
    destruct (build_at_root _ _ _ _ _ _ _ _ _ Hc) as (Hid & _).
    pose proof (build_at_spec index indexed_time search_fields sources n s true false) as Hsp.
    rewrite Hc in Hsp. destruct Hsp as (_ & _ & Hnod).
    csimpl. rewrite IH1, IH2, Hid. split; [done|]. split; [done|]. constructor; auto.
  - intros l Hl. destruct (Hder l Hl) as (n & _ & Hall). clear Hl Hder Hrun.
    generalize dependent (Index.get_derived index (CatalogEntry.id dataset)). intros ds Hall.
    induction Hall as [|d c ds l Hc _ (IH1 & IH2)]; [by split|].
    destruct (build_at_root _ _ _ _ _ _ _ _ _ Hc) as (Hid & _).
    pose proof (build_at_spec index indexed_time search_fields sources n d false true) as Hsp.
    rewrite Hc in Hsp. destruct Hsp as (_ & Hnos & _).
    csimpl. rewrite IH1, Hid. split; [done|]. constructor; auto.
Qed.

Lemma build_dataset_info_branches_witness :
  ∃ i,
    build_dataset_info Examples.archived_family (λ _, None) CatalogEntry.metadata_doc
      MoreExamples.lineage_sources (Examples.entry "t" true (timedelta_seconds 1000))
      true true 1 99 = Returned i ∧
    (is_Some (info_sources i) ↔ true = true ∧ (1 < 99)%Z) ∧
    (is_Some (info_derived i) ↔ true = true ∧ (1 < 99)%Z) ∧
    (∀ l, info_sources i = Some l →
       ∃ items,
         MoreExamples.lineage_sources (Examples.entry "t" true (timedelta_seconds 1000))
         = Some items ∧
         l.*1 = items.*1 ∧
         info_id <$> l.*2 = CatalogEntry.id <$> items.*2 ∧
         Forall (λ c, shows_derived c = false) l.*2) ∧
    (∀ l, info_derived i = Some l →
       info_id <$> l
       = CatalogEntry.id <$>
           Index.get_derived Examples.archived_family
             (CatalogEntry.id (Examples.entry "t" true (timedelta_seconds 1000))) ∧
       Forall (λ c, shows_sources c = false) l).
Proof.
  eexists. split; [vm_compute; reflexivity|].
  apply (build_dataset_info_branches Examples.archived_family (λ _, None)
           CatalogEntry.metadata_doc MoreExamples.lineage_sources
           (Examples.entry "t" true (timedelta_seconds 1000)) true true 1 99).
  vm_compute. reflexivity.
Defined.

Lemma get_datasets_spec (index : Index.t) (ids : list string) :
  get_datasets index ids
  = (omap (Index.get index) ids,
     List.filter (λ id_, bool_decide (Index.get index id_ = None)) ids).
Proof.
  induction ids as [|id_ ids IH]; [done|].
  simpl. rewrite IH. case_bool_decide as Hx; [by rewrite Hx|].
  by destruct (Index.get index id_).
Qed.

Lemma filter_omap_length {A B} (f : A → option B) (l : list A) :
  length (omap f l) + length (List.filter (λ x, bool_decide (f x = None)) l) = length l.
Proof.
  induction l as [|x l IH]; [done|]. simpl.
  change (list_omap A B f l) with (omap f l).
  case_bool_decide as Hx; [rewrite Hx|destruct (f x); [|done]]; simpl; lia.
Qed.

(** X17.  [info_cmd] exits with the number of identifiers the catalogue
    does not know, zero when every dataset was found.  It writes one
    document per dataset found, in the order of the identifiers given, and
    reports each missing one; documents and missing identifiers together
    account for every identifier, repeated ones included.  It fails only
    when [build_dataset_info] does. *)
Theorem info_cmd_exit_status (index : Index.t)
    (indexed_time : CatalogEntry.t → option Z) (search_fields : CatalogEntry.t → document)
    (sources : CatalogEntry.t → option (list (string * CatalogEntry.t)))
    (show_sources show_derived : bool) (max_depth : Z) (ids : list string) :
  match info_cmd index indexed_time search_fields sources
          show_sources show_derived max_depth ids with
  | Returned (infos, missing, status) =>
      info_id <$> infos = CatalogEntry.id <$> omap (Index.get index) ids ∧
      missing = List.filter (λ id_, bool_decide (Index.get index id_ = None)) ids ∧
      status = length missing ∧
      length infos + status = length ids ∧
      (status = 0 ↔ ∀ id_, id_ ∈ ids → is_Some (Index.get index id_))
  | Raised e => show_sources = true ∧ (1 < max_depth)%Z ∧ e = not_loaded
  end.
Proof.
  unfold info_cmd. rewrite get_datasets_spec.
  pose proof (filter_omap_length (Index.get index) ids) as Hlen.
  set (found := omap (Index.get index) ids) in *.
  set (missing := List.filter _ ids) in *.
  destruct (outcome_map _ found) as [infos|e] eqn:Hmap; simpl.
  - apply outcome_map_returned in Hmap.
    assert (Hids : info_id <$> infos = CatalogEntry.id <$> found).
    { clear Hlen. clearbody found.
      induction Hmap as [|d i ds is_ Hd _ IH]; [done|].
      destruct (build_at_root _ _ _ _ _ _ _ _ _ Hd) as [Hid _].
      csimpl. by rewrite Hid, IH. }
    split; [done|]. split; [done|]. split; [done|].
    split.
    { apply (f_equal length) in Hids. rewrite !length_fmap in Hids. lia. }
    split.
    + intros Hnone id_ Hin. destruct (Index.get index id_) eqn:Hget; [done|].
      assert (id_ ∈ missing) as Hm.
      { apply elem_of_filter_bool. split; [done|]. by apply bool_decide_eq_true. }
      destruct missing; [by apply elem_of_nil in Hm|done].
    + intros Hall. destruct missing as [|id_ missing'] eqn:Hm; [done|].
      assert (id_ ∈ missing) as Hin by (subst missing; rewrite Hm; apply list_elem_of_here).
      apply elem_of_filter_bool in Hin as [Hin Hnone].
      apply bool_decide_eq_true in Hnone. destruct (Hall id_ Hin) as [? ?]. congruence.
  - apply outcome_map_raised in Hmap as (d & _ & Hd).
    pose proof (build_at_spec index indexed_time search_fields sources
                  (Z.to_nat (max_depth - 1)) d show_sources show_derived) as Hb.
    unfold build_dataset_info in Hd. rewrite Hd in Hb. destruct Hb as [-> ->].
    split; [done|]. split; [|done].
    destruct (Z.to_nat (max_depth - 1)) eqn:Hn; [done|lia].
Qed.

(** ** Archiving *)

Lemma archive_calls_app events events' :
  archive_calls (events ++ events') = archive_calls events ++ archive_calls events'.
Proof. apply omap_app. Qed.

Lemma echo_archiving_calls to_process :
  archive_calls (echo_archiving to_process).1 = [].
Proof.
  induction to_process as [|[d|] rest IH]; simpl; [done| |done].
  by destruct (echo_archiving rest).
Qed.

Lemma echo_archiving_members to_process :
  match echo_archiving to_process with
  | (events, None) =>
      events = Archiving <$> omap id to_process ∧ Forall is_Some to_process
  | (_, Some e) =>
      None ∈ to_process ∧ e = AttributeError "'NoneType' object has no attribute 'type'"
  end.
Proof.
  induction to_process as [|[d|] rest IH]; simpl.
  - by split.
  - destruct (echo_archiving rest) as [events [e|]].
    + destruct IH as [? ->]. split; [by apply list_elem_of_further|done].
    + destruct IH as [-> ?]. split; [done|]. constructor; [by eexists|done].
  - split; [apply list_elem_of_here|done].
Qed.

(** X18.  [archive] without the derived datasets takes the identifiers one
    at a time.  Each is looked up in the catalogue as the calls before it
    have left it; for the dataset found, one line is written and, outside
    a dry run, [index.datasets.archive] is called with the identity of
    that dataset alone, in the order given; the catalogue left is the one
    these calls produce.  An identifier the catalogue does not know ends
    the command with an [AttributeError]; the identifiers before it stay
    archived and those after it are not looked at.  A dry run archives
    nothing and leaves the catalogue as it was. *)
Theorem archive_cmd_one_by_one {St : Type} (catalogue : Catalogue.t St)
    (pop : gset string → string) (fuel : nat) (dry_run : bool) (ids : list string)
    (st : St) :
  let state_after (entries : list CatalogEntry.t) :=
    if dry_run then st
    else foldl (λ s d, Catalogue.archive catalogue [CatalogEntry.id d] s) st entries in
  ∃ entries events st' e,
    archive_cmd catalogue pop fuel false dry_run ids st = Some (events, st', e) ∧
    events = flat_map (λ d, if dry_run then [Archiving d]
                            else [Archiving d; ArchiveCall [CatalogEntry.id d]]) entries ∧
    (∀ j d, entries !! j = Some d →
       ∃ id_, ids !! j = Some id_ ∧
         Index.get (Catalogue.view catalogue (state_after (take j entries))) id_ = Some d) ∧
    archive_calls events
    = (if dry_run then [] else (λ d, [CatalogEntry.id d]) <$> entries) ∧
    st' = state_after entries ∧
    st' = foldl (λ s c, Catalogue.archive catalogue c s) st (archive_calls events) ∧
    match e with
    | None => length entries = length ids
    | Some x =>
        x = AttributeError "'NoneType' object has no attribute 'type'" ∧
        ∃ id_,
          ids !! length entries = Some id_ ∧
          Index.get (Catalogue.view catalogue st') id_ = None
    end.
Proof.
  revert st. induction ids as [|id_ ids IH]; intros st state_after.
  { exists [], [], st, None. subst state_after.
    repeat split; try done;
      first [by destruct dry_run | intros j d Hj; by rewrite lookup_nil in Hj]. }
  cbn [archive_cmd]. cbn [mbind option_bind].
  destruct (Index.get (Catalogue.view catalogue st) id_) as [d|] eqn:Hget.
  - cbn [echo_archiving omap list_omap fmap option_fmap option_map].
    destruct dry_run; cbn [negb].
    + destruct (IH st) as (entries & events & st' & e & -> & -> & Hfound & Hcalls & Hst & Hst' & He).
      cbn [mbind option_bind]. cbn beta iota in *.
      exists (d :: entries), ([Archiving d] ++ flat_map (λ d, [Archiving d]) entries), st', e.
      split; [done|]. split; [done|]. split.
      { intros [|j] d' Hj.
        - injection Hj as <-. by exists id_.
        - simpl in Hj. destruct (Hfound j d' Hj) as (i & Hi & Hd). by exists i. }
      split.
      { rewrite archive_calls_app. by rewrite Hcalls. }
      split; [done|]. split.
      { rewrite archive_calls_app, Hcalls. done. }
      destruct e as [x|]; [|simpl; by rewrite He].
      destruct He as (-> & i & Hi & Hnone). split; [done|]. by exists i.
    + destruct (IH (Catalogue.archive catalogue [CatalogEntry.id d] st))
        as (entries & events & st' & e & -> & -> & Hfound & Hcalls & Hst & Hst' & He).
      cbn [mbind option_bind]. cbn beta iota in *.
      exists (d :: entries),
        ([Archiving d] ++ ArchiveCall [CatalogEntry.id d]
           :: flat_map (λ d, [Archiving d; ArchiveCall [CatalogEntry.id d]]) entries),
        st', e.
      split; [done|]. split; [done|]. split.
      { intros [|j] d' Hj.
        - injection Hj as <-. by exists id_.
        - simpl in Hj. destruct (Hfound j d' Hj) as (i & Hi & Hd). by exists i. }
      split.
      { cbn [archive_calls omap list_omap app].
        fold (archive_calls (flat_map (λ d, [Archiving d; ArchiveCall [CatalogEntry.id d]])
                               entries)).
        by rewrite Hcalls. }
      split; [done|]. split.
      { cbn [archive_calls omap list_omap app].
        fold (archive_calls (flat_map (λ d, [Archiving d; ArchiveCall [CatalogEntry.id d]])
                               entries)).
        done. }
      destruct e as [x|]; [|simpl; by rewrite He].
      destruct He as (-> & i & Hi & Hnone). split; [done|]. by exists i.
  - cbn [echo_archiving].
    exists [], [], st, (Some (AttributeError "'NoneType' object has no attribute 'type'")).
    subst state_after. split; [done|]. split; [done|]. split.
    { intros j d Hj. by rewrite lookup_nil in Hj. }
    split; [by destruct dry_run|]. split; [by destruct dry_run|]. split; [done|].
    split; [done|]. by exists id_.
Qed.

Lemma echo_archiving_present to_process :
  Forall is_Some to_process →
  echo_archiving to_process = (Archiving <$> omap id to_process, None).
Proof.
  induction 1 as [|[d|] rest [? Hd] _ IH]; [done| |done].
  simpl. by rewrite IH.
Qed.

Lemma omap_entry_ids (to_process : list (option CatalogEntry.t)) :
  omap (fmap CatalogEntry.id) to_process = CatalogEntry.id <$> omap id to_process.
Proof.
  induction to_process as [|[d|] rest IH]; [done| |done].
  csimpl. by rewrite IH.
Qed.

(** X19.  [archive] with the derived datasets, for a known identifier of
    a catalogue without derivation cycles: one line is written for the
    dataset and for each dataset derived from it, directly or not, and
    nothing else; outside a dry run their identifiers are archived
    together, in one call, and in a dry run nothing is archived. *)
Theorem archive_cmd_derived {St : Type} (catalogue : Catalogue.t St)
    (pop : gset string → string) (rank : string → nat) (fuel : nat) (dry_run : bool)
    (id_ : string) (target : CatalogEntry.t) (st : St) :
  (∀ s, s ≠ ∅ → pop s ∈ s) →
  (∀ x d, d ∈ Index.get_derived (Catalogue.view catalogue st) x →
          rank (CatalogEntry.id d) < rank x) →
  paths (Catalogue.view catalogue st) (rank id_) id_ ≤ fuel →
  Index.get (Catalogue.view catalogue st) id_ = Some target →
  ∃ entries,
    (∀ d, d ∈ entries ↔
          d = target ∨ derived_from (Catalogue.view catalogue st) id_ d) ∧
    archive_cmd catalogue pop fuel true dry_run [id_] st
    = Some (if dry_run then (Archiving <$> entries, st, None)
            else ((Archiving <$> entries) ++ [ArchiveCall (CatalogEntry.id <$> entries)],
                  Catalogue.archive catalogue (CatalogEntry.id <$> entries) st, None)).
Proof.
  intros Hpop Hrank Hfuel Hget.
  destruct (get_derived_set_returns pop _ Hpop rank Hrank fuel id_ Hfuel)
    as (derived_set & calls & Hloop & Hset).
  assert (Hall : Forall is_Some derived_set).
  { apply Forall_forall. intros e He.
    apply Hset in He as [->|(d & -> & _)]; [by rewrite Hget|done]. }
  exists (omap id derived_set). split.
  - intros d. rewrite list_elem_of_omap. split.
    + intros ([d'|] & Hin & Hd); simplify_eq/=.
      apply Hset in Hin as [Heq|(d' & [= <-] & ?)]; [|by right].
      left. congruence.
    + intros [->|Hd]; (eexists; split; [apply Hset|reflexivity]); [left|right]; eauto.
  - cbn [archive_cmd]. rewrite Hloop. cbn [mbind option_bind fmap option_fmap option_map fst].
    rewrite echo_archiving_present by done. rewrite omap_entry_ids.
    destruct dry_run; cbn [negb mbind option_bind]; [by rewrite app_nil_r|done].
Qed.

Lemma shelf_rank_decreases st x d :
  d ∈ Index.get_derived (Catalogue.view MoreExamples.shelf st) x →
  Examples.family_rank (CatalogEntry.id d) < Examples.family_rank x.
Proof.
  simpl. destruct (String.eqb x "t") eqn:Ht.
  - apply String.eqb_eq in Ht as ->. intros Hd.
    apply elem_of_cons in Hd as [->|Hd]; [vm_compute; lia|].
    apply list_elem_of_singleton in Hd as ->. vm_compute; lia.
  - intros Hd. by apply elem_of_nil in Hd.
Qed.

Lemma archive_cmd_derived_witness :
  ∃ entries,
    (∀ d, d ∈ entries ↔
          d = Examples.entry "t" false 0
          ∨ derived_from (Catalogue.view MoreExamples.shelf []) "t" d) ∧
    archive_cmd MoreExamples.shelf Examples.pop_first 3 true false ["t"] []
    = Some ((Archiving <$> entries) ++ [ArchiveCall (CatalogEntry.id <$> entries)],
            Catalogue.archive MoreExamples.shelf (CatalogEntry.id <$> entries) [], None).
Proof.
  apply (archive_cmd_derived MoreExamples.shelf Examples.pop_first Examples.family_rank
           3 false "t" (Examples.entry "t" false 0) []).
  - apply pop_first_elem.
  - apply shelf_rank_decreases.
  - vm_compute. lia.
  - reflexivity.
Defined.

(** ** Updating *)

Lemma count_events_app {A} (p : A → bool) l l' :
  count_events p (l ++ l') = count_events p l + count_events p l'.
Proof. unfold count_events. by rewrite List.filter_app, length_app. Qed.

Lemma count_events_none {A B} (p : B → bool) (f : A → B) (l : list A) :
  (∀ x, p (f x) = false) → count_events p (f <$> l) = 0.
Proof.
  intros Hp. unfold count_events. induction l as [|x l IH]; [done|].
  csimpl. by rewrite Hp.
Qed.

Lemma count_events_all {A B} (p : B → bool) (f : A → B) (l : list A) :
  (∀ x, p (f x) = true) → count_events p (f <$> l) = length l.
Proof.
  intros Hp. unfold count_events. induction l as [|x l IH]; [done|].
  csimpl. rewrite Hp. simpl. by rewrite IH.
Qed.

Lemma loc_action_events dry_run reply action new_ds existing_ds name ret events :
  loc_action dry_run reply action new_ds existing_ds name = Returned (ret, events) →
  count_events is_location_call (LocationStep <$> events) ≤ 1 ∧
  (dry_run = true → count_events is_location_call (LocationStep <$> events) = 0).
Proof.
  unfold loc_action.
  destruct (CatalogEntry.uris existing_ds) as [|old [|old' rest]]; simpl.
  - intros [= <- <-]. split; [vm_compute; lia|done].
  - destruct (Dataset.uris new_ds) as [|new [|new' rest']]; try done.
    destruct (String.eqb new old).
    + intros [= <- <-]. split; [vm_compute; lia|done].
    + destruct dry_run; intros [= <- <-]; (split; [vm_compute; lia|done]).
  - intros [= <- <-]. split; [vm_compute; lia|done].
Qed.

Lemma update_loc_events dry_run reply policy new_ds existing_ds ret events :
  update_loc dry_run reply policy new_ds existing_ds = Returned (ret, events) →
  count_events is_location_call (LocationStep <$> events) ≤ 1 ∧
  (dry_run = true → count_events is_location_call (LocationStep <$> events) = 0) ∧
  (policy = keep → events = []).
Proof.
  destruct policy; simpl.
  - unfold loc_keep. intros [= <- <-]. split; [vm_compute; lia|done].
  - unfold loc_archive. intros H. destruct (loc_action_events _ _ _ _ _ _ _ _ H). by repeat split.
  - unfold loc_forget. intros H. destruct (loc_action_events _ _ _ _ _ _ _ _ H). by repeat split.
Qed.

Lemma after_location_dry {St} (catalogue : Catalogue.t St) events st :
  count_events is_location_call (LocationStep <$> events) = 0 →
  after_location catalogue events st = st.
Proof.
  unfold after_location. revert st. induction events as [|ev events IH]; intros st; [done|].
  destruct ev; simpl; try apply IH. done.
Qed.

(** Counts over event lists that are given explicitly. *)
Ltac count_concrete :=
  unfold count_events; simpl; repeat split; intros; try done; try lia.

Section UpdateFacts.
Context {St : Type}.
Variable catalogue : Catalogue.t St.
Variable dry_run : bool.
Variable policy : location_policy.
Variable updates_allowed : gset (list string).

Local Abbreviation update_one' := (update_one catalogue dry_run policy updates_allowed).
Local Abbreviation update_loop' := (update_loop catalogue dry_run policy updates_allowed).

(** One pair of the generator. *)
Lemma update_one_spec dataset existing_ds st uri :
  Dataset.uris dataset = [uri] →
  ∃ ok events st',
    update_one' dataset existing_ds st = Returned (ok, events, st') ∧
    count_events is_load_log events = 0 ∧
    count_events is_location_call events ≤ 1 ∧
    (policy = keep → count_events is_location_call events = 0) ∧
    (dry_run = false →
       count_events is_update_call events = 1 ∧
       count_events is_can_update_call events = 0 ∧
       count_events is_updated events = (if ok then 1 else 0) ∧
       count_events is_failed_to_update events = (if ok then 0 else 1) ∧
       (ok = false → st' = st ∧ count_events is_location_call events = 0)) ∧
    (dry_run = true →
       st' = st ∧
       count_events is_update_call events = 0 ∧
       count_events is_can_update_call events = 1 ∧
       count_events is_location_call events = 0).
Proof.
  intros Huris. unfold update_one. destruct dry_run; cbn [negb].
  - unfold update_dry_run.
    destruct (update_loc_returns true
                (λ action id uri, (Catalogue.location catalogue action id uri st).1)
                policy dataset existing_ds uri Huris) as [[ret events'] Hloc].
    destruct (update_loc_events _ _ _ _ _ _ _ Hloc) as (Hle & Hdry & Hkeep).
    specialize (Hdry eq_refl).
    destruct (Catalogue.can_update catalogue dataset updates_allowed st)
      as [e|[[[] safe] unsafe]].
    + eexists _, _, _. split; [done|]. count_concrete.
    + rewrite Hloc. simpl. eexists _, _, _. split; [done|].
      change (?a :: ?b :: ?l) with ([a; b] ++ l).
      rewrite !count_events_app, Hdry.
      rewrite (count_events_none is_load_log) by by intros [].
      rewrite (count_events_none is_update_call) by by intros [].
      rewrite (count_events_none is_can_update_call) by by intros [].
      count_concrete.
    + eexists _, _, _. split; [done|]. count_concrete.
  - destruct (Catalogue.update catalogue dataset updates_allowed st) as [e|st1].
    { eexists _, _, _. split; [done|]. count_concrete. }
    destruct (update_loc_returns false
                (λ action id uri, (Catalogue.location catalogue action id uri st1).1)
                policy dataset existing_ds uri Huris) as [[ret events'] Hloc].
    destruct (update_loc_events _ _ _ _ _ _ _ Hloc) as (Hle & _ & Hkeep).
    rewrite Hloc. eexists _, _, _. split; [done|].
    change (UpdateCall dataset :: ?l) with ([UpdateCall dataset] ++ l).
    rewrite !count_events_app.
    rewrite (count_events_none is_load_log) by by intros [].
    rewrite (count_events_none is_update_call) by by intros [].
    rewrite (count_events_none is_can_update_call) by by intros [].
    rewrite (count_events_none is_updated) by by intros [].
    rewrite (count_events_none is_failed_to_update) by by intros [].
    assert (Hk0 : policy = keep →
                  count_events is_location_call (LocationStep <$> events') = 0).
    { intros Hk. by rewrite (Hkeep Hk). }
    set (n := count_events is_location_call (LocationStep <$> events')) in *.
    clearbody n. count_concrete. rewrite Hk0 by done. lia.
Qed.

Lemma update_loop_spec docs : ∀ st success fail,
  ∃ events st' s f,
    update_loop' docs st success fail = Returned (events, st', success + s, fail + f) ∧
    s + f + count_events is_load_log events = length docs ∧
    (policy = keep → count_events is_location_call events = 0) ∧
    count_events is_location_call events ≤ s ∧
    (dry_run = false →
       count_events is_update_call events = s + f ∧
       count_events is_can_update_call events = 0 ∧
       count_events is_updated events = s ∧
       count_events is_failed_to_update events = f) ∧
    (dry_run = true →
       st' = st ∧
       count_events is_update_call events = 0 ∧
       count_events is_can_update_call events = s + f ∧
       count_events is_location_call events = 0).
Proof.
  induction docs as [|[uri doc] docs IH]; intros st success fail.
  { exists [], st, 0, 0. simpl. rewrite !Nat.add_0_r. by repeat split. }
  cbn [update_loop].
  pose proof (load_for_update_step_one (Catalogue.view catalogue st) uri doc) as Hone.
  destruct (load_for_update_step (Catalogue.view catalogue st) uri doc)
    as [[[dataset existing_ds]|] log] eqn:Hstep; simpl in Hone.
  - apply load_for_update_step_yields in Hstep as (-> & uuid & _ & _ & Hds & _).
    destruct (update_one_spec dataset existing_ds st uri) as
      (ok & events & st1 & -> & Hlog & Hloc1 & Hkeep & Hwet & Hdry); [by rewrite Hds|].
    cbn [mbind outcome_bind].
    destruct ok.
    + destruct (IH st1 (success + 1) fail) as (events' & st' & s & f & -> & Hacc & Hk' & Hl' & Hw' & Hd').
      cbn [mbind outcome_bind].
      exists ([] ++ events ++ events'), st', (S s), f.
      split; [by replace (success + S s) with (success + 1 + s) by lia|].
      rewrite !count_events_app. simpl length.
      split; [unfold count_events at 1; simpl; lia|].
      split; [intros Hk; rewrite (Hkeep Hk), (Hk' Hk); done|].
      split; [unfold count_events at 1; simpl; lia|].
      split.
      * intros Hf. destruct (Hwet Hf) as (-> & -> & -> & -> & _).
        destruct (Hw' Hf) as (-> & -> & -> & ->).
        unfold count_events; simpl. repeat split; lia.
      * intros Ht. destruct (Hdry Ht) as (-> & -> & -> & ->).
        destruct (Hd' Ht) as (-> & -> & -> & ->).
        unfold count_events; simpl. repeat split; lia.
    + destruct (IH st1 success (fail + 1)) as (events' & st' & s & f & -> & Hacc & Hk' & Hl' & Hw' & Hd').
      cbn [mbind outcome_bind].
      exists ([] ++ events ++ events'), st', s, (S f).
      split; [by replace (fail + S f) with (fail + 1 + f) by lia|].
      rewrite !count_events_app. simpl length.
      split; [unfold count_events at 1; simpl; lia|].
      split; [intros Hk; rewrite (Hkeep Hk), (Hk' Hk); done|].
      assert (count_events is_location_call events = 0) as Hnoloc.
      { destruct dry_run eqn:Hdr.
        - by destruct (Hdry eq_refl) as (_ & _ & _ & ?).
        - destruct (Hwet eq_refl) as (_ & _ & _ & _ & Hfail). by destruct (Hfail eq_refl). }
      split; [unfold count_events at 1; simpl; lia|].
      split.
      * intros Hf. destruct (Hwet Hf) as (-> & -> & -> & -> & _).
        destruct (Hw' Hf) as (-> & -> & -> & ->).
        unfold count_events; simpl. repeat split; lia.
      * intros Ht. destruct (Hdry Ht) as (-> & -> & -> & ->).
        destruct (Hd' Ht) as (-> & -> & -> & ->).
        unfold count_events; simpl. repeat split; lia.
  - destruct (IH st success fail) as (events' & st' & s & f & -> & Hacc & Hk' & Hl' & Hw' & Hd').
    cbn [mbind outcome_bind].
    exists ((LoadLog <$> log) ++ events'), st', s, f.
    split; [done|].
    rewrite !count_events_app.
    rewrite (count_events_all is_load_log) by done.
    rewrite (count_events_none is_location_call) by done.
    rewrite (count_events_none is_update_call) by done.
    rewrite (count_events_none is_can_update_call) by done.
    rewrite (count_events_none is_updated) by done.
    rewrite (count_events_none is_failed_to_update) by done.
    rewrite !Nat.add_0_l. split; [simpl length; lia|].
    split; [exact Hk'|]. split; [exact Hl'|]. split; [exact Hw'|exact Hd'].
Qed.
End UpdateFacts.


(** X21.  A dry run of [update_cmd] changes nothing: the catalogue is left
    as it was found, [update] is never called, and no location is archived
    or removed, whatever the location policy. *)
Theorem update_cmd_dry_run {St : Type} (catalogue : Catalogue.t St)
    (keys_that_can_change : list string) (policy : location_policy)
    (datasets : list (string * SimpleDocNav.t)) (st : St) :
  ∃ events,
    update_cmd catalogue keys_that_can_change true policy datasets st
    = Returned (events, st) ∧
    count_events is_update_call events = 0 ∧
    count_events is_location_call events = 0.
Proof.
  unfold update_cmd.
  destruct (update_loop_spec catalogue true policy
              (parse_update_rules keys_that_can_change) datasets st 0 0)
    as (events & st' & s & f & -> & _ & _ & _ & _ & Hdry).
  destruct (Hdry eq_refl) as (-> & Hup & _ & Hloc).
  eexists. split; [done|]. rewrite !count_events_app, Hup, Hloc. by split.
Qed.

(** X22.  [update_cmd] touches old locations sparingly: the location calls
    never outnumber the successes of the summary, and under the policy
    [keep] there is none at all.  A dataset whose [update] fails is reported
    as failed and nothing more is done for it: no location call, and the
    catalogue as it was. *)
Theorem update_cmd_location_calls {St : Type} (catalogue : Catalogue.t St)
    (keys_that_can_change : list string) (dry_run : bool) (policy : location_policy)
    (datasets : list (string * SimpleDocNav.t)) (st : St) :
  ∃ events st' success fail,
    update_cmd catalogue keys_that_can_change dry_run policy datasets st
    = Returned (events ++ [Summary success fail], st') ∧
    count_events is_location_call events ≤ success ∧
    (policy = keep → count_events is_location_call events = 0) ∧
    (∀ updates_allowed dataset existing_ds st0 e,
       Catalogue.update catalogue dataset updates_allowed st0 = inl e →
       update_one catalogue false policy updates_allowed dataset existing_ds st0
       = Returned (false, [UpdateCall dataset; FailedToUpdate (Dataset.id dataset) e], st0)).
Proof.
  unfold update_cmd.
  destruct (update_loop_spec catalogue dry_run policy
              (parse_update_rules keys_that_can_change) datasets st 0 0)
    as (events & st' & s & f & -> & _ & Hkeep & Hle & _ & _).
  exists events, st', s, f. split; [done|]. split; [done|]. split; [done|].
  intros ua dataset existing_ds st0 e Hup. unfold update_one. simpl. by rewrite Hup.
Qed.

(** ** Update rules *)

Lemma split_dots_cons s : ∃ word words, split_dots s = word :: words.
Proof.
  induction s as [|c s (word & words & IH)]; simpl; [by eauto|].
  destruct (Ascii.eqb c "."); [by eauto|]. rewrite IH. eauto.
Qed.

Lemma join_split_dots s : join_dots (split_dots s) = s.
Proof.
  induction s as [|c s IH]; [done|]. simpl.
  destruct (Ascii.eqb c ".") eqn:Hc.
  - apply Ascii.eqb_eq in Hc as ->.
    destruct (split_dots_cons s) as (word & words & Hs). rewrite Hs in *.
    change (join_dots ("" :: word :: words))
      with (String.append "" (String "." (join_dots (word :: words)))).
    by rewrite IH.
  - destruct (split_dots_cons s) as (word & words & Hs). rewrite Hs in *.
    destruct words as [|w ws]; [simpl in *; by rewrite IH|].
    change (join_dots (String c word :: w :: ws))
      with (String c (String.append word (String "." (join_dots (w :: ws))))).
    change (join_dots (word :: w :: ws))
      with (String.append word (String "." (join_dots (w :: ws)))) in IH.
    by rewrite IH.
Qed.

Lemma split_dots_words s : Forall (λ word, has_dot word = false) (split_dots s).
Proof.
  induction s as [|c s IH]; simpl; [by repeat constructor|].
  destruct (Ascii.eqb c ".") eqn:Hc; [by constructor|].
  destruct (split_dots_cons s) as (word & words & Hs). rewrite Hs in *.
  inversion IH; subst. constructor; [|done]. simpl. by rewrite Hc.
Qed.

Lemma split_dots_word word :
  has_dot word = false → split_dots word = [word].
Proof.
  induction word as [|c word IH]; [done|]. simpl.
  intros [Hc Hw]%orb_false_iff. by rewrite Hc, (IH Hw).
Qed.

Lemma split_dots_append word rest :
  has_dot word = false →
  split_dots (String.append word (String "." rest)) = word :: split_dots rest.
Proof.
  induction word as [|c word IH]; [done|]. simpl.
  intros [Hc Hw]%orb_false_iff. by rewrite Hc, (IH Hw).
Qed.

Lemma split_join_dots offset :
  offset ≠ [] → Forall (λ word, has_dot word = false) offset →
  split_dots (join_dots offset) = offset.
Proof.
  intros Hne Hall. induction Hall as [|word words Hword Hwords IH]; [done|].
  clear Hne. destruct words as [|w ws].
  - by apply split_dots_word.
  - change (join_dots (word :: w :: ws))
      with (String.append word (String "." (join_dots (w :: ws)))).
    rewrite split_dots_append by done. by rewrite IH.
Qed.

Lemma elem_of_parse_update_rules keys offset :
  offset ∈ parse_update_rules keys ↔ ∃ key_str, key_str ∈ keys ∧ offset = split_dots key_str.
Proof.
  unfold parse_update_rules.
  assert (H : ∀ acc : gset (list string),
            offset ∈ foldl (λ ua k, {[split_dots k]} ∪ ua) acc keys ↔
            offset ∈ acc ∨ ∃ k, k ∈ keys ∧ offset = split_dots k).
  { induction keys as [|k keys IH]; intros acc; simpl.
    - split; [auto|]. intros [?|(k & Hk & _)]; [done|]. by apply elem_of_nil in Hk.
    - rewrite IH, elem_of_union, elem_of_singleton. split.
      + intros [[->|?]|(k' & ? & ?)]; auto.
        * right. exists k. split; [apply list_elem_of_here|done].
        * right. exists k'. split; [by apply list_elem_of_further|done].
      + intros [?|(k' & Hk' & ->)]; auto.
        apply elem_of_cons in Hk' as [->|?]; eauto. }
  rewrite H. split; [intros [?|?]; [set_solver|done]|auto].
Qed.

Lemma split_dots_inj : Inj (=) (=) split_dots.
Proof.
  intros k k' Heq. apply (f_equal join_dots) in Heq. by rewrite !join_split_dots in Heq.
Qed.

Lemma set_map_size_inj (f : string → list string) (X : gset string) :
  Inj (=) (=) f → size (set_map f X : gset (list string)) = size X.
Proof.
  intros Hinj. induction X as [|x X Hx IH] using set_ind_L.
  - by rewrite set_map_empty, !size_empty.
  - rewrite set_map_union_L, set_map_singleton_L.
    rewrite !size_union, !size_singleton, IH; [done|set_solver|].
    apply disjoint_singleton_l. rewrite elem_of_map.
    intros (y & Hy & ?). apply Hinj in Hy as ->. done.
Qed.

(** X23.  The table of allowed updates has one offset for each distinct
    key given: a key a.b.c gives the offset (a, b, c), the key is found
    back by joining its offset with dots, so different keys never share an
    offset; an offset is never empty, and its words have no dot.  Every
    such tuple of words is the offset of the key that joins them. *)
Theorem parse_update_rules_offsets (keys_that_can_change : list string) :
  (∀ offset, offset ∈ parse_update_rules keys_that_can_change ↔
             ∃ key_str, key_str ∈ keys_that_can_change ∧ offset = split_dots key_str) ∧
  (∀ offset, offset ∈ parse_update_rules keys_that_can_change →
             offset ≠ [] ∧ Forall (λ word, has_dot word = false) offset ∧
             join_dots offset ∈ keys_that_can_change) ∧
  size (parse_update_rules keys_that_can_change)
  = size (list_to_set keys_that_can_change : gset string) ∧
  (∀ offset, offset ≠ [] → Forall (λ word, has_dot word = false) offset →
             join_dots offset ∈ keys_that_can_change →
             offset ∈ parse_update_rules keys_that_can_change).
Proof.
  split; [apply elem_of_parse_update_rules|]. split; [|split].
  - intros offset (k & Hk & ->)%elem_of_parse_update_rules.
    split; [by destruct (split_dots_cons k) as (? & ? & ->)|].
    split; [apply split_dots_words|]. by rewrite join_split_dots.
  - assert (Heq : parse_update_rules keys_that_can_change
                  = set_map split_dots (list_to_set keys_that_can_change : gset string)).
    { apply set_eq. intros offset. rewrite elem_of_parse_update_rules, elem_of_map.
      split; intros (k & ? & ?); exists k; set_solver. }
    rewrite Heq. apply set_map_size_inj, split_dots_inj.
  - intros offset Hne Hall Hin. apply elem_of_parse_update_rules.
    exists (join_dots offset). split; [done|]. by rewrite split_join_dots.
Qed.

(** ** Adding *)



Section IndexFacts.
Context {St : Type}.
Variable catalogue : Catalogue.t St.





End IndexFacts.




(** ** Restoring several datasets *)



(** ** The commands on the example catalogue *)

(** Adding a Landsat scene: it is matched and passed to [add] with its
    lineage. *)
Example index_cmd_example :
  ∃ dataset,
    index_cmd MoreExamples.shelf MoreExamples.product_catalogue ["ls8_scene"]
      true true false false false false false
      [("file:///a.yaml", MoreExamples.scene "a")] []
    = inr ([Matched dataset; AddCall dataset true], [], None) ∧
    (Dataset.type <$> root_dataset dataset) = Some Examples.landsat ∧
    (Dataset.uris <$> root_dataset dataset) = Some ["file:///a.yaml"].
Proof. eexists. split; [by vm_compute|]. split; by vm_compute. Qed.

(** Ignoring lineage without confirmation, away from a terminal. *)
Example index_cmd_not_interactive :
  index_cmd MoreExamples.shelf MoreExamples.product_catalogue [] true true false
    true false false false [("file:///a.yaml", MoreExamples.scene "a")] []
  = inl NotInteractive.
Proof. reflexivity. Qed.

(** Updating the target of the example catalogue from a new location: the
    dataset has no location on record, so none is archived. *)
Example update_cmd_example :
  ∃ dataset,
    update_cmd MoreExamples.shelf ["platform.code"] false archive
      [("file:///t.yaml", MoreExamples.scene "t");
       ("file:///u.yaml", MoreExamples.scene "u")] []
    = Returned ([UpdateCall dataset; Updated (Some (VStr "t"));
                 LoadLog (FailureWhileProcessing "file:///u.yaml"
                            "No such dataset in the database: u");
                 Summary 1 0], []) ∧
    Dataset.uris dataset = ["file:///t.yaml"].
Proof. eexists. split; by vm_compute. Qed.

(** Archiving the target and an identifier the catalogue does not know. *)
Example archive_cmd_example :
  archive_cmd MoreExamples.shelf Examples.pop_first 0 false false ["t"; "unknown"; "t"] []
  = Some ([Archiving (Examples.entry "t" false 0); ArchiveCall ["t"]], ["t"],
          Some (AttributeError "'NoneType' object has no attribute 'type'")).
Proof. reflexivity. Qed.

(** ** The document stream *)

Section DocStreamFacts.
Variable get_metadata_path : string → outcome string.
Variable read_documents : string → list (string * value) * option (string + exn).
Variable nav : value → outcome SimpleDocNav.t.

Local Abbreviation ui_stream := (ui_doc_path_stream get_metadata_path read_documents nav).

Lemma yielded_app {L A} (s s' : list (L + A)) :
  yielded (s ++ s') = yielded s ++ yielded s'.
Proof. apply omap_app. Qed.

Lemma stream_logged_app {L A} (s s' : list (L + A)) :
  stream_logged (s ++ s') = stream_logged s ++ stream_logged s'.
Proof. apply omap_app. Qed.

Lemma yielded_items {L A} (out : list A) :
  yielded (inr <$> out : list (L + A)) = out ∧
  stream_logged (inr <$> out : list (L + A)) = [].
Proof.
  induction out as [|x out [IH1 IH2]]; [done|].
  split; csimpl; [by rewrite IH1|done].
Qed.

(** The stream over a path and the paths after it. *)
Lemma ui_doc_path_stream_cons p rest :
  ui_stream (p :: rest)
  = match get_metadata_path p with
    | Returned file =>
        let '(docs, failure) := read_documents file in
        match navigators nav docs with
        | (out, Some e) => (inr <$> out, Some e)
        | (out, None) =>
            match failure with
            | None => stream_then (inr <$> out) (ui_stream rest)
            | Some (inl e) =>
                stream_then ((inr <$> out) ++ [inl (FailedReading file)]) (ui_stream rest)
            | Some (inr e) => (inr <$> out, Some e)
            end
        end
    | Raised (ValueError e) => stream_then [inl (NoMetadataDocs p)] (ui_stream rest)
    | Raised e => ([], Some e)
    end.
Proof.
  unfold ui_doc_path_stream, doc_path_stream. cbn [resolve_doc_files].
  destruct (get_metadata_path p) as [file|[]]; try done.
Qed.

Lemma navigators_clean docs :
  Forall (λ doc : string * value, ∃ n, nav doc.2 = Returned n) docs →
  ∃ out, navigators nav docs = (out, None) ∧
         Forall2 (λ doc item, item.1 = doc.1 ∧ nav doc.2 = Returned item.2) docs out.
Proof.
  induction 1 as [|[p doc] docs [n Hn] _ (out & Hout & Hall)]; [by exists []|].
  exists ((p, n) :: out). simpl in *. rewrite Hn, Hout. split; [done|].
  by constructor.
Qed.

Lemma navigators_prefix docs out e :
  navigators nav docs = (out, e) →
  ∃ read, read `prefix_of` docs ∧
    Forall2 (λ doc item, item.1 = doc.1 ∧ nav doc.2 = Returned item.2) read out ∧
    match e with
    | None => read = docs
    | Some x => ∃ doc, docs !! length read = Some doc ∧ nav doc.2 = Raised x
    end.
Proof.
  revert out. induction docs as [|[p doc] docs IH]; intros out; simpl.
  - intros [= <- <-]. exists []. by repeat split.
  - destruct (nav doc) as [n|x] eqn:Hn.
    + destruct (navigators nav docs) as [out' e'] eqn:Hrest. intros [= <- <-].
      destruct (IH out' eq_refl) as (read & Hpre & Hall & He).
      exists ((p, doc) :: read). split; [by apply prefix_cons|].
      split; [by constructor|]. destruct e'; [done|by rewrite He].
    + intros [= <- <-]. exists []. split; [apply prefix_nil|]. split; [constructor|].
      by exists (p, doc).
Qed.

(** X28.  [ui_doc_path_stream] goes through the paths in order.  A path
    for which [get_metadata_path] raises [ValueError] is logged and
    skipped; the documents of a metadata file are yielded in the order they
    are read, each as [SimpleDocNav] makes it; a file whose reading ends
    in [InvalidDocException] is logged after the documents read from it
    before, which are kept.  When no other exception occurs the stream ends
    normally, having yielded the documents of every file and logged one
    line per bad path or file.  Nothing else is caught: a document
    [SimpleDocNav] rejects, as it does one that is not a mapping, or
    another exception of [get_metadata_path] or [read_documents], ends the
    stream with that exception at the first path where one occurs, after
    what the paths before it and the documents before it have yielded and
    logged. *)
Theorem ui_doc_path_stream_events (paths : list string) :
  let documents p :=
    match get_metadata_path p with
    | Returned file => (navigators nav (read_documents file).1).1
    | Raised _ => []
    end in
  let logged p :=
    match get_metadata_path p with
    | Returned file =>
        match (read_documents file).2 with
        | Some (inl _) => [FailedReading file]
        | _ => []
        end
    | Raised _ => [NoMetadataDocs p]
    end in
  (Forall (reads_cleanly get_metadata_path read_documents nav) paths →
   (ui_stream paths).2 = None ∧
   yielded (ui_stream paths).1 = flat_map documents paths ∧
   stream_logged (ui_stream paths).1 = flat_map logged paths) ∧
  (∀ e, (ui_stream paths).2 = Some e →
     ∃ before p after out,
       paths = before ++ p :: after ∧
       Forall (reads_cleanly get_metadata_path read_documents nav) before ∧
       escapes_at get_metadata_path read_documents nav p out e ∧
       yielded (ui_stream paths).1 = flat_map documents before ++ out ∧
       stream_logged (ui_stream paths).1 = flat_map logged before) ∧
  (∀ p file item,
     p ∈ paths → get_metadata_path p = Returned file →
     item ∈ (navigators nav (read_documents file).1).1 →
     ∃ doc, (item.1, doc) ∈ (read_documents file).1 ∧ nav doc = Returned item.2).
Proof.
  intros documents logged. split; [|split].
  - induction 1 as [|p rest Hp _ (Hend & Hy & Hl)]; [done|].
    rewrite ui_doc_path_stream_cons. unfold reads_cleanly in Hp.
    cbn [flat_map]. subst documents logged. cbn beta in *.
    destruct (get_metadata_path p) as [file|e].
    + destruct (read_documents file) as [docs failure]. simpl in Hp.
      destruct Hp as [Hfail Hdocs].
      destruct (navigators_clean docs Hdocs) as (out & Hnav & _). rewrite Hnav. simpl.
      destruct failure as [[msg|x]|]; [| by destruct (Hfail x) |].
      * unfold stream_then. simpl. split; [done|].
        rewrite !yielded_app, !stream_logged_app.
        destruct (yielded_items (L:=stream_log) out) as [-> ->].
        rewrite Hy, Hl, Hnav. simpl. by rewrite app_nil_r.
      * unfold stream_then. simpl. split; [done|].
        rewrite !yielded_app, !stream_logged_app.
        destruct (yielded_items (L:=stream_log) out) as [-> ->].
        rewrite Hy, Hl, Hnav. done.
    + destruct Hp as [msg ->]. unfold stream_then. simpl. by rewrite Hy, Hl.
  - induction paths as [|p rest IH]; intros e; [done|].
    rewrite ui_doc_path_stream_cons.
    assert (Hrest : ∀ s,
      yielded s = documents p → stream_logged s = logged p →
      reads_cleanly get_metadata_path read_documents nav p →
      (stream_then s (ui_stream rest)).2 = Some e →
      ∃ before p0 after out,
        p :: rest = before ++ p0 :: after ∧
        Forall (reads_cleanly get_metadata_path read_documents nav) before ∧
        escapes_at get_metadata_path read_documents nav p0 out e ∧
        yielded (stream_then s (ui_stream rest)).1 = flat_map documents before ++ out ∧
        stream_logged (stream_then s (ui_stream rest)).1 = flat_map logged before).
    { intros s Hy Hl Hp He. simpl in He.
      destruct (IH e He) as (before & p0 & after & out & -> & Hclean & Hesc & Hy' & Hl').
      exists (p :: before), p0, after, out. split; [done|]. split; [by constructor|].
      split; [done|]. unfold stream_then. simpl.
      rewrite yielded_app, stream_logged_app, Hy, Hl, Hy', Hl'.
      by rewrite app_assoc. }
    assert (Hhere : ∀ out,
      escapes_at get_metadata_path read_documents nav p out e →
      ∃ before p0 after out0,
        p :: rest = before ++ p0 :: after ∧
        Forall (reads_cleanly get_metadata_path read_documents nav) before ∧
        escapes_at get_metadata_path read_documents nav p0 out0 e ∧
        yielded (inr <$> out : list (stream_log + _)) = flat_map documents before ++ out0 ∧
        stream_logged (inr <$> out : list (stream_log + _)) = flat_map logged before).
    { intros out Hesc. exists [], p, rest, out. split; [done|]. split; [done|].
      split; [done|]. by destruct (yielded_items (L:=stream_log) out) as [-> ->]. }
    unfold reads_cleanly, escapes_at in *. subst documents logged. cbn beta in *.
    destruct (get_metadata_path p) as [file|x].
    + destruct (read_documents file) as [docs failure] eqn:Hread. simpl in *.
      destruct (navigators nav docs) as [out [x|]] eqn:Hnav.
      * intros [= ->]. apply Hhere. by left.
      * destruct (navigators_prefix docs out None Hnav) as (read & _ & Hall & ->).
        assert (Hdocs : Forall (λ doc : string * value, ∃ n, nav doc.2 = Returned n) docs).
        { clear -Hall. induction Hall as [|doc item docs out [_ Hn] _ IHall];
            constructor; [by eexists|done]. }
        destruct failure as [[msg|x]|].
        -- destruct (yielded_items (L:=stream_log) out) as [Hitems Hnone].
           apply Hrest; [| |by split];
             rewrite ?yielded_app, ?stream_logged_app, ?Hitems, ?Hnone;
             simpl; by rewrite ?app_nil_r.
        -- intros [= ->]. apply Hhere. by right.
        -- destruct (yielded_items (L:=stream_log) out) as [Hitems Hnone].
           apply Hrest; [| |by split]; by rewrite ?Hitems, ?Hnone.
    + destruct x as [msg| | | |];
        try (intros [= <-]; apply (Hhere []); by repeat split).
      apply Hrest; [done|done|by eexists].
  - intros p file item _ _ Hitem.
    destruct (navigators nav (read_documents file).1) as [out e] eqn:Hnav.
    destruct (navigators_prefix _ out e Hnav) as (read & Hpre & Hall & _).
    simpl in Hitem. apply list_elem_of_lookup in Hitem as [j Hj].
    destruct (Forall2_lookup_r _ _ _ _ _ Hall Hj) as ([q doc] & Hdoc & Hq & Hn).
    exists doc. simpl in *. split; [|done].
    rewrite Hq. eapply elem_of_prefix; [|exact Hpre]. by eapply list_elem_of_lookup_2.
Qed.
End DocStreamFacts.

(** One path without metadata and one whose file holds a document that is
    not a mapping: the first is logged, the first document of the file is
    yielded, and the second ends the stream with [ValueError]. *)
Lemma ui_doc_path_stream_events_witness :
  ui_doc_path_stream MoreExamples.metadata_path MoreExamples.documents
    MoreExamples.mapping_nav ["nothing"]
  = ([inl (NoMetadataDocs "nothing")], None) ∧
  ∃ events n,
    ui_doc_path_stream MoreExamples.metadata_path MoreExamples.documents
      MoreExamples.mapping_nav ["nothing"; "scene"; "other"]
    = (events, Some (ValueError "")) ∧
    yielded events = [("file:///scene/metadata.yaml", n)] ∧
    stream_logged events = [NoMetadataDocs "nothing"] ∧
    MoreExamples.mapping_nav (VDict [("id", VStr "a")]) = Returned n.
Proof.
  destruct (ui_doc_path_stream_events MoreExamples.metadata_path MoreExamples.documents
              MoreExamples.mapping_nav ["nothing"]) as (Hclean & _ & _).
  destruct (ui_doc_path_stream_events MoreExamples.metadata_path MoreExamples.documents
              MoreExamples.mapping_nav ["nothing"; "scene"; "other"])
    as (_ & Hescapes & _).
  split.
  - destruct Hclean as (Hend & Hy & Hl).
    { repeat constructor. by eexists. }
    by vm_compute.
  - destruct (Hescapes (ValueError "")) as (before & p & after & out & _ & _ & _ & Hy & Hl);
      [by vm_compute|].
    eexists _, _. split; [by vm_compute|]. split; [by vm_compute|]. by vm_compute.
Defined.
